(** * Evaluation engine of the aircraft-detection benchmark

    A shallow embedding of the scoring engine, the response normalizer and
    the CSV run serializer (all from [services/evalService.ts]), and of the
    stop and reset operations of [hooks/useEvaluation.ts], with the
    properties that the specification states about them.

    Conventions of the embedding.
    - A JavaScript string is the list of its UTF-16 code units ([list N]).
    - A JavaScript number is an exact rational, or NaN, or an infinity: the
      rounding of IEEE doubles and the sign of zero are not modelled. Object
      counts and class ids of the data model are integers ([Z]).
    - Parsed JSON is a tree ([json]); [undefined] is [None].
    - A [Map] keyed by numbers is a [gmap]; a [Set] is the duplicate-free
      list of its elements in insertion order.
    - Code that can throw returns a [completion]: [Return v] or [Throw e].
    - The parts of the page state that an operation reads or writes are a
      record, passed in and returned. *)

From Stdlib Require Import ZArith QArith Qcanon Qabs Qround Ascii String.
From stdpp Require Import base option list sorting gmap.

Local Open Scope Z_scope.
#[local] Set Warnings "-register-all".

(** ** The JavaScript run-time the code relies on

    Strings are sequences of UTF-16 code units ([N]); numbers are exact
    rationals, with [NaN] and the infinities that [Number(...)] can
    return on text. *)

Module JS.

Abbreviation str := (list N).

(** An ASCII literal as a string. *)
Definition js (s : string) : str := (λ a, N_of_ascii a) <$> list_ascii_of_string s.

(** The same, with every apostrophe standing for a double quote. *)
Definition jsq (s : string) : str := (λ c, if (c =? 39)%N then 34%N else c) <$> js s.

Definition LF : N := 10%N.
Definition DQUOTE : N := 34%N.
Definition COMMA : N := 44%N.
Definition SEMICOLON : N := 59%N.

Inductive exn := SyntaxError | TypeError | Error (message : string).

Inductive completion (A : Type) := Return (v : A) | Throw (e : exn).
Arguments Return {A} v.
Arguments Throw {A} e.

#[global] Instance completion_ret : MRet completion := λ A v, Return v.
#[global] Instance completion_bind : MBind completion := λ A B k c,
  match c with Return v => k v | Throw e => Throw e end.
#[global] Instance completion_fmap : FMap completion := λ A B f c,
  match c with Return v => Return (f v) | Throw e => Throw e end.

(** [try { body } catch (e) { handler }]. *)
Definition try_catch {A} (body : completion A) (handler : exn → completion A) : completion A :=
  match body with Return v => Return v | Throw e => handler e end.

(** *** Characters *)

(** WhiteSpace and LineTerminator of ECMAScript: what [trim] strips and
    what [\s] matches. *)
Definition isWhiteSpace (c : N) : bool :=
  bool_decide (c ∈ [9; 10; 11; 12; 13; 32; 160; 5760; 8232; 8233; 8239; 8287; 12288; 65279]%N)
  || ((8192 <=? c) && (c <=? 8202))%N.

(** [\d] *)
Definition isDigit (c : N) : bool := ((48 <=? c) && (c <=? 57))%N.

(** [\w] *)
Definition isWordChar (c : N) : bool :=
  isDigit c || ((65 <=? c) && (c <=? 90))%N || ((97 <=? c) && (c <=? 122))%N || (c =? 95)%N.

(** Upper-case letters to lower case, as the [i] flag compares ASCII letters. *)
Definition toLowerASCII (c : N) : N :=
  if ((65 <=? c) && (c <=? 90))%N then (c + 32)%N else c.

(** A decimal digit, and a character of an integer in decimal: a digit or
    the minus sign. *)
Definition digitChar (c : N) : Prop := (48 ≤ c ≤ 57)%N.
Definition numeralChar (c : N) : Prop := digitChar c ∨ c = 45%N.

(** *** Strings *)

Fixpoint dropWhile {A} (f : A → bool) (xs : list A) : list A :=
  match xs with
  | [] => []
  | x :: rest => if f x then dropWhile f rest else xs
  end.

Fixpoint takeWhile {A} (f : A → bool) (xs : list A) : list A :=
  match xs with
  | [] => []
  | x :: rest => if f x then x :: takeWhile f rest else []
  end.

Definition trimStart (s : str) : str := dropWhile isWhiteSpace s.
Definition trimEnd (s : str) : str := reverse (dropWhile isWhiteSpace (reverse s)).
Definition trim (s : str) : str := trimEnd (trimStart s).

Fixpoint startsWith (s prefix : str) : bool :=
  match prefix, s with
  | [], _ => true
  | p :: prefix', c :: s' => (c =? p)%N && startsWith s' prefix'
  | _ :: _, [] => false
  end.

Definition endsWith (s suffix : str) : bool := startsWith (reverse s) (reverse suffix).

(** [s.split(sep)] for a one-character separator. *)
Fixpoint split_aux (sep : N) (current : str) (s : str) : list str :=
  match s with
  | [] => [current]
  | c :: rest =>
    if (c =? sep)%N then current :: split_aux sep [] rest
    else split_aux sep (current ++ [c]) rest
  end.

Definition split (sep : N) (s : str) : list str := split_aux sep [] s.

(** [xs.join(sep)] *)
Fixpoint join (sep : str) (xs : list str) : str :=
  match xs with
  | [] => []
  | [x] => x
  | x :: rest => x ++ sep ++ join sep rest
  end.

(** [s.replace(/c/g, by)] for a one-character pattern. *)
Definition replaceAll (c : N) (by_ : str) (s : str) : str :=
  mjoin ((λ x, if (x =? c)%N then by_ else [x]) <$> s).

(** [xs.indexOf(x)], [None] for -1. *)
Fixpoint indexOf (xs : list str) (x : str) : option nat :=
  match xs with
  | [] => None
  | y :: rest => if bool_decide (y = x) then Some 0%nat else S <$> indexOf rest x
  end.

Definition includes (xs : list str) (x : str) : bool := bool_decide (x ∈ xs).

(** *** Numbers *)

(** A finite number carries its exact value, a rational: the rounding of
    double-precision arithmetic and its overflow to an infinity are left
    out, so that [Num (2 # 3)] stands for the double nearest to 2/3.
    Integers below 2^53 are the same in both. *)
Inductive number := Num (q : Q) | NaN | PosInf | NegInf.

Definition digitValue (c : N) : Z := Z.of_N c - 48.

(** The value of a run of decimal digits, most significant first. *)
Definition decimalValue (ds : str) : Z := foldl (λ acc c, 10 * acc + digitValue c) 0 ds.

(** The value of a hexadecimal, octal or binary digit, if [c] is one. *)
Definition radixDigit (radix : Z) (c : N) : option Z :=
  let v :=
    if isDigit c then Some (digitValue c)
    else if ((97 <=? c) && (c <=? 122))%N then Some (Z.of_N c - 87)
    else if ((65 <=? c) && (c <=? 90))%N then Some (Z.of_N c - 55)
    else None in
  v ≫= λ d, if d <? radix then Some d else None.

Definition isRadixDigit (radix : Z) (c : N) : bool := bool_decide (is_Some (radixDigit radix c)).

Definition radixValue (radix : Z) (ds : str) : Z :=
  foldl (λ acc c, radix * acc + default 0 (radixDigit radix c)) 0 ds.

(** [parseInt(s)] without a radix; [None] is NaN. Leading white space is
    skipped, then a sign and a [0x] prefix are read, then the longest run of
    digits. The result is the exact integer that the digits denote; the
    source has the double nearest to it, which is that integer below 2^53
    (any run of at most 15 decimal digits) and Infinity from about 309
    digits on. *)
Definition parseInt (s : str) : option Z :=
  let s := trimStart s in
  let '(sign, s) :=
    match s with
    | c :: rest =>
      if (c =? 45)%N then (-1, rest) else if (c =? 43)%N then (1, rest) else (1, s)
    | [] => (1, s)
    end in
  let '(radix, s) :=
    match s with
    | c :: x :: rest =>
      if (c =? 48)%N && ((x =? 120)%N || (x =? 88)%N) then (16, rest) else (10, s)
    | _ => (10, s)
    end in
  match takeWhile (isRadixDigit radix) s with
  | [] => None
  | ds => Some (sign * radixValue radix ds)
  end.

(** The decimal digits of a natural number. *)
Fixpoint digitsOf (fuel : nat) (n : N) (acc : str) : str :=
  let acc' := (48 + n mod 10)%N :: acc in
  match fuel with
  | O => acc'
  | S fuel' => if (n <? 10)%N then acc' else digitsOf fuel' (n / 10)%N acc'
  end.

Definition digits (n : N) : str := digitsOf (N.to_nat (N.log2 n)) n [].

(** [String(z)] for an integer below 10^21 in absolute value. *)
Definition NumberToString (z : Z) : str :=
  if z <? 0 then 45%N :: digits (Z.abs_N z) else digits (Z.abs_N z).

(** [x.toFixed(f)] for a finite [x] below 10^21 in absolute value: [x]
    rounded to [f] decimals, halves away from zero. *)
Definition toFixed (f : nat) (x : Q) : str :=
  let n := Z.to_N (Qfloor (Qabs x * inject_Z (10 ^ Z.of_nat f) + (1 # 2))) in
  let ds := digits n in
  let ds := replicate (S f - length ds) 48%N ++ ds in
  let whole := take (length ds - f) ds in
  let frac := drop (length ds - f) ds in
  (if Qlt_le_dec x 0 then [45%N] else [])
  ++ whole ++ (if bool_decide (f = 0%nat) then [] else 46%N :: frac).

(** A decimal literal: digits, an optional fraction and an optional
    exponent. [strict] imposes the JSON grammar (a leading digit, no
    superfluous leading zero, digits after the point); otherwise the
    grammar of [StrUnsignedDecimalLiteral]. The whole text must match. *)
Definition decimalLiteral (strict : bool) (s : str) : option Q :=
  let intPart := takeWhile isDigit s in
  let s := dropWhile isDigit s in
  let '(hasPoint, fracPart, s) :=
    match s with
    | 46%N :: rest => (true, takeWhile isDigit rest, dropWhile isDigit rest)
    | _ => (false, [], s)
    end in
  let exponent : option Z :=
    match s with
    | [] => Some 0
    | e :: rest =>
      if bool_decide (e = 101%N ∨ e = 69%N) then
        let '(esign, ds) :=
          match rest with
          | 45%N :: ds => (-1, ds)
          | 43%N :: ds => (1, ds)
          | _ => (1, rest)
          end in
        if bool_decide (ds ≠ []) && forallb isDigit ds then Some (esign * decimalValue ds)
        else None
      else None
    end in
  let wellFormed :=
    if strict then
      bool_decide (intPart ≠ [])
      && (bool_decide (intPart = [48%N]) || negb (startsWith intPart [48%N]))
      && (negb hasPoint || bool_decide (fracPart ≠ []))
    else bool_decide (intPart ≠ [] ∨ fracPart ≠ []) in
  if wellFormed then
    exponent ≫= λ e,
      Some (Qred (inject_Z (decimalValue (intPart ++ fracPart))
                  * (10 # 1) ^ (e - Z.of_nat (length fracPart))))
  else None.

(** [Number(s)] on a string: StringToNumber. *)
Definition StringToNumber (s : str) : number :=
  let s := trim s in
  match s with
  | [] => Num 0
  | 48%N :: x :: rest =>
    let radix : option Z :=
      if bool_decide (x = 120%N ∨ x = 88%N) then Some 16
      else if bool_decide (x = 111%N ∨ x = 79%N) then Some 8
      else if bool_decide (x = 98%N ∨ x = 66%N) then Some 2
      else None in
    match radix with
    | Some r =>
      if bool_decide (rest ≠ []) && forallb (isRadixDigit r) rest
      then Num (inject_Z (radixValue r rest)) else NaN
    | None => from_option Num NaN (decimalLiteral false s)
    end
  | _ =>
    let '(negative, body) :=
      match s with
      | 45%N :: rest => (true, rest)
      | 43%N :: rest => (false, rest)
      | _ => (false, s)
      end in
    if bool_decide (body = js "Infinity") then (if negative then NegInf else PosInf)
    else
      match decimalLiteral false body with
      | Some q => Num (if negative then Qred (- q) else q)
      | None => NaN
      end
  end.

(** Arithmetic on numbers. Negative zero is not told from zero, so a
    division by zero takes its sign from the dividend alone. *)
Definition ofZ (z : Z) : number := Num (inject_Z z).
Definition ofNat (n : nat) : number := ofZ (Z.of_nat n).

(** [a === b] *)
Definition strictEq (a b : number) : bool :=
  match a, b with
  | Num x, Num y => Qeq_bool x y
  | PosInf, PosInf | NegInf, NegInf => true
  | _, _ => false
  end.

Definition Math_min (a b : number) : number :=
  match a, b with
  | NaN, _ | _, NaN => NaN
  | NegInf, _ | _, NegInf => NegInf
  | PosInf, x | x, PosInf => x
  | Num x, Num y => Num (if Qle_bool x y then x else y)
  end.

Definition Math_max (a b : number) : number :=
  match a, b with
  | NaN, _ | _, NaN => NaN
  | PosInf, _ | _, PosInf => PosInf
  | NegInf, x | x, NegInf => x
  | Num x, Num y => Num (if Qle_bool x y then y else x)
  end.

(** [a / b] *)
Definition div (a b : number) : number :=
  match a, b with
  | NaN, _ | _, NaN => NaN
  | Num x, Num y =>
    if Qeq_bool y 0 then
      if Qeq_bool x 0 then NaN else if Qle_bool 0 x then PosInf else NegInf
    else Num (x / y)
  | Num _, _ => Num 0
  | PosInf, Num y => if Qle_bool 0 y then PosInf else NegInf
  | NegInf, Num y => if Qle_bool 0 y then NegInf else PosInf
  | _, _ => NaN
  end.

(** [a * b] *)
Definition mul (a b : number) : number :=
  match a, b with
  | NaN, _ | _, NaN => NaN
  | Num x, Num y => Num (x * y)
  | Num x, inf | inf, Num x =>
    if Qeq_bool x 0 then NaN
    else if Qle_bool 0 x then inf
    else match inf with PosInf => NegInf | _ => PosInf end
  | PosInf, PosInf | NegInf, NegInf => PosInf
  | _, _ => NegInf
  end.

(** A number of the closed interval from 0 to 1. *)
Definition inUnit (n : number) : Prop :=
  match n with Num q => (0 <= q <= 1)%Q | _ => False end.

(** A number that is neither negative nor NaN. *)
Definition notNegative (n : number) : Prop :=
  match n with Num q => (0 <= q)%Q | PosInf => True | _ => False end.

(** *** JSON *)

Inductive json :=
  | JNull
  | JBool (b : bool)
  | JNumber (q : Q)
  | JString (s : str)
  | JArray (elements : list json)
  | JObject (members : list (str * json)).

Inductive token :=
  | TLBrace | TRBrace | TLBracket | TRBracket | TColon | TComma
  | TString (s : str) | TNumber (q : Q) | TTrue | TFalse | TNull.

(** The lexer reads one code unit at a time. A literal or a number is
    read as a maximal run of the characters such tokens are made of, and
    classified when the run ends. *)
Inductive lexState :=
  | LexStart
  | LexWord (run : str)
  | LexString (content : str)
  | LexEscape (content : str)
  | LexUnicode (content : str) (hex : str).

Definition isJSONWhiteSpace (c : N) : bool := bool_decide (c ∈ [9; 10; 13; 32]%N).

Definition isWordRunChar (c : N) : bool :=
  isDigit c || ((65 <=? c) && (c <=? 90))%N || ((97 <=? c) && (c <=? 122))%N
  || bool_decide (c ∈ [43; 45; 46]%N).

Definition classifyWord (run : str) : option token :=
  if bool_decide (run = js "true") then Some TTrue
  else if bool_decide (run = js "false") then Some TFalse
  else if bool_decide (run = js "null") then Some TNull
  else
    match run with
    | 45%N :: rest => (λ q, TNumber (Qred (- q))) <$> decimalLiteral true rest
    | _ => TNumber <$> decimalLiteral true run
    end.

(** A code unit met between tokens. *)
Definition lexStartChar (c : N) (tokens : list token) : option (list token * lexState) :=
  if isJSONWhiteSpace c then Some (tokens, LexStart)
  else if (c =? 123)%N then Some (tokens ++ [TLBrace], LexStart)
  else if (c =? 125)%N then Some (tokens ++ [TRBrace], LexStart)
  else if (c =? 91)%N then Some (tokens ++ [TLBracket], LexStart)
  else if (c =? 93)%N then Some (tokens ++ [TRBracket], LexStart)
  else if (c =? 58)%N then Some (tokens ++ [TColon], LexStart)
  else if (c =? 44)%N then Some (tokens ++ [TComma], LexStart)
  else if (c =? 34)%N then Some (tokens, LexString [])
  else if isWordRunChar c then Some (tokens, LexWord [c])
  else None.

Definition escapeChar (c : N) : option N :=
  if (c =? 34)%N then Some 34%N
  else if (c =? 92)%N then Some 92%N
  else if (c =? 47)%N then Some 47%N
  else if (c =? 98)%N then Some 8%N
  else if (c =? 102)%N then Some 12%N
  else if (c =? 110)%N then Some 10%N
  else if (c =? 114)%N then Some 13%N
  else if (c =? 116)%N then Some 9%N
  else None.

Fixpoint lex (state : lexState) (tokens : list token) (s : str) : option (list token) :=
  match s with
  | [] =>
    match state with
    | LexStart => Some tokens
    | LexWord run => (λ t, tokens ++ [t]) <$> classifyWord run
    | _ => None
    end
  | c :: rest =>
    match state with
    | LexStart => '(tokens', state') ← lexStartChar c tokens; lex state' tokens' rest
    | LexWord run =>
      if isWordRunChar c then lex (LexWord (run ++ [c])) tokens rest
      else
        t ← classifyWord run;
        '(tokens', state') ← lexStartChar c (tokens ++ [t]);
        lex state' tokens' rest
    | LexString content =>
      if (c =? 34)%N then lex LexStart (tokens ++ [TString content]) rest
      else if (c =? 92)%N then lex (LexEscape content) tokens rest
      else if (c <? 32)%N then None
      else lex (LexString (content ++ [c])) tokens rest
    | LexEscape content =>
      if (c =? 117)%N then lex (LexUnicode content []) tokens rest
      else e ← escapeChar c; lex (LexString (content ++ [e])) tokens rest
    | LexUnicode content hex =>
      if isRadixDigit 16 c then
        if bool_decide (length hex = 3%nat)
        then lex (LexString (content ++ [Z.to_N (radixValue 16 (hex ++ [c]))])) tokens rest
        else lex (LexUnicode content (hex ++ [c])) tokens rest
      else None
    end
  end.

(** The parser is a stack machine over the tokens: one frame per array or
    object still open. *)
Inductive frame :=
  | FArray (elements : list json)
  | FObject (members : list (str * json)) (key : option str).

Inductive parseState :=
  | PValue | PFirstElement | PFirstKey | PKey | PColon | PAfterValue
  | PDone (v : json).

Definition pushValue (v : json) (stack : list frame) : option (list frame * parseState) :=
  match stack with
  | [] => Some ([], PDone v)
  | FArray elements :: stack' => Some (FArray (elements ++ [v]) :: stack', PAfterValue)
  | FObject members (Some key) :: stack' =>
    Some (FObject (members ++ [(key, v)]) None :: stack', PAfterValue)
  | FObject _ None :: _ => None
  end.

Definition startValue (t : token) (stack : list frame) : option (list frame * parseState) :=
  match t with
  | TLBrace => Some (FObject [] None :: stack, PFirstKey)
  | TLBracket => Some (FArray [] :: stack, PFirstElement)
  | TString s => pushValue (JString s) stack
  | TNumber q => pushValue (JNumber q) stack
  | TTrue => pushValue (JBool true) stack
  | TFalse => pushValue (JBool false) stack
  | TNull => pushValue JNull stack
  | _ => None
  end.

Definition closeArray (stack : list frame) : option (list frame * parseState) :=
  match stack with
  | FArray elements :: stack' => pushValue (JArray elements) stack'
  | _ => None
  end.

Definition closeObject (stack : list frame) : option (list frame * parseState) :=
  match stack with
  | FObject members None :: stack' => pushValue (JObject members) stack'
  | _ => None
  end.

Definition setKey (key : str) (stack : list frame) : option (list frame * parseState) :=
  match stack with
  | FObject members None :: stack' => Some (FObject members (Some key) :: stack', PColon)
  | _ => None
  end.

Definition parseStep (state : parseState) (stack : list frame) (t : token)
    : option (list frame * parseState) :=
  match state, t with
  | PValue, _ => startValue t stack
  | PFirstElement, TRBracket => closeArray stack
  | PFirstElement, _ => startValue t stack
  | PFirstKey, TRBrace => closeObject stack
  | PFirstKey, TString key | PKey, TString key => setKey key stack
  | PColon, TColon => Some (stack, PValue)
  | PAfterValue, TComma =>
    match stack with
    | FArray _ :: _ => Some (stack, PValue)
    | FObject _ _ :: _ => Some (stack, PKey)
    | [] => None
    end
  | PAfterValue, TRBracket => closeArray stack
  | PAfterValue, TRBrace => closeObject stack
  | _, _ => None
  end.

Fixpoint parseTokens (state : parseState) (stack : list frame) (ts : list token) : option json :=
  match ts with
  | [] => match state with PDone v => Some v | _ => None end
  | t :: rest =>
    '(stack', state') ← parseStep state stack t; parseTokens state' stack' rest
  end.

(** [JSON.parse(text)]; a malformed text throws a SyntaxError. *)
Definition JSON_parse (text : str) : completion json :=
  match lex LexStart [] text ≫= parseTokens PValue [] with
  | Some v => Return v
  | None => Throw SyntaxError
  end.

(** A JavaScript value read from parsed JSON: [None] is [undefined]. *)
Abbreviation value := (option json).

(** [v.key] for one of the keys the code reads, none of which is on a
    prototype: a TypeError on [null] (and on [undefined]), the own property of an
    object (the last of duplicate members), [undefined] otherwise. *)
Definition getProp (v : value) (key : str) : completion value :=
  match v with
  | None | Some JNull => Throw TypeError
  | Some (JObject members) =>
    Return (foldl (λ found m, if bool_decide (m.1 = key) then Some m.2 else found) None members)
  | Some _ => Return None
  end.

(** Truthiness, as [||] and [?:] test it. *)
Definition truthy (v : value) : bool :=
  match v with
  | None | Some JNull => false
  | Some (JBool b) => b
  | Some (JNumber q) => negb (Qeq_bool q 0)
  | Some (JString s) => bool_decide (s ≠ [])
  | Some (JArray _) | Some (JObject _) => true
  end.

(** [Array.isArray(v)], with the elements. *)
Definition asArray (v : value) : option (list json) :=
  match v with Some (JArray elements) => Some elements | _ => None end.

(** [Array.isArray(v)] alone, and the elements of a value known to be an array. *)
Definition isArray (v : value) : bool := bool_decide (is_Some (asArray v)).
Definition elementsOf (v : value) : list json := default [] (asArray v).

(** Converting an object to a primitive throws a TypeError when the
    object has a member named [toString]: the member hides the method and
    is not callable. An array is converted through the texts of its
    elements, so it throws when one of them does. *)
Fixpoint toPrimitiveThrows (v : json) : bool :=
  match v with
  | JObject members => bool_decide (js "toString" ∈ members.*1)
  | JArray elements =>
    (fix any (xs : list json) : bool :=
       match xs with
       | [] => false
       | x :: rest => toPrimitiveThrows x || any rest
       end) elements
  | _ => false
  end.

(** The number that [Number(v)] gives when the conversion does not throw.
    An array converts through its text: the empty array and [[null]] give
    0, a one-element array converts as the text of its element, a longer one
    has a comma in its text and gives NaN; an object gives NaN. *)
Fixpoint numberOf (v : json) : number :=
  match v with
  | JNull => Num 0
  | JBool b => Num (if b then 1 else 0)
  | JNumber q => Num q
  | JString s => StringToNumber s
  | JArray [] => Num 0
  | JArray [x] =>
    match x with
    | JNull => Num 0
    | JBool _ => NaN
    | JNumber q => Num q
    | JString s => StringToNumber s
    | JArray _ => numberOf x
    | JObject _ => NaN
    end
  | JArray _ => NaN
  | JObject _ => NaN
  end.

(** [Number(v)] *)
Definition ToNumber (v : json) : completion number :=
  if toPrimitiveThrows v then Throw TypeError else Return (numberOf v).

(** [Number(v)] on a value that may be [undefined]. *)
Definition Number (v : value) : completion number :=
  match v with Some j => ToNumber j | None => Return NaN end.

End JS.

(** ** Scoring engine *)

Module Scoring.
Import JS.

(** The numbers used as class ids, with the order that
    [sort((a, b) => a - b)] sorts them in and under which a [Map] or a
    [Set] holds each of them once. *)
Class ClassId (K : Type) `{Countable K} := {
  classId_le : relation K;
  classId_le_dec :: RelDecision classId_le;
  classId_le_po :: PartialOrder classId_le;
  classId_le_total :: Total classId_le
}.

#[global] Instance Z_ClassId : ClassId Z := {| classId_le := Z.le |}.

#[global] Instance Qc_eq_dec' : EqDecision Qc := Qc_eq_dec.

#[global] Program Instance Qc_countable : Countable Qc :=
  inj_countable' (λ q : Qc, (Qnum q, Qden q)) (λ p, Q2Qc (p.1 # p.2)) _.
Next Obligation. intros [[n d] Hq]. apply Qc_is_canon. simpl. apply Qred_correct. Qed.

#[global] Instance Qcle_dec : RelDecision Qcle.
Proof. intros x y. destruct (Qclt_le_dec y x); [right|left]; [by apply Qclt_not_le|done]. Defined.

#[global] Instance Qcle_po : PartialOrder Qcle.
Proof.
  split; [split|].
  - intros x. apply Qcle_refl.
  - intros x y z. apply Qcle_trans.
  - intros x y. apply Qcle_antisym.
Qed.

#[global] Instance Qcle_total : Total Qcle.
Proof. intros x y. destruct (Qclt_le_dec x y); [left|right]; [by apply Qclt_le_weak|done]. Qed.

#[global] Instance Qc_ClassId : ClassId Qc := {| classId_le := Qcle |}.

Record Score := { countAccuracy : number; classAccuracy : number }.

Section ClassAccuracy.
Context {K : Type} `{ClassId K}.

(** [[...xs].sort((a, b) => a - b)]: the ascending rearrangement. *)
Definition sortNumbers (xs : list K) : list K := merge_sort classId_le xs.

(** [xs.every((val, idx) => f(val, idx))]. *)
Fixpoint every_from {A} (f : A → nat → bool) (idx : nat) (xs : list A) : bool :=
  match xs with
  | [] => true
  | val :: rest => f val idx && every_from f (S idx) rest
  end.

Definition every {A} (f : A → nat → bool) (xs : list A) : bool := every_from f 0 xs.

(** [m.get(k) || 0] on a map of occurrence counts. *)
Definition getOr0 (m : gmap K nat) (k : K) : nat := default 0%nat (m !! k).

(** [xs.forEach(val => m.set(val, (m.get(val) || 0) + 1))] from the empty map. *)
Definition countOccurrences (xs : list K) : gmap K nat :=
  foldl (λ m val, <[val := (getOr0 m val + 1)%nat]> m) ∅ xs.

(** [new Set(xs)]: first occurrences, in insertion order. *)
Definition Set_add (s : list K) (x : K) : list K :=
  if bool_decide (x ∈ s) then s else s ++ [x].

Definition newSet (xs : list K) : list K := foldl Set_add [] xs.

Definition calculateClassAccuracy (actual predicted : list K) : number :=
  if bool_decide (length actual = 0%nat) && bool_decide (length predicted = 0%nat) then Num 1
  else if bool_decide (length actual = 0%nat) || bool_decide (length predicted = 0%nat) then Num 0
  else
    let sortedActual := sortNumbers actual in
    let sortedPredicted := sortNumbers predicted in
    if bool_decide (length sortedActual = length sortedPredicted)
       && every (λ val idx, bool_decide (sortedPredicted !! idx = Some val)) sortedActual
    then Num 1
    else
      let actualCounts := countOccurrences sortedActual in
      let predictedCounts := countOccurrences sortedPredicted in
      let allClasses := newSet (actual ++ predicted) in
      let correctMatches :=
        foldl (λ acc classId,
                 (acc + Nat.min (getOr0 actualCounts classId)
                                (getOr0 predictedCounts classId))%nat)
              0%nat allClasses in
      let minTotal := Nat.min (length actual) (length predicted) in
      let maxTotal := Nat.max (length actual) (length predicted) in
      if bool_decide (length actual = length predicted) then
        if bool_decide (0 < maxTotal)%nat then div (ofNat correctMatches) (ofNat maxTotal)
        else Num 0
      else
        let baseScore := div (ofNat correctMatches) (ofNat maxTotal) in
        let lengthPenalty :=
          div (ofNat (Nat.min (length actual) (length predicted)))
              (ofNat (Nat.max (length actual) (length predicted))) in
        mul baseScore lengthPenalty.

Definition calculateImageScore (actualCount : number) (actualClasses : list K)
    (predictedCount : number) (predictedClasses : list K) : Score :=
  let countAccuracy :=
    if strictEq actualCount (Num 0) && strictEq predictedCount (Num 0) then Num 1
    else if strictEq actualCount (Num 0) || strictEq predictedCount (Num 0) then Num 0
    else
      let ratio := div (Math_min actualCount predictedCount)
                       (Math_max actualCount predictedCount) in
      ratio in
  let classAccuracy := calculateClassAccuracy actualClasses predictedClasses in
  {| countAccuracy := countAccuracy; classAccuracy := classAccuracy |}.

(** The class accuracy as the specification words it: both sequences are
    multisets; [occ c xs] is the multiplicity of [c]. *)
Definition occ (c : K) (xs : list K) : nat := length (filter (λ x, x = c) xs).

Definition correctOf (actual predicted : list K) : nat :=
  sum_list_with (λ c, Nat.min (occ c actual) (occ c predicted))
                (remove_dups (actual ++ predicted)).

Definition ratio (n d : nat) : Q := (inject_Z (Z.of_nat n) / inject_Z (Z.of_nat d))%Q.

Definition classAccuracy_spec (actual predicted : list K) : number :=
  match actual, predicted with
  | [], [] => Num 1
  | [], _ :: _ | _ :: _, [] => Num 0
  | _, _ =>
    if decide (actual ≡ₚ predicted) then Num 1
    else
      let correct := correctOf actual predicted in
      let maxTotal := Nat.max (length actual) (length predicted) in
      if decide (length actual = length predicted) then Num (ratio correct maxTotal)
      else Num (ratio correct maxTotal
                * ratio (Nat.min (length actual) (length predicted))
                        (Nat.max (length actual) (length predicted)))
  end.

End ClassAccuracy.

End Scoring.

(** ** Response normalizer *)

Module Normalizer.
Import JS.

Record ParsedResponse := {
  count : number;
  classes : list Q;
  countConfidence : value;
  classConfidences : option (list Q)
}.

(** [s.replace(/^prefix\s*/, '')] *)
Definition stripPrefixAndSpace (prefix s : str) : str :=
  if startsWith s prefix then dropWhile isWhiteSpace (drop (length prefix) s) else s.

(** [s.replace(/\s*```$/, '')]: a closing fence at the very end goes, with
    the white space before it. *)
Definition stripClosingFence (s : str) : str :=
  if endsWith s (js "```") then reverse (dropWhile isWhiteSpace (drop 3 (reverse s))) else s.

(** [s.match(/\{[\s\S]*\}/)]: from the first opening brace to the last
    closing brace after it. *)
Definition matchBraces (s : str) : option str :=
  match dropWhile (λ c, negb (c =? 123)%N) s with
  | [] => None
  | _ :: rest =>
    match dropWhile (λ c, negb (c =? 125)%N) (reverse rest) with
    | [] => None
    | revMatch => Some (123%N :: reverse revMatch)
    end
  end.

Definition startsWithIgnoreCase (s word : str) : bool :=
  startsWith (toLowerASCII <$> s) word.

(** [[\s:]*(\d+)], the tail of the count pattern: the digits captured. *)
Definition matchCountTail (s : str) : option str :=
  match takeWhile isDigit (dropWhile (λ c, isWhiteSpace c || (c =? 58)%N) s) with
  | [] => None
  | ds => Some ds
  end.

(** The count pattern tried at the start of [s]; the alternatives in order,
    [planes?] with its [s] first. *)
Definition matchCountHere (s : str) : option str :=
  let alternative (word : str) : option str :=
    if startsWithIgnoreCase s word then matchCountTail (drop (length word) s) else None in
  match alternative (js "count") with
  | Some ds => Some ds
  | None =>
    match alternative (js "aircraft") with
    | Some ds => Some ds
    | None =>
      match alternative (js "planes") with
      | Some ds => Some ds
      | None => alternative (js "plane")
      end
    end
  end.

(** [s.match(/(?:count|aircraft|planes?)[\s:]*(\d+)/i)]: group 1 of the
    leftmost match. *)
Fixpoint matchCount (s : str) : option str :=
  match matchCountHere s with
  | Some ds => Some ds
  | None => match s with [] => None | _ :: rest => matchCount rest end
  end.

(** The length of the longest run of decimal digits of [s]; [current] is
    the length of the run that ends just before [s]. *)
Fixpoint digitRunFrom (current : nat) (s : str) : nat :=
  match s with
  | [] => current
  | c :: rest =>
    if isDigit c then digitRunFrom (S current) rest
    else Nat.max current (digitRunFrom 0 rest)
  end.

Definition longestDigitRun (s : str) : nat := digitRunFrom 0 s.

(** [s.match(/\b(\d{1,2})\b/g)]: every run of one or two digits that
    stands between word boundaries, left to right. [prevIsWord] tells
    whether the character before [s] is a word character. *)
Fixpoint matchSmallNumbers (prevIsWord : bool) (s : str) : list str :=
  match s with
  | [] => []
  | c :: rest =>
    if negb prevIsWord && isDigit c then
      match rest with
      | [] => [[c]]
      | d :: rest' =>
        if isDigit d then
          match rest' with
          | [] => [[c; d]]
          | e :: _ =>
            if isWordChar e then matchSmallNumbers true rest
            else [c; d] :: matchSmallNumbers true rest'
          end
        else if isWordChar d then matchSmallNumbers true rest
        else [c] :: matchSmallNumbers true rest
      end
    else matchSmallNumbers (isWordChar c) rest
  end.

(** [n >= lo && n <= hi] on a number: the finite value that passes. *)
Definition inRange (lo hi : Q) (n : number) : option Q :=
  match n with
  | Num q => if Qle_bool lo q && Qle_bool q hi then Some q else None
  | _ => None
  end.

(** [typeof v === 'number' && v >= lo && v <= hi] *)
Definition numberInRange (lo hi : Q) (v : value) : option Q :=
  match v with
  | Some (JNumber q) => inRange lo hi (Num q)
  | _ => None
  end.

(** [.filter((id) => typeof id === 'number' && id >= 0 && id <= 6)] *)
Definition filterClassIds (ids : list value) : list Q := omap (numberInRange 0 6) ids.

(** [.filter((conf) => typeof conf === 'number' && conf >= 0 && conf <= 1)] *)
Definition filterConfidences (confs : list value) : list Q := omap (numberInRange 0 1) confs.

(** [xs.map((obj) => obj.key)] *)
Definition mapProp (key : str) (xs : list json) : completion (list value) :=
  mapM (λ obj, getProp (Some obj) key) xs.

(** [v?.map((obj) => obj.key)] *)
Definition optionalMapProp (key : str) (v : value) : completion (option (list value)) :=
  match v with
  | None | Some JNull => Return None
  | Some (JArray xs) => Some <$> mapProp key xs
  | Some _ => Throw TypeError
  end.

(** The opening of the [try] block: trim the response and remove a
    Markdown code fence. *)
Definition stripFences (response : str) : str :=
  let cleanResponse := trim response in
  if startsWith cleanResponse (js "```json") then
    stripClosingFence (stripPrefixAndSpace (js "```json") cleanResponse)
  else if startsWith cleanResponse (js "```") then
    stripClosingFence (stripPrefixAndSpace (js "```") cleanResponse)
  else cleanResponse.

(** The brace extraction, made on every response. *)
Definition extractJSON (cleanResponse : str) : str :=
  match matchBraces cleanResponse with
  | Some jsonMatch => jsonMatch
  | None => cleanResponse
  end.

(** The [try] block after [JSON.parse]: the three recognised shapes in
    turn, then the fallback. The properties of [parsed] are read first:
    reading any of them throws when [parsed] is [null], and none throws
    otherwise. *)
Definition interpret (parsed : json) : completion ParsedResponse :=
  parsed_count ← getProp (Some parsed) (js "count");
  parsed_objects ← getProp (Some parsed) (js "objects");
  parsed_aircraft ← getProp (Some parsed) (js "aircraft");
  parsed_classes ← getProp (Some parsed) (js "classes");
  parsed_countConfidence ← getProp (Some parsed) (js "countConfidence");
  if bool_decide (parsed_count ≠ None) && isArray parsed_objects then
    ids ← mapProp (js "class") (elementsOf parsed_objects);
    confs ← mapProp (js "confidence") (elementsOf parsed_objects);
    let classes := filterClassIds ids in
    let classConfidences := filterConfidences confs in
    count ← Number parsed_count;
    Return {| count := count;
              classes := classes;
              countConfidence := parsed_countConfidence;
              classConfidences :=
                if bool_decide (0 < length classConfidences)%nat
                then Some classConfidences else None |}
  else if bool_decide (parsed_count ≠ None) && isArray parsed_aircraft then
    ids ← mapProp (js "class_id") (elementsOf parsed_aircraft);
    count ← Number parsed_count;
    Return {| count := count;
              classes := filterClassIds ids;
              countConfidence := parsed_countConfidence;
              classConfidences := None |}
  else if bool_decide (parsed_count ≠ None) && isArray parsed_classes then
    let classes := filterClassIds (Some <$> elementsOf parsed_classes) in
    count ← Number parsed_count;
    Return {| count := count;
              classes := classes;
              countConfidence := parsed_countConfidence;
              classConfidences := None |}
  else
    count ← (if bool_decide (parsed_count ≠ None) then Number parsed_count
             else Return (Num 0));
    classes ←
      (if truthy parsed_classes then Return (fmap (M := list) Some <$> asArray parsed_classes)
       else
         fromObjects ← optionalMapProp (js "class") parsed_objects;
         match fromObjects with
         | Some ids => Return (Some ids)
         | None =>
           fromAircraft ← optionalMapProp (js "class_id") parsed_aircraft;
           match fromAircraft with
           | Some ids => Return (Some ids)
           | None => Return (Some [])
           end
         end);
    let validClasses := match classes with Some ids => filterClassIds ids | None => [] end in
    Return {| count := count;
              classes := validClasses;
              countConfidence := parsed_countConfidence;
              classConfidences := None |}.

(** The [catch] block: numbers picked out of the raw response. *)
Definition textExtraction (response : str) : ParsedResponse :=
  let countMatch := matchCount response in
  let classMatches := matchSmallNumbers false response in
  {| count := match countMatch with
              | Some ds => from_option (λ z, Num (inject_Z z)) NaN (parseInt ds)
              | None => Num 0
              end;
     classes := omap (inRange 0 6) (StringToNumber <$> classMatches);
     countConfidence := None;
     classConfidences := None |}.

(** The [try] block as a whole. *)
Definition tryBlock (response : str) : completion ParsedResponse :=
  parsed ← JSON_parse (extractJSON (stripFences response));
  interpret parsed.

Definition parseLLMResponse (response : str) : completion ParsedResponse :=
  try_catch (tryBlock response) (λ e, Return (textExtraction response)).

(** A rational that is an integer. *)
Definition isInteger (q : Q) : Prop := ∃ z : Z, q = inject_Z z.

(** What the pattern of small numbers matches: one or two digits. *)
Definition smallNumeral (m : str) : Prop :=
  (∃ c, m = [c] ∧ digitChar c) ∨ (∃ c d, m = [c; d] ∧ digitChar c ∧ digitChar d).

(** An object of the modern shape that passes both filters: a class id
    from 0 to 6 and a confidence from 0 to 1. *)
Definition completeObject (obj : json) : Prop :=
  ∃ c f, getProp (Some obj) (js "class") = Return (Some (JNumber c))
         ∧ numberInRange 0 6 (Some (JNumber c)) = Some c
         ∧ getProp (Some obj) (js "confidence") = Return (Some (JNumber f))
         ∧ numberInRange 0 1 (Some (JNumber f)) = Some f.

(** The class id [c] and the confidence [f] are those of the object [obj]. *)
Definition describes (obj : json) (c f : Q) : Prop :=
  getProp (Some obj) (js "class") = Return (Some (JNumber c))
  ∧ getProp (Some obj) (js "confidence") = Return (Some (JNumber f)).

(** The floor of the normalizer: no object counted, no class. *)
Definition floor : ParsedResponse :=
  {| count := Num 0; classes := []; countConfidence := None; classConfidences := None |}.

(** The response of the specification's scenario: a fenced JSON object
    with one class id out of range. *)
Definition fencedScenario : str :=
  js "```json" ++ [LF]
  ++ jsq "{'count':2,'objects':[{'class':0,'confidence':0.9},{'class':9,'confidence':0.5}]}"
  ++ [LF] ++ js "```".

(** The normalizer as the specification words it: the brace extraction
    only when the trimmed text does not parse outright. *)
Definition parseLLMResponse_spec (response : str) : completion ParsedResponse :=
  try_catch
    (parsed ← try_catch (JSON_parse (stripFences response))
                        (λ e, JSON_parse (extractJSON (stripFences response)));
     interpret parsed)
    (λ e, Return (textExtraction response)).

End Normalizer.

(** ** Data model *)

Module Config.

Inductive Subset := train | valid | test.

Record EvaluationConfig := {
  sampleSize : Z;
  llmProvider : JS.str;
  llmModel : JS.str;
  systemPrompt : JS.str;
  subset : Subset;
  includeOntology : bool;
  enableZeroShotOntologyByExample : bool;
  structuredOutput : bool;
  apiDelaySeconds : Q
}.

End Config.

Module Model.
Import JS.

Inductive Status := pending | processing | completed | error | failed.

Record EvaluationImage := {
  id : str;
  filename : str;
  subset : str;
  imageUrl : str;
  actualObjects : Z;
  actualClasses : list Z;
  actualClassNames : list str;
  predictedObjects : option Z;
  predictedClasses : option (list Z);
  predictedClassNames : option (list str);
  predictedCountConfidence : option Q;
  predictedClassConfidences : option (list Q);
  llmResponse : option str;
  score : option Scoring.Score;
  apiDuration : option Z;
  cost : option Q;
  imageWidth : option Z;
  imageHeight : option Z;
  status : Status
}.

Record EvaluationResult := {
  config : Config.EvaluationConfig;
  images : list EvaluationImage;
  averageCountAccuracy : number;
  averageClassAccuracy : number;
  totalCost : Q;
  startTime : Z;
  endTime : option Z;
  duration : option Z
}.

Definition statusName (s : Status) : str :=
  match s with
  | pending => js "pending"
  | processing => js "processing"
  | completed => js "completed"
  | error => js "error"
  | failed => js "failed"
  end.

End Model.

(** ** Run serializer *)

(** The image that the import builds from one row, without its [cost],
    [predictedCountConfidence] and [predictedClassConfidences]: these are
    read from their own cells or from the response text, by code that
    cannot throw out of the row, and nothing else depends on them. *)
Module Imported.
Import JS.

Record Image := {
  id : str;
  filename : str;
  subset : str;
  imageUrl : str;
  actualObjects : Z;
  actualClasses : list Z;
  actualClassNames : list str;
  predictedObjects : Z;
  predictedClasses : list Z;
  predictedClassNames : list str;
  score : Scoring.Score;
  apiDuration : Z;
  imageWidth : option Z;
  imageHeight : option Z;
  status : str;
  llmResponse : str
}.

End Imported.

Module Serializer.
Import JS.

Definition headers : list str :=
  js <$> ["Image ID"; "Filename"; "Subset"; "Actual Objects"; "Actual Classes";
          "Actual Class Names"; "Predicted Objects"; "Predicted Classes";
          "Predicted Class Names"; "Count Accuracy"; "Class Accuracy";
          "Count Confidence"; "Class Confidence"; "Cost"; "API Duration (ms)";
          "Image Width"; "Image Height"; "Status"; "LLM Response"]%string.

(** [n || ''] in a template: the decimal text of a number that is neither
    absent nor zero. *)
Definition numberOrEmpty (n : option Z) : str :=
  match n with
  | Some z => if bool_decide (z = 0) then [] else NumberToString z
  | None => []
  end.

(** [(x * 100).toFixed(1) + '%'] *)
Definition percent (x : Q) : str := toFixed 1 (x * 100) ++ js "%".

(** The same for a score, which may be any number. *)
Definition percentOf (x : number) : str :=
  match x with
  | Num q => percent q
  | NaN => js "NaN%"
  | PosInf => js "Infinity%"
  | NegInf => js "-Infinity%"
  end.

(** The cells of one image, before quoting. *)
Definition row (img : Model.EvaluationImage) : list str :=
  [ Model.id img;
    Model.filename img;
    Model.subset img;
    NumberToString (Model.actualObjects img);
    join (js ";") (NumberToString <$> Model.actualClasses img);
    join (js ";") (Model.actualClassNames img);
    numberOrEmpty (Model.predictedObjects img);
    join (js ";") (NumberToString <$> default [] (Model.predictedClasses img));
    join (js ";") (default [] (Model.predictedClassNames img));
    match Model.score img with Some sc => percentOf (Scoring.countAccuracy sc) | None => [] end;
    match Model.score img with Some sc => percentOf (Scoring.classAccuracy sc) | None => [] end;
    match Model.predictedCountConfidence img with
    | Some c => if Qeq_bool c 0 then [] else percent c
    | None => []
    end;
    match Model.predictedClassConfidences img with
    | Some cs => join (js ";") (percent <$> cs)
    | None => []
    end;
    match Model.cost img with
    | Some c => if Qeq_bool c 0 then [] else js "$" ++ toFixed 4 c
    | None => []
    end;
    numberOrEmpty (Model.apiDuration img);
    numberOrEmpty (Model.imageWidth img);
    numberOrEmpty (Model.imageHeight img);
    Model.statusName (Model.status img);
    replaceAll COMMA (js ";") (replaceAll LF (js " ") (default [] (Model.llmResponse img))) ].

(** [`"${field}"`] *)
Definition quoteCell (field : str) : str := [DQUOTE] ++ field ++ [DQUOTE].

(** [row.map(field => `"${field}"`).join(',')] *)
Definition quoteRow (cells : list str) : str := join [COMMA] (quoteCell <$> cells).

Definition exportToCSV (result : Model.EvaluationResult) : str :=
  let rows := row <$> Model.images result in
  join [LF] (quoteRow <$> (headers :: rows)).

(** The loop of [parseCSVRow]: [fields] and [current] are its variables,
    [row] is what is left to read. An escaped quote reads two characters. *)
Fixpoint parseCSVRow_loop (fields : list str) (current : str) (inQuotes : bool)
    (row : str) : list str :=
  match row with
  | [] => fields ++ [trim current]
  | char :: rest =>
    if (char =? DQUOTE)%N then
      match rest with
      | next :: rest' =>
        if inQuotes && (next =? DQUOTE)%N
        then parseCSVRow_loop fields (current ++ [DQUOTE]) inQuotes rest'
        else parseCSVRow_loop fields current (negb inQuotes) rest
      | [] => parseCSVRow_loop fields current (negb inQuotes) rest
      end
    else if (char =? COMMA)%N && negb inQuotes then
      parseCSVRow_loop (fields ++ [trim current]) [] inQuotes rest
    else parseCSVRow_loop fields (current ++ [char]) inQuotes rest
  end.

Definition parseCSVRow (row : str) : list str := parseCSVRow_loop [] [] false row.

Definition requiredHeaders : list str :=
  js <$> ["Image ID"; "Filename"; "Subset"; "Actual Objects"; "Actual Classes";
          "Actual Class Names"; "Predicted Objects"; "Predicted Classes";
          "Predicted Class Names"; "Count Accuracy"; "Class Accuracy"; "Cost";
          "API Duration (ms)"; "Image Width"; "Image Height"; "Status";
          "LLM Response"]%string.

(** [getField(headerName)] of a row *)
Definition getField (headers fields : list str) (headerName : string) : str :=
  match indexOf headers (js headerName) with
  | Some index => default [] (fields !! index)
  | None => []
  end.

(** [cell ? cell.split(';').map(c => parseInt(c.trim())).filter(c => !isNaN(c)) : []] *)
Definition parseClasses (cell : str) : list Z :=
  if bool_decide (cell ≠ []) then omap (λ c, parseInt (trim c)) (split SEMICOLON cell) else [].

(** [parseInt(cell) || 0] *)
Definition parseIntOr0 (cell : str) : Z := default 0 (parseInt cell).

(** [parseInt(cell) || undefined] *)
Definition parseIntOrUndefined (cell : str) : option Z :=
  match parseInt cell with
  | Some z => if bool_decide (z = 0) then None else Some z
  | None => None
  end.

(** [cell.split(';').filter(n => n.trim())] *)
Definition parseNames (cell : str) : list str :=
  List.filter (λ n, bool_decide (trim n ≠ [])) (split SEMICOLON cell).

(** [s.replace(/\.jpg$/i, '')] *)
Definition stripJpg (s : str) : str :=
  if endsWith (toLowerASCII <$> s) (js ".jpg") then take (length s - 4) s else s.

(** The body of the loop over the data lines: [None] when the line is
    skipped. Nothing in the body throws, so its [catch] never runs. *)
Definition parseLine (headers : list str) (line : str) : option Imported.Image :=
  let line := trim line in
  if bool_decide (line = []) then None
  else
    let fields := parseCSVRow line in
    if bool_decide (length fields < length headers)%nat then None
    else
      let getField := getField headers fields in
      let actualClasses := parseClasses (getField "Actual Classes"%string) in
      let predictedClasses := parseClasses (getField "Predicted Classes"%string) in
      let actualCount := parseIntOr0 (getField "Actual Objects"%string) in
      let predictedCount := parseIntOr0 (getField "Predicted Objects"%string) in
      let scores :=
        Scoring.calculateImageScore (ofZ actualCount) actualClasses
                                    (ofZ predictedCount) predictedClasses in
      let imageId := getField "Image ID"%string in
      let baseName := stripJpg imageId in
      Some {|
        Imported.id := baseName;
        Imported.filename := getField "Filename"%string;
        Imported.subset := getField "Subset"%string;
        Imported.imageUrl :=
          js "http://localhost:3001/dataset/" ++ getField "Subset"%string
          ++ js "/images/" ++ getField "Filename"%string;
        Imported.actualObjects := actualCount;
        Imported.actualClasses := actualClasses;
        Imported.actualClassNames := parseNames (getField "Actual Class Names"%string);
        Imported.predictedObjects := predictedCount;
        Imported.predictedClasses := predictedClasses;
        Imported.predictedClassNames := parseNames (getField "Predicted Class Names"%string);
        Imported.score :=
          {| Scoring.countAccuracy := Scoring.countAccuracy scores;
             Scoring.classAccuracy := Scoring.classAccuracy scores |};
        Imported.apiDuration := parseIntOr0 (getField "API Duration (ms)"%string);
        Imported.imageWidth := parseIntOrUndefined (getField "Image Width"%string);
        Imported.imageHeight := parseIntOrUndefined (getField "Image Height"%string);
        Imported.status := getField "Status"%string;
        Imported.llmResponse := getField "LLM Response"%string
      |}.

Definition parseCSVToEvaluationData (csvContent : str) : completion (list Imported.Image) :=
  let lines := split LF (trim csvContent) in
  if bool_decide (length lines < 2)%nat then
    Throw (Error "Invalid CSV format: insufficient data")
  else
    let headers :=
      (λ h, trim (replaceAll DQUOTE [] h)) <$> split COMMA (default [] (lines !! 0%nat)) in
    let hasRequiredHeaders := forallb (includes headers) requiredHeaders in
    if negb hasRequiredHeaders then
      Throw (Error "Invalid CSV format: missing required headers")
    else Return (omap (parseLine headers) (drop 1 lines)).

(** The score that the import gives a row: computed from four of its
    cells. *)
Definition scoreOfCells (headers fields : list str) : Scoring.Score :=
  Scoring.calculateImageScore
    (ofZ (parseIntOr0 (getField headers fields "Actual Objects"%string)))
    (parseClasses (getField headers fields "Actual Classes"%string))
    (ofZ (parseIntOr0 (getField headers fields "Predicted Objects"%string)))
    (parseClasses (getField headers fields "Predicted Classes"%string)).

(** A data line that the import keeps: it is not blank and it has a cell
    for every header. The loop skips every other line. *)
Definition usableLine (headers : list str) (line : str) : bool :=
  bool_decide (trim line ≠ [])
  && bool_decide (length headers ≤ length (parseCSVRow (trim line)))%nat.

(** The image [img] is the one read from the data line [line]: its file
    name, its counts and its classes are those of the cells of that line,
    and its score is the one computed from those cells. *)
Definition importedFrom (headers : list str) (line : str) (img : Imported.Image) : Prop :=
  let fields := parseCSVRow (trim line) in
  Imported.filename img = getField headers fields "Filename"%string
  ∧ Imported.actualObjects img = parseIntOr0 (getField headers fields "Actual Objects"%string)
  ∧ Imported.actualClasses img = parseClasses (getField headers fields "Actual Classes"%string)
  ∧ Imported.predictedObjects img
    = parseIntOr0 (getField headers fields "Predicted Objects"%string)
  ∧ Imported.predictedClasses img
    = parseClasses (getField headers fields "Predicted Classes"%string)
  ∧ Imported.score img = scoreOfCells headers fields.

(** The header names that the import reads from the first line. *)
Definition headersOf (csvContent : str) : list str :=
  (λ h, trim (replaceAll DQUOTE [] h))
    <$> split COMMA (default [] (split LF (trim csvContent) !! 0%nat)).

(** Two data lines with the same cells, but for the cells under
    [Count Accuracy] and [Class Accuracy]. *)
Definition sameCellsExceptScores (headers : list str) (line1 line2 : str) : Prop :=
  let fields1 := parseCSVRow (trim line1) in
  let fields2 := parseCSVRow (trim line2) in
  (trim line1 = [] ↔ trim line2 = [])
  ∧ length fields1 = length fields2
  ∧ ∀ i : nat,
      indexOf headers (js "Count Accuracy") ≠ Some i →
      indexOf headers (js "Class Accuracy") ≠ Some i →
      fields1 !! i = fields2 !! i.

(** Two CSV texts with the same header line and, line by line, the same
    cells but for the stored accuracies. *)
Definition sameExceptScores (csv1 csv2 : str) : Prop :=
  let lines1 := split LF (trim csv1) in
  let lines2 := split LF (trim csv2) in
  lines1 !! 0%nat = lines2 !! 0%nat
  ∧ Forall2 (sameCellsExceptScores (headersOf csv1)) (drop 1 lines1) (drop 1 lines2).

(** Text that can stand between the double quotes of a cell and on one
    line: no double quote and no line feed in it. *)
Definition safeChar (c : N) : Prop := c ≠ DQUOTE ∧ c ≠ LF.
Definition clean (s : str) : Prop := Forall safeChar s.

#[global] Instance safeChar_dec (c : N) : Decision (safeChar c).
Proof. unfold safeChar. apply _. Defined.

#[global] Instance clean_dec (s : str) : Decision (clean s).
Proof. unfold clean. apply _. Defined.

(** Text that opens and closes with a double quote, as every exported
    line does. *)
Definition quoted (s : str) : Prop := ∃ middle, s = DQUOTE :: middle ++ [DQUOTE].

(** The last cell of an exported row: the response on one line, without
    commas. *)
Definition responseCell (img : Model.EvaluationImage) : str :=
  replaceAll COMMA (js ";") (replaceAll LF (js " ") (default [] (Model.llmResponse img))).

(** An integer that a number holds exactly and prints in decimal digits. *)
Definition safeInteger (z : Z) : Prop := Z.abs z < 2 ^ 53.

(** A completed image with well-formed fields: clean texts, integer counts
    and class ids, a prediction, and the score of that prediction. *)
Definition wellFormedImage (img : Model.EvaluationImage) : Prop :=
  Model.status img = Model.completed
  ∧ clean (Model.id img) ∧ clean (Model.filename img) ∧ clean (Model.subset img)
  ∧ Forall clean (Model.actualClassNames img)
  ∧ Forall clean (default [] (Model.predictedClassNames img))
  ∧ safeInteger (Model.actualObjects img)
  ∧ Forall safeInteger (Model.actualClasses img)
  ∧ ∃ predictedCount predictedClasses,
      Model.predictedObjects img = Some predictedCount
      ∧ safeInteger predictedCount
      ∧ Model.predictedClasses img = Some predictedClasses
      ∧ Forall safeInteger predictedClasses
      ∧ Model.score img
        = Some (Scoring.calculateImageScore
                  (ofZ (Model.actualObjects img)) (Model.actualClasses img)
                  (ofZ predictedCount) predictedClasses).

(** What the round trip keeps of an image: the class ids, actual and
    predicted, and the score. *)
Definition preserved (img : Model.EvaluationImage) (imported : Imported.Image) : Prop :=
  Imported.actualClasses imported = Model.actualClasses img
  ∧ Some (Imported.predictedClasses imported) = Model.predictedClasses img
  ∧ Some (Imported.score imported) = Model.score img.

(** Runs for the examples: one without images, one with one completed
    image. *)
Definition exampleConfig : Config.EvaluationConfig :=
  {| Config.sampleSize := 1;
     Config.llmProvider := js "openai";
     Config.llmModel := js "gpt-4o";
     Config.systemPrompt := js "Count the aircraft.";
     Config.subset := Config.train;
     Config.includeOntology := false;
     Config.enableZeroShotOntologyByExample := false;
     Config.structuredOutput := true;
     Config.apiDelaySeconds := 0 |}.

Definition runOf (images : list Model.EvaluationImage) : Model.EvaluationResult :=
  {| Model.config := exampleConfig;
     Model.images := images;
     Model.averageCountAccuracy := NaN;
     Model.averageClassAccuracy := NaN;
     Model.totalCost := 0;
     Model.startTime := 0;
     Model.endTime := None;
     Model.duration := Some 0 |}.

Definition exampleImage : Model.EvaluationImage :=
  {| Model.id := js "img_001";
     Model.filename := js "img_001.jpg";
     Model.subset := js "train";
     Model.imageUrl := js "http://localhost:3001/dataset/train/images/img_001.jpg";
     Model.actualObjects := 3;
     Model.actualClasses := [0; 1; 1];
     Model.actualClassNames := [js "Small Civil"; js "Medium Civil"; js "Medium Civil"];
     Model.predictedObjects := Some 2;
     Model.predictedClasses := Some [0; 1];
     Model.predictedClassNames := Some [js "Small Civil"; js "Medium Civil"];
     Model.predictedCountConfidence := Some (9 # 10);
     Model.predictedClassConfidences := Some [9 # 10; 1 # 2];
     Model.llmResponse := Some (jsq "{'count':2, 'objects':[]}");
     Model.score := Some (Scoring.calculateImageScore (ofZ 3) [0; 1; 1] (ofZ 2) [0; 1]);
     Model.apiDuration := Some 1234;
     Model.cost := Some (5 # 1000);
     Model.imageWidth := Some 512;
     Model.imageHeight := Some 512;
     Model.status := Model.completed |}.

(** The export of the example run, and the same text with other stored
    accuracies. *)
Definition exampleCSV : str := exportToCSV (runOf [exampleImage]).

Definition tamperedCSV : str :=
  join [LF]
    [ quoteRow headers;
      quoteRow (<[9%nat := js "100.0%"]> (<[10%nat := js "0.0%"]> (row exampleImage))) ].

End Serializer.

(** ** Stopping and resetting a run *)

Module Orchestrator.
Import JS.

Record SelectedModel := {
  id : str;
  name : str;
  provider : str;
  providerName : str
}.

Record ModelEvaluation := {
  model : SelectedModel;
  images : list Model.EvaluationImage;
  results : option Model.EvaluationResult;
  isRunning : bool;
  currentImageIndex : Z;
  progress : Q;
  config : Config.EvaluationConfig
}.

(** The state of the hook that the two operations touch: the cancellation
    flags ([stopFlags.current]) and the evaluations, both keyed by model id. *)
Record HookState := {
  stopFlags : gmap str bool;
  modelEvaluations : gmap str ModelEvaluation
}.

(** Each operation returns the state it leaves and the exception, if any,
    of its state update: [prev[modelId].images] throws when the model has no
    evaluation. *)
Definition stopEvaluation (modelId : str) (st : HookState) : HookState * option exn :=
  let flags := <[modelId := true]> (stopFlags st) in
  let prev := modelEvaluations st in
  match prev !! modelId with
  | None => ({| stopFlags := flags; modelEvaluations := prev |}, Some TypeError)
  | Some prev_model =>
    let updated :=
      {| model := model prev_model;
         images :=
           (λ img,
              {| Model.id := Model.id img;
                 Model.filename := Model.filename img;
                 Model.subset := Model.subset img;
                 Model.imageUrl := Model.imageUrl img;
                 Model.actualObjects := Model.actualObjects img;
                 Model.actualClasses := Model.actualClasses img;
                 Model.actualClassNames := Model.actualClassNames img;
                 Model.predictedObjects := Some 0;
                 Model.predictedClasses := Some [];
                 Model.predictedClassNames := Model.predictedClassNames img;
                 Model.predictedCountConfidence := None;
                 Model.predictedClassConfidences := Some [];
                 Model.llmResponse := Some [];
                 Model.score := None;
                 Model.apiDuration := Some 0;
                 Model.cost := Some 0%Q;
                 Model.imageWidth := Model.imageWidth img;
                 Model.imageHeight := Model.imageHeight img;
                 Model.status := Model.pending |}) <$> images prev_model;
         results := None;
         isRunning := false;
         currentImageIndex := currentImageIndex prev_model;
         progress := progress prev_model;
         config := config prev_model |} in
    ({| stopFlags := flags; modelEvaluations := <[modelId := updated]> prev |}, None)
  end.

Definition resetEvaluation (modelId : str) (st : HookState) : HookState * option exn :=
  let prev := modelEvaluations st in
  match prev !! modelId with
  | None => (st, Some TypeError)
  | Some prev_model =>
    let updated :=
      {| model := model prev_model;
         images :=
           (λ img,
              {| Model.id := Model.id img;
                 Model.filename := Model.filename img;
                 Model.subset := Model.subset img;
                 Model.imageUrl := Model.imageUrl img;
                 Model.actualObjects := Model.actualObjects img;
                 Model.actualClasses := Model.actualClasses img;
                 Model.actualClassNames := Model.actualClassNames img;
                 Model.predictedObjects := Some 0;
                 Model.predictedClasses := Some [];
                 Model.predictedClassNames := Model.predictedClassNames img;
                 Model.predictedCountConfidence := None;
                 Model.predictedClassConfidences := Some [];
                 Model.llmResponse := Some [];
                 Model.score := None;
                 Model.apiDuration := Some 0;
                 Model.cost := Some 0%Q;
                 Model.imageWidth := Model.imageWidth img;
                 Model.imageHeight := Model.imageHeight img;
                 Model.status := Model.pending |}) <$> images prev_model;
         results := None;
         isRunning := false;
         currentImageIndex := 0;
         progress := 0%Q;
         config := config prev_model |} in
    ({| stopFlags := stopFlags st; modelEvaluations := <[modelId := updated]> prev |}, None)
  end.

(** What the specification asks of a reset, on top of a stop. *)
Definition clearProgress (modelId : str) (st : HookState) : HookState :=
  {| stopFlags := stopFlags st;
     modelEvaluations :=
       alter (λ ev,
                {| model := model ev;
                   images := images ev;
                   results := None;
                   isRunning := isRunning ev;
                   currentImageIndex := 0;
                   progress := 0%Q;
                   config := config ev |})
             modelId (modelEvaluations st) |}.

(** [reset()] as the specification words it: the effect of [stop()], then
    the run-level aggregates and the progress cleared. *)
Definition resetEvaluation_spec (modelId : str) (st : HookState) : HookState * option exn :=
  let '(stopped, thrown) := stopEvaluation modelId st in
  (clearProgress modelId stopped, thrown).

(** An image back at its initial state: pending, without score, its
    predicted count, classes and confidences, response, duration and cost
    cleared. *)
Definition wiped (img : Model.EvaluationImage) : Prop :=
  Model.status img = Model.pending
  ∧ Model.score img = None
  ∧ Model.predictedObjects img = Some 0
  ∧ Model.predictedClasses img = Some []
  ∧ Model.predictedCountConfidence img = None
  ∧ Model.predictedClassConfidences img = Some []
  ∧ Model.llmResponse img = Some []
  ∧ Model.apiDuration img = Some 0
  ∧ Model.cost img = Some 0%Q.

(** A run in progress, for the examples: one model, no image scored yet,
    the cancellation flag not set. *)
Definition exampleModel : SelectedModel :=
  {| id := js "gpt-4o"; name := js "GPT-4o"; provider := js "openai";
     providerName := js "OpenAI" |}.

Definition exampleConfig : Config.EvaluationConfig :=
  {| Config.sampleSize := 1;
     Config.llmProvider := js "openai";
     Config.llmModel := js "gpt-4o";
     Config.systemPrompt := js "Count the aircraft.";
     Config.subset := Config.train;
     Config.includeOntology := false;
     Config.enableZeroShotOntologyByExample := false;
     Config.structuredOutput := true;
     Config.apiDelaySeconds := 0 |}.

Definition exampleState : HookState :=
  {| stopFlags := ∅;
     modelEvaluations :=
       {[ js "gpt-4o" :=
            {| model := exampleModel; images := []; results := None;
               isRunning := true; currentImageIndex := 0; progress := 0;
               config := exampleConfig |} ]} |}.

End Orchestrator.

(** ** From a response to a score *)

Module Pipeline.
Import JS.

(** The step of the evaluation loop that normalizes the provider's text
    and scores it against the ground truth:
    [calculateImageScore(img.actualObjects, img.actualClasses, parsed.count, parsed.classes)]. *)
Definition scoreResponse (actualObjects : Z) (actualClasses : list Z) (content : str)
    : completion Scoring.Score :=
  parsed ← Normalizer.parseLLMResponse content;
  Return (Scoring.calculateImageScore
            (ofZ actualObjects) ((λ z, Q2Qc (inject_Z z)) <$> actualClasses)
            (Normalizer.count parsed) (Q2Qc <$> Normalizer.classes parsed)).

End Pipeline.

(** ** More of the run-time

    Operations of JavaScript that the sampling, the pricing and the page
    state use beyond those above. *)

Module Runtime.
Import JS.

(** [a + b] on numbers. *)
Definition add (a b : number) : number :=
  match a, b with
  | NaN, _ | _, NaN => NaN
  | Num x, Num y => Num (x + y)
  | PosInf, NegInf | NegInf, PosInf => NaN
  | PosInf, _ | _, PosInf => PosInf
  | NegInf, _ | _, NegInf => NegInf
  end.

(** [a <= b] on numbers: false when either is NaN. *)
Definition lessEq (a b : number) : bool :=
  match a, b with
  | NaN, _ | _, NaN => false
  | NegInf, _ | _, PosInf => true
  | Num x, Num y => Qle_bool x y
  | _, _ => false
  end.

(** [Math.ceil(a)] *)
Definition Math_ceil (a : number) : number :=
  match a with Num q => Num (inject_Z (Qceiling q)) | _ => a end.

(** [x || 0] on a number that may be [undefined]: 0 stands in for 0, for
    NaN and for [undefined]. *)
Definition orZero (x : option number) : number :=
  match x with
  | Some (Num q) => if Qeq_bool q 0 then Num 0 else Num q
  | Some NaN | None => Num 0
  | Some inf => inf
  end.

(** [!x] on a finite number that may be [undefined]. *)
Definition falsy (x : option Q) : bool :=
  match x with Some q => Qeq_bool q 0 | None => true end.

(** [x || fallback] on a finite number that may be [undefined]. *)
Definition orDefault (fallback : Q) (x : option Q) : Q :=
  match x with Some q => if Qeq_bool q 0 then fallback else q | None => fallback end.

(** [s.includes(sub)] on strings. *)
Fixpoint includesText (s sub : str) : bool :=
  startsWith s sub
  || match s with [] => false | _ :: rest => includesText rest sub end.

(** [xs.slice(0, end)] for an integer [end]: a negative [end] counts from
    the end of the array. *)
Definition slice0 {A} (end_ : Z) (xs : list A) : list A :=
  let len := Z.of_nat (length xs) in
  let final := if end_ <? 0 then Z.max (len + end_) 0 else Z.min end_ len in
  take (Z.to_nat final) xs.

End Runtime.

(** ** Aircraft ontology

    [services/ontologyService.ts]. The ontology is loaded from the entries
    of the configured class table, each a key and a class name. Of an
    aircraft class the record keeps the fields that the sampling and the
    lookups read; its description and its characteristics are left out. *)

Module Ontology.
Import JS Runtime.

Record AircraftClass := {
  id : option Z;
  name : str;
  category : str;
  subcategory : str;
  role_id : option Z
}.

Definition getCategoryForAircraft (name : str) : str :=
  if includesText name (js "Civil") then js "Civil Aircraft"
  else if includesText name (js "Military") then js "Military Aircraft"
  else js "Unknown".

Definition getSubcategoryForAircraft (name : str) : str :=
  if includesText name (js "Large Civil Transport") then js "Large Transport"
  else if includesText name (js "Medium Civil Transport") then js "Medium Transport"
  else if includesText name (js "Small Civil Transport") then js "Small Transport"
  else if includesText name (js "Military Bomber") then js "Bomber"
  else if includesText name (js "Military Fighter") then js "Combat Aircraft"
  else if includesText name (js "Military Trainer") then js "Training Aircraft"
  else if includesText name (js "Military Transport") then js "Transport Aircraft"
  else js "Unknown".

(** [Object.entries(configOntology).map(([id, aircraft]) => ...)]; the id is
    [parseInt(id)], [None] when that is NaN. *)
Definition loadAircraftOntology (configOntology : list (str * str)) : list AircraftClass :=
  (λ entry,
     let aircraftId := parseInt entry.1 in
     {| id := aircraftId;
        name := entry.2;
        category := getCategoryForAircraft entry.2;
        subcategory := getSubcategoryForAircraft entry.2;
        role_id := (λ z, z + 1) <$> aircraftId |}) <$> configOntology.

(** [aircraftOntology.find(aircraft => aircraft.id === id)] *)
Definition getAircraftById (aircraftOntology : list AircraftClass) (id_ : Z)
    : option AircraftClass :=
  List.find (λ aircraft, bool_decide (id aircraft = Some id_)) aircraftOntology.

End Ontology.

(** ** Sampling the data set

    [generateRandomSample] of [services/evalService.ts]. An image of the
    data set may lack its object count and its classes. The shuffle,
    [[...xs].sort(() => 0.5 - Math.random())], is the rearrangement that the
    random comparisons produce: it is given as a function. *)

Module Sampling.
Import JS Runtime.

Record DatasetImage := {
  id : str;
  filename : str;
  subset : str;
  imageUrl : str;
  objectCount : option Z;
  classes : option (list Z)
}.

Definition subsetName (s : Config.Subset) : str :=
  match s with
  | Config.train => js "train"
  | Config.valid => js "valid"
  | Config.test => js "test"
  end.

(** [for (let i = 0; i < count; i++) instances.push(classId)] *)
Definition pushTimes (count : Z) (classId : Z) (instances : list Z) : list Z :=
  instances ++ replicate (Z.to_nat count) classId.

(** The class instances of an image: one class id for each object, the
    objects shared out among the classes, the remainder to the first ones. *)
Definition allClassInstances (objectCount : Z) (uniqueClasses : list Z) : list Z :=
  if bool_decide (0 < objectCount) && bool_decide (0 < length uniqueClasses)%nat then
    match uniqueClasses with
    | [only] => pushTimes objectCount only []
    | _ =>
      let baseCount := objectCount / Z.of_nat (length uniqueClasses) in
      let remainder := Z.rem objectCount (Z.of_nat (length uniqueClasses)) in
      foldl (λ instances entry,
               let count :=
                 baseCount + (if bool_decide (Z.of_nat entry.1 < remainder) then 1 else 0) in
               pushTimes count entry.2 instances)
            [] (imap pair uniqueClasses)
    end
  else [].

(** The share of the class at [index] when [objectCount] objects are
    shared out among [classes] classes. *)
Definition share (objectCount : Z) (classes index : nat) : Z :=
  objectCount / Z.of_nat classes
  + (if bool_decide (Z.of_nat index < Z.rem objectCount (Z.of_nat classes)) then 1 else 0).

(** [getAircraftById(classId)?.name], or [`Unknown (${classId})`]. *)
Definition className (aircraftOntology : list Ontology.AircraftClass) (classId : Z) : str :=
  match Ontology.getAircraftById aircraftOntology classId with
  | Some aircraft => Ontology.name aircraft
  | None => js "Unknown (" ++ NumberToString classId ++ js ")"
  end.

(** The body of [selected.map(img => ...)]. *)
Definition sampleImage (aircraftOntology : list Ontology.AircraftClass) (img : DatasetImage)
    : Model.EvaluationImage :=
  let objectCount := default 0 (objectCount img) in
  let uniqueClasses := default [] (classes img) in
  let allClassInstances := allClassInstances objectCount uniqueClasses in
  {| Model.id := id img;
     Model.filename := filename img;
     Model.subset := subset img;
     Model.imageUrl := imageUrl img;
     Model.actualObjects := objectCount;
     Model.actualClasses := allClassInstances;
     Model.actualClassNames := className aircraftOntology <$> allClassInstances;
     Model.predictedObjects := None;
     Model.predictedClasses := None;
     Model.predictedClassNames := None;
     Model.predictedCountConfidence := None;
     Model.predictedClassConfidences := None;
     Model.llmResponse := None;
     Model.score := None;
     Model.apiDuration := None;
     Model.cost := None;
     Model.imageWidth := None;
     Model.imageHeight := None;
     Model.status := Model.pending |}.

Definition generateRandomSample (aircraftOntology : list Ontology.AircraftClass)
    (shuffle : list DatasetImage → list DatasetImage)
    (allImages : list DatasetImage) (sampleSize : Z) (subset_ : Config.Subset)
    : list Model.EvaluationImage :=
  let subsetImages :=
    List.filter (λ img, bool_decide (subset img = subsetName subset_)) allImages in
  let shuffled := shuffle subsetImages in
  let selected := slice0 sampleSize shuffled in
  sampleImage aircraftOntology <$> selected.

(** A data set and an ontology for the examples. *)
Definition exampleOntology : list Ontology.AircraftClass :=
  Ontology.loadAircraftOntology
    [(js "0", js "Large Civil Transport"); (js "1", js "Medium Civil Transport");
     (js "2", js "Military Bomber")].

Definition exampleImages : list DatasetImage :=
  [ {| id := js "a"; filename := js "a.jpg"; subset := js "train";
       imageUrl := js "/dataset/train/images/a.jpg";
       objectCount := Some 5; classes := Some [0; 2] |};
    {| id := js "b"; filename := js "b.jpg"; subset := js "valid";
       imageUrl := js "/dataset/valid/images/b.jpg";
       objectCount := Some 1; classes := Some [1] |};
    {| id := js "c"; filename := js "c.jpg"; subset := js "train";
       imageUrl := js "/dataset/train/images/c.jpg";
       objectCount := None; classes := None |} ].

End Sampling.

(** ** Providers and prices

    [services/llmProviders.ts] and the cost functions of
    [services/evalService.ts]. The table of providers is read from a
    configuration file; the functions take it as an argument. *)

Module LLM.
Import JS.

Record LLMModel := {
  id : str;
  name : str;
  provider : str;
  supportsVision : bool;
  maxTokens : option Q;
  costPer1kTokens : option Q;
  costPer1kInput : option Q;
  costPer1kOutput : option Q
}.

End LLM.

Module Providers.
Import JS.

Record LLMProvider := {
  id : str;
  name : str;
  baseUrl : str;
  apiKeyEnv : str;
  models : list LLM.LLMModel
}.

Section Configured.
Variable LLM_PROVIDERS : list LLMProvider.

(** [LLM_PROVIDERS.forEach(provider => { result[provider.id] = provider.models })]:
    the own properties of [result]. *)
Definition getModelsByProvider : gmap str (list LLM.LLMModel) :=
  foldl (λ result provider, <[id provider := models provider]> result) ∅ LLM_PROVIDERS.

Definition getProviderById (providerId : str) : option LLMProvider :=
  List.find (λ provider, bool_decide (id provider = providerId)) LLM_PROVIDERS.

Definition getModelById (providerId modelId : str) : option LLM.LLMModel :=
  provider ← getProviderById providerId;
  List.find (λ model, bool_decide (LLM.id model = modelId)) (models provider).

End Configured.

End Providers.

Module Cost.
Import JS Runtime.

Definition calculateAPICostFallback
    (imageWidth imageHeight promptTokens responseTokens : number) : number :=
  let INPUT_COST_PER_1K_TOKENS := Num (5 # 1000) in
  let OUTPUT_COST_PER_1K_TOKENS := Num (15 # 1000) in
  let imageTokens :=
    mul (Math_ceil (div (mul imageWidth imageHeight) (mul (Num 512) (Num 512))))
        (Num 170) in
  let totalInputTokens := add promptTokens imageTokens in
  let inputCost := mul (div totalInputTokens (Num 1000)) INPUT_COST_PER_1K_TOKENS in
  let outputCost := mul (div responseTokens (Num 1000)) OUTPUT_COST_PER_1K_TOKENS in
  add inputCost outputCost.

Definition calculateAPICost (LLM_PROVIDERS : list Providers.LLMProvider)
    (provider model : str)
    (imageWidth imageHeight promptTokens responseTokens : number) : number :=
  let providerConfig := Providers.getProviderById LLM_PROVIDERS provider in
  let modelConfig := Providers.getModelById LLM_PROVIDERS provider model in
  match providerConfig, modelConfig with
  | Some _, Some modelConfig =>
    let inputCostPer1k := Num (orDefault (5 # 1000) (LLM.costPer1kInput modelConfig)) in
    let outputCostPer1k := Num (orDefault (15 # 1000) (LLM.costPer1kOutput modelConfig)) in
    let imageTokens :=
      mul (Math_ceil (div (mul imageWidth imageHeight) (mul (Num 512) (Num 512))))
          (Num 170) in
    let totalInputTokens := add promptTokens imageTokens in
    let inputCost := mul (div totalInputTokens (Num 1000)) inputCostPer1k in
    let outputCost := mul (div responseTokens (Num 1000)) outputCostPer1k in
    add inputCost outputCost
  | _, _ => calculateAPICostFallback imageWidth imageHeight promptTokens responseTokens
  end.

(** [calculateEstimatedCost] of [hooks/useEvaluation.ts]. *)
Definition calculateEstimatedCost (selectedModels : list Orchestrator.SelectedModel)
    (LLM_PROVIDERS : list Providers.LLMProvider) (modelId : str) (sampleSize : number)
    : number :=
  match List.find (λ m, bool_decide (Orchestrator.id m = modelId)) selectedModels with
  | None => Num 0
  | Some model =>
    let provider :=
      List.find (λ p, bool_decide (Providers.id p = Orchestrator.provider model))
                LLM_PROVIDERS in
    let modelConfig :=
      p ← provider;
      List.find (λ m, bool_decide (LLM.id m = modelId)) (Providers.models p) in
    match modelConfig with
    | None => Num 0
    | Some modelConfig =>
      if falsy (LLM.costPer1kInput modelConfig) || falsy (LLM.costPer1kOutput modelConfig)
      then Num 0
      else
        let estimatedPromptTokens := Num 200 in
        let estimatedImageTokens := Num 170 in
        let estimatedResponseTokens := Num 100 in
        let totalInputTokens := add estimatedPromptTokens estimatedImageTokens in
        let totalOutputTokens := estimatedResponseTokens in
        let costPerImage :=
          add (mul (div totalInputTokens (Num 1000))
                   (Num (default 0%Q (LLM.costPer1kInput modelConfig))))
              (mul (div totalOutputTokens (Num 1000))
                   (Num (default 0%Q (LLM.costPer1kOutput modelConfig)))) in
        mul costPerImage sampleSize
    end
  end.

(** The cost in closed form, for finite arguments and given prices: the
    prompt tokens and 170 tokens for each tile of 512 by 512 pixels that the
    image starts, at the input price, and the response tokens at the output
    price. *)
Definition priced (inputCostPer1k outputCostPer1k : Q)
    (imageWidth imageHeight promptTokens responseTokens : Q) : Q :=
  ((promptTokens + inject_Z (Qceiling (imageWidth * imageHeight / (512 * 512))) * 170) / 1000
   * inputCostPer1k
   + responseTokens / 1000 * outputCostPer1k)%Q.

(** A model whose configured prices, if any, are not negative. *)
Definition pricesNotNegative (m : LLM.LLMModel) : Prop :=
  from_option (λ price, (0 <= price)%Q) True (LLM.costPer1kInput m)
  ∧ from_option (λ price, (0 <= price)%Q) True (LLM.costPer1kOutput m).

(** A table of providers for the examples: one priced model, one without
    prices. *)
Definition exampleProviders : list Providers.LLMProvider :=
  [ {| Providers.id := js "openai"; Providers.name := js "OpenAI";
       Providers.baseUrl := js "https://api.openai.com/v1";
       Providers.apiKeyEnv := js "REACT_APP_OPENAI_API_KEY";
       Providers.models :=
         [ {| LLM.id := js "gpt-4o"; LLM.name := js "GPT-4o"; LLM.provider := js "openai";
              LLM.supportsVision := true; LLM.maxTokens := Some 4096%Q;
              LLM.costPer1kTokens := Some (1 # 400)%Q;
              LLM.costPer1kInput := Some (1 # 400)%Q;
              LLM.costPer1kOutput := Some (1 # 100)%Q |};
           {| LLM.id := js "local"; LLM.name := js "Local"; LLM.provider := js "openai";
              LLM.supportsVision := false; LLM.maxTokens := None;
              LLM.costPer1kTokens := None;
              LLM.costPer1kInput := Some 0%Q;
              LLM.costPer1kOutput := None |} ] |} ].

End Cost.

(** ** The page state: models, samples, totals and retries

    [hooks/useEvaluation.ts]. *)

Module Hook.
Import JS Runtime.

(** The state that [addModel], [removeModel] and [generateSample] update. *)
Record Selection := {
  selectedModels : list Orchestrator.SelectedModel;
  modelEvaluations : gmap str Orchestrator.ModelEvaluation;
  activeTab : str
}.

Definition addModel (model : Orchestrator.SelectedModel) (st : Selection) : Selection :=
  {| selectedModels :=
       match List.find (λ m, bool_decide (Orchestrator.id m = Orchestrator.id model))
                       (selectedModels st) with
       | Some _ => selectedModels st
       | None => selectedModels st ++ [model]
       end;
     modelEvaluations := modelEvaluations st;
     activeTab := activeTab st |}.

Definition removeModel (modelId : str) (st : Selection) : Selection :=
  {| selectedModels :=
       List.filter (λ m, bool_decide (Orchestrator.id m ≠ modelId)) (selectedModels st);
     modelEvaluations := delete modelId (modelEvaluations st);
     activeTab := activeTab st |}.

Definition generateSample (aircraftOntology : list Ontology.AircraftClass)
    (shuffle : list Sampling.DatasetImage → list Sampling.DatasetImage)
    (allImages : list Sampling.DatasetImage) (config : Config.EvaluationConfig)
    (st : Selection) : Selection :=
  if bool_decide (length allImages = 0%nat) then st
  else
    let sample :=
      Sampling.generateRandomSample aircraftOntology shuffle allImages
        (Config.sampleSize config) (Config.subset config) in
    let newEvaluations :=
      foldl (λ evaluations model,
               <[Orchestrator.id model :=
                   {| Orchestrator.model := model;
                      Orchestrator.images := sample;
                      Orchestrator.results := None;
                      Orchestrator.isRunning := false;
                      Orchestrator.currentImageIndex := 0;
                      Orchestrator.progress := 0%Q;
                      Orchestrator.config := config |}]> evaluations)
            ∅ (selectedModels st) in
    {| selectedModels := selectedModels st;
       modelEvaluations := newEvaluations;
       activeTab :=
         match selectedModels st with
         | first :: _ => Orchestrator.id first
         | [] => activeTab st
         end |}.

(** What an image is, apart from what a model made of it: its identity
    and its ground truth. *)
Definition groundTruth (img : Model.EvaluationImage)
    : str * str * str * str * Z * list Z * list str :=
  (Model.id img, Model.filename img, Model.subset img, Model.imageUrl img,
   Model.actualObjects img, Model.actualClasses img, Model.actualClassNames img).

(** The averages that close a run: over the completed images, a missing
    score or a score that is 0 or NaN counting for 0; the division is by the
    number of completed images, whatever it is. *)
Definition isCompleted (img : Model.EvaluationImage) : bool :=
  match Model.status img with Model.completed => true | _ => false end.

Definition runAverageCountAccuracy (results : list Model.EvaluationImage) : number :=
  let completedResults := List.filter isCompleted results in
  div (foldl (λ sum img, add sum (orZero (Scoring.countAccuracy <$> Model.score img)))
             (Num 0) completedResults)
      (ofNat (length completedResults)).

Definition runAverageClassAccuracy (results : list Model.EvaluationImage) : number :=
  let completedResults := List.filter isCompleted results in
  div (foldl (λ sum img, add sum (orZero (Scoring.classAccuracy <$> Model.score img)))
             (Num 0) completedResults)
      (ofNat (length completedResults)).

(** The averages that [loadModelResults] computes for imported images:
    over the completed images (an imported image always has a score), and 0
    when there is none. *)
Definition isCompletedImport (img : Imported.Image) : bool :=
  bool_decide (Imported.status img = js "completed").

Definition loadedAverageCountAccuracy (images : list Imported.Image) : number :=
  let countAccuracies :=
    (λ img, Scoring.countAccuracy (Imported.score img))
      <$> List.filter isCompletedImport images in
  if bool_decide (0 < length countAccuracies)%nat
  then div (foldl add (Num 0) countAccuracies) (ofNat (length countAccuracies))
  else Num 0.

Definition loadedAverageClassAccuracy (images : list Imported.Image) : number :=
  let classAccuracies :=
    (λ img, Scoring.classAccuracy (Imported.score img))
      <$> List.filter isCompletedImport images in
  if bool_decide (0 < length classAccuracies)%nat
  then div (foldl add (Num 0) classAccuracies) (ofNat (length classAccuracies))
  else Num 0.

(** What a call of the provider gives back. *)
Record LLMApiResponse := {
  content : option str;
  error : option str;
  duration : option Q
}.

(** [response_data.content && response_data.content.trim() !== ''] *)
Definition hasContent (r : LLMApiResponse) : bool :=
  match content r with
  | Some text => bool_decide (text ≠ []) && bool_decide (trim text ≠ [])
  | None => false
  end.

Definition maxRetries : nat := 3.

(** What the retry loop leaves: the response, if any, and the waits it
    made, in milliseconds. *)
Record Attempted := {
  response_data : option LLMApiResponse;
  waits : list Z
}.

(** The retry loop around the call of the provider. [analyze n] is what the
    call made with [retryCount = n] does: it returns a response or throws.
    [remaining] is [maxRetries - retryCount], the iterations that
    [while (retryCount < maxRetries)] still allows. *)
Fixpoint retryLoop (analyze : nat → completion LLMApiResponse)
    (remaining retryCount : nat) (response_data_ : option LLMApiResponse)
    (waits_ : list Z) : completion Attempted :=
  match remaining with
  | O => Return {| response_data := response_data_; waits := waits_ |}
  | S remaining' =>
    match analyze retryCount with
    | Return r =>
      if hasContent r then Return {| response_data := Some r; waits := waits_ |}
      else if bool_decide (retryCount < maxRetries - 1)%nat then
        retryLoop analyze remaining' (S retryCount) (Some r)
                  (waits_ ++ [1000 * (Z.of_nat retryCount + 1)])
      else Return {| response_data := Some r; waits := waits_ |}
    | Throw e =>
      if bool_decide (retryCount < maxRetries - 1)%nat then
        retryLoop analyze remaining' (S retryCount) response_data_
                  (waits_ ++ [1000 * (Z.of_nat retryCount + 1)])
      else Throw e
    end
  end.

Definition callWithRetry (analyze : nat → completion LLMApiResponse) : completion Attempted :=
  retryLoop analyze maxRetries 0%nat None [].

(** A response with text and one without, and a provider that answers at
    the second call. *)
Definition answer : LLMApiResponse :=
  {| content := Some (jsq "{'count':1,'objects':[]}"); error := None; duration := Some 900%Q |}.

Definition silence : LLMApiResponse :=
  {| content := Some []; error := None; duration := Some 20%Q |}.

Definition answersSecond (n : nat) : completion LLMApiResponse :=
  match n with
  | 1%nat => Return answer
  | _ => Throw (Error "Network error")
  end.

End Hook.

(** ** More on the run serializer *)

Module Csv.
Import JS.

(** A cell as CSV writes it with escaping: between double quotes, every
    double quote of the text doubled. [parseCSVRow] reads this form, an
    escaped quote as one quote; [exportToCSV] writes the text as it is. *)
Definition escapedCell (field : str) : str :=
  [DQUOTE] ++ replaceAll DQUOTE [DQUOTE; DQUOTE] field ++ [DQUOTE].

(** An image whose texts keep each exported row on one line. *)
Definition oneLine (img : Model.EvaluationImage) : Prop :=
  (LF ∉ Model.id img) ∧ (LF ∉ Model.filename img) ∧ (LF ∉ Model.subset img)
  ∧ Forall (λ name, LF ∉ name) (Model.actualClassNames img)
  ∧ Forall (λ name, LF ∉ name) (default [] (Model.predictedClassNames img)).

(** A number that may be absent, exported and read back: 0 is exported as
    the empty cell, which reads as absent. *)
Definition readBack (n : option Z) : option Z :=
  n ≫= λ z, if bool_decide (z = 0) then None else Some z.

(** What the round trip keeps of an image besides its classes and its
    score: the counts, the duration, the dimensions, the status and, up to
    the white space around them, the texts that name the image. *)
Definition keptFields (img : Model.EvaluationImage) (imported : Imported.Image) : Prop :=
  Imported.actualObjects imported = Model.actualObjects img
  ∧ Some (Imported.predictedObjects imported) = Model.predictedObjects img
  ∧ Imported.apiDuration imported = default 0 (Model.apiDuration img)
  ∧ Imported.imageWidth imported = readBack (Model.imageWidth img)
  ∧ Imported.imageHeight imported = readBack (Model.imageHeight img)
  ∧ Imported.status imported = Model.statusName (Model.status img)
  ∧ Imported.id imported = Serializer.stripJpg (trim (Model.id img))
  ∧ Imported.filename imported = trim (Model.filename img)
  ∧ Imported.subset imported = trim (Model.subset img).

(** The numbers of an image that the data model leaves optional are
    integers that a number holds exactly. *)
Definition safeOptionals (img : Model.EvaluationImage) : Prop :=
  from_option Serializer.safeInteger True (Model.apiDuration img)
  ∧ from_option Serializer.safeInteger True (Model.imageWidth img)
  ∧ from_option Serializer.safeInteger True (Model.imageHeight img).

End Csv.

(** * Properties *)

(** ** Scoring engine *)

Section ScoringFacts.
Import JS Scoring.
Context {K : Type} `{ClassId K}.
Implicit Types xs ys cs actual predicted : list K.

Lemma sortNumbers_Permutation xs : sortNumbers xs ≡ₚ xs.
Proof. apply merge_sort_Permutation. Qed.

Lemma sortNumbers_Sorted xs : Sorted classId_le (sortNumbers xs).
Proof. apply (Sorted_merge_sort classId_le). Qed.

Lemma sortNumbers_eq_iff xs ys : sortNumbers xs = sortNumbers ys ↔ xs ≡ₚ ys.
Proof.
  split.
  - intros E. rewrite <- (sortNumbers_Permutation xs), E.
    apply sortNumbers_Permutation.
  - intros P. apply (Sorted_unique classId_le); auto using sortNumbers_Sorted.
    by rewrite !sortNumbers_Permutation.
Qed.

Lemma every_from_lookup ys xs idx :
  every_from (λ val i, bool_decide (ys !! i = Some val)) idx xs = true
  ↔ ∀ j x, xs !! j = Some x → ys !! (idx + j)%nat = Some x.
Proof.
  revert idx. induction xs as [|x xs IH]; intros idx; simpl.
  - split; [intros _ j x Hj; by destruct j | done].
  - rewrite andb_true_iff, bool_decide_eq_true, IH. split.
    + intros [Hhead Hrest] [|j] y Hj; simpl in Hj.
      * injection Hj as <-. by rewrite Nat.add_0_r.
      * rewrite <- Nat.add_succ_comm. by apply Hrest.
    + intros Hall. split.
      * specialize (Hall 0%nat x eq_refl). by rewrite Nat.add_0_r in Hall.
      * intros j y Hj. rewrite Nat.add_succ_comm. by apply (Hall (S j)).
Qed.

Lemma identical_check xs ys :
  bool_decide (length xs = length ys)
  && every (λ val idx, bool_decide (ys !! idx = Some val)) xs = true
  ↔ xs = ys.
Proof.
  unfold every. rewrite andb_true_iff, bool_decide_eq_true, every_from_lookup.
  split.
  - intros [Hl Hall]. apply list_eq_same_length with (length xs); auto.
    intros i x y _ Hx Hy. apply Hall in Hx. simpl in Hx. congruence.
  - intros ->. auto.
Qed.

Lemma occ_cons c x xs :
  occ c (x :: xs) = ((if decide (x = c) then 1 else 0) + occ c xs)%nat.
Proof. unfold occ. rewrite filter_cons. by destruct (decide (x = c)). Qed.

Lemma occ_Permutation c xs ys : xs ≡ₚ ys → occ c xs = occ c ys.
Proof. unfold occ. by intros ->. Qed.

Lemma getOr0_foldl xs (m : gmap K nat) c :
  getOr0 (foldl (λ m val, <[val := (getOr0 m val + 1)%nat]> m) m xs) c
  = (getOr0 m c + occ c xs)%nat.
Proof.
  revert m. induction xs as [|x xs IH]; intros m; simpl.
  - unfold occ. simpl. lia.
  - rewrite IH, occ_cons. unfold getOr0 at 1.
    destruct (decide (x = c)) as [->|Hne].
    + rewrite lookup_insert_eq. simpl. lia.
    + rewrite lookup_insert_ne by done. fold (getOr0 m c). lia.
Qed.

Lemma getOr0_countOccurrences xs c : getOr0 (countOccurrences xs) c = occ c xs.
Proof.
  unfold countOccurrences. rewrite getOr0_foldl. unfold getOr0.
  by rewrite lookup_empty.
Qed.

Lemma newSet_foldl xs s :
  NoDup s →
  NoDup (foldl Set_add s xs) ∧ ∀ x, x ∈ foldl Set_add s xs ↔ x ∈ s ∨ x ∈ xs.
Proof.
  revert s. induction xs as [|y xs IH]; intros s Hs; simpl.
  - split; [done|]. intros x. rewrite elem_of_nil. tauto.
  - assert (Hadd : NoDup (Set_add s y) ∧ ∀ x, x ∈ Set_add s y ↔ x ∈ s ∨ x = y).
    { unfold Set_add. case_bool_decide as Hy.
      - split; [done|]. intros x. split; [tauto|]. by intros [?| ->].
      - split.
        + apply NoDup_app. split_and!; [done| |apply NoDup_singleton].
          intros x Hx ->%list_elem_of_singleton. done.
        + intros x. by rewrite elem_of_app, list_elem_of_singleton. }
    destruct Hadd as [Hnd Hel]. destruct (IH _ Hnd) as [IH1 IH2].
    split; [done|]. intros x. rewrite IH2, Hel, elem_of_cons. tauto.
Qed.

Lemma newSet_remove_dups xs : newSet xs ≡ₚ remove_dups xs.
Proof.
  destruct (newSet_foldl xs [] (NoDup_nil_2)) as [Hnd Hel].
  apply NoDup_Permutation; [done|apply NoDup_remove_dups|].
  intros x. unfold newSet. rewrite Hel, elem_of_remove_dups, elem_of_nil. tauto.
Qed.

Lemma foldl_sum (f : K → nat) xs acc :
  foldl (λ acc c, (acc + f c)%nat) acc xs = (acc + sum_list_with f xs)%nat.
Proof.
  revert acc. induction xs as [|x xs IH]; intros acc; simpl; [lia|].
  rewrite IH. lia.
Qed.

Lemma correctMatches_correctOf actual predicted :
  foldl (λ acc classId,
           (acc + Nat.min (getOr0 (countOccurrences (sortNumbers actual)) classId)
                          (getOr0 (countOccurrences (sortNumbers predicted)) classId))%nat)
        0%nat (newSet (actual ++ predicted))
  = correctOf actual predicted.
Proof.
  rewrite (foldl_sum (λ c, Nat.min (getOr0 (countOccurrences (sortNumbers actual)) c)
                                   (getOr0 (countOccurrences (sortNumbers predicted)) c))).
  simpl. unfold correctOf. rewrite newSet_remove_dups.
  induction (remove_dups (actual ++ predicted)) as [|c cs IH]; [done|].
  simpl. rewrite IH, !getOr0_countOccurrences.
  by rewrite (occ_Permutation c _ _ (sortNumbers_Permutation actual)),
             (occ_Permutation c _ _ (sortNumbers_Permutation predicted)).
Qed.

Lemma div_ofNat n d : (0 < d)%nat → div (ofNat n) (ofNat d) = Num (ratio n d).
Proof.
  intros Hd. unfold div, ofNat, ofZ, ratio.
  destruct (Qeq_bool (inject_Z (Z.of_nat d)) 0) eqn:E; [|done].
  apply Qeq_bool_eq in E. unfold Qeq in E. simpl in E. lia.
Qed.

Lemma ratio_unit n d : (n ≤ d)%nat → (0 < d)%nat → (0 <= ratio n d <= 1)%Q.
Proof.
  intros Hn Hd. unfold ratio.
  assert (0 < inject_Z (Z.of_nat d))%Q as Hpos.
  { change 0%Q with (inject_Z 0). rewrite <- Zlt_Qlt. lia. }
  split.
  - apply Qle_shift_div_l; [done|]. rewrite Qmult_0_l.
    change 0%Q with (inject_Z 0). rewrite <- Zle_Qle. lia.
  - apply Qle_shift_div_r; [done|]. rewrite Qmult_1_l. rewrite <- Zle_Qle. lia.
Qed.

Lemma sum_indicator (x : K) cs :
  NoDup cs → x ∈ cs →
  sum_list_with (λ c, if decide (x = c) then 1%nat else 0%nat) cs = 1%nat.
Proof.
  induction 1 as [|c cs Hc Hnd IH]; [by intros ?%elem_of_nil|].
  intros [->|Hin]%elem_of_cons; simpl.
  - rewrite decide_True by done. f_equal.
    clear IH. induction cs as [|d cs IH]; [done|].
    apply not_elem_of_cons in Hc as [? ?]. apply NoDup_cons in Hnd as [? ?].
    simpl. rewrite decide_False by done. auto.
  - rewrite decide_False by (intros ->; done). by rewrite IH.
Qed.

Lemma sum_occ xs cs :
  NoDup cs → (∀ x, x ∈ xs → x ∈ cs) →
  sum_list_with (λ c, occ c xs) cs = length xs.
Proof.
  intros Hnd. induction xs as [|x xs IH]; intros Hin.
  - clear. induction cs as [|c cs IH]; [done|]. simpl. by rewrite IH.
  - transitivity (sum_list_with (λ c, if decide (x = c) then 1%nat else 0%nat) cs
                  + sum_list_with (λ c, occ c xs) cs)%nat.
    + clear. induction cs as [|c cs IH]; [done|]. simpl. rewrite occ_cons, IH. lia.
    + rewrite sum_indicator, IH; auto.
      * intros y Hy. apply Hin. by right.
      * apply Hin. by left.
Qed.

Lemma correctOf_le actual predicted :
  (correctOf actual predicted ≤ Nat.min (length actual) (length predicted))%nat.
Proof.
  unfold correctOf.
  pose proof (NoDup_remove_dups (actual ++ predicted)) as Hnd.
  assert (∀ x, x ∈ actual → x ∈ remove_dups (actual ++ predicted)) as Ha.
  { intros x ?. rewrite elem_of_remove_dups, elem_of_app. auto. }
  assert (∀ x, x ∈ predicted → x ∈ remove_dups (actual ++ predicted)) as Hp.
  { intros x ?. rewrite elem_of_remove_dups, elem_of_app. auto. }
  rewrite <- (sum_occ actual _ Hnd Ha), <- (sum_occ predicted _ Hnd Hp).
  clear. generalize (remove_dups (actual ++ predicted)).
  intros cs. induction cs as [|c cs IH]; simpl; lia.
Qed.

(** The refinement behind C1, for any type of class ids. *)
Lemma calculateClassAccuracy_refines (actual predicted : list K) :
  calculateClassAccuracy actual predicted = classAccuracy_spec actual predicted.
Proof.
  unfold calculateClassAccuracy, classAccuracy_spec.
  destruct actual as [|a actual], predicted as [|p predicted]; try reflexivity.
  cbv zeta. set (A := a :: actual). set (P := p :: predicted).
  replace (bool_decide (length A = 0%nat)) with false by done.
  replace (bool_decide (length P = 0%nat)) with false by done.
  cbn [andb orb].
  assert (0 < Nat.max (length A) (length P))%nat as Hmax by (subst A; simpl; lia).
  destruct (decide (A ≡ₚ P)) as [HP|HP].
  - apply sortNumbers_eq_iff in HP. apply identical_check in HP.
    by rewrite HP.
  - destruct (_ && _) eqn:E.
    { apply identical_check, sortNumbers_eq_iff in E. done. }
    rewrite correctMatches_correctOf, !div_ofNat by done.
    destruct (decide (length A = length P)) as [Hl|Hl].
    + rewrite bool_decide_eq_true_2 by done.
      by rewrite bool_decide_eq_true_2 by done.
    + by rewrite bool_decide_eq_false_2 by done.
Qed.

Lemma classAccuracy_unit (actual predicted : list K) :
  ∃ q, calculateClassAccuracy actual predicted = Num q ∧ (0 <= q <= 1)%Q.
Proof.
  rewrite calculateClassAccuracy_refines. unfold classAccuracy_spec.
  destruct actual as [|a actual], predicted as [|p predicted];
    try (eexists; split; [reflexivity|done]).
  set (A := a :: actual). set (P := p :: predicted).
  case_decide; [eexists; split; [reflexivity|done]|].
  pose proof (correctOf_le A P) as Hc.
  assert (0 < length A)%nat by (subst A; simpl; lia).
  assert (0 < length P)%nat by (subst P; simpl; lia).
  destruct (ratio_unit (correctOf A P) (Nat.max (length A) (length P)))
    as [Hb0 Hb1]; [lia..|].
  destruct (ratio_unit (Nat.min (length A) (length P)) (Nat.max (length A) (length P)))
    as [Hl0 Hl1]; [lia..|].
  case_decide; (eexists; split; [reflexivity|]); [done|]. split.
  - by apply Qmult_le_0_compat.
  - rewrite <- (Qmult_1_l 1). apply Qmult_le_compat_nonneg; done.
Qed.

End ScoringFacts.

(** C1. On sequences of class ids [calculateClassAccuracy] computes the
    class accuracy of the specification: 1 when both sequences are empty, 0
    when exactly one is, 1 when they are equal as multisets, and otherwise
    [correct / maxTotal], multiplied by [min / max] of the two lengths when
    the lengths differ, where [correct] sums, over the distinct class ids,
    the smaller of the two multiplicities. *)
Theorem calculateClassAccuracy_meets_spec (actual predicted : list Z) :
  Scoring.calculateClassAccuracy actual predicted
  = Scoring.classAccuracy_spec actual predicted.
Proof. apply calculateClassAccuracy_refines. Qed.

Section CountAccuracyFacts.
Import JS Scoring.

Lemma strictEq_ofZ_0 z : strictEq (ofZ z) (Num 0) = bool_decide (z = 0).
Proof.
  unfold strictEq, ofZ. case_bool_decide as Hz.
  - subst. reflexivity.
  - destruct (Qeq_bool (inject_Z z) 0) eqn:E; [|done].
    apply Qeq_bool_eq in E. unfold Qeq in E. simpl in E. lia.
Qed.

Lemma Math_min_ofZ a b : Math_min (ofZ a) (ofZ b) = ofZ (Z.min a b).
Proof.
  unfold Math_min, ofZ. f_equal.
  destruct (Qle_bool (inject_Z a) (inject_Z b)) eqn:E.
  - apply Qle_bool_iff in E. rewrite <- Zle_Qle in E. by rewrite Z.min_l.
  - rewrite Z.min_r; [done|]. destruct (Z.le_gt_cases b a) as [?|Hlt]; [done|].
    assert (Qle_bool (inject_Z a) (inject_Z b) = true); [|congruence].
    apply Qle_bool_iff. rewrite <- Zle_Qle. lia.
Qed.

Lemma Math_max_ofZ a b : Math_max (ofZ a) (ofZ b) = ofZ (Z.max a b).
Proof.
  unfold Math_max, ofZ. f_equal.
  destruct (Qle_bool (inject_Z a) (inject_Z b)) eqn:E.
  - apply Qle_bool_iff in E. rewrite <- Zle_Qle in E. by rewrite Z.max_r.
  - rewrite Z.max_l; [done|]. destruct (Z.le_gt_cases b a) as [?|Hlt]; [done|].
    assert (Qle_bool (inject_Z a) (inject_Z b) = true); [|congruence].
    apply Qle_bool_iff. rewrite <- Zle_Qle. lia.
Qed.

Lemma div_ofZ a b : b ≠ 0 → div (ofZ a) (ofZ b) = Num (inject_Z a / inject_Z b).
Proof.
  intros Hb. unfold div, ofZ.
  destruct (Qeq_bool (inject_Z b) 0) eqn:E; [|done].
  apply Qeq_bool_eq in E. unfold Qeq in E. simpl in E. lia.
Qed.

Lemma Qeq_bool_false_neq x y : Qeq_bool x y = false → ¬ (x == y)%Q.
Proof. intros E Heq. apply Qeq_bool_iff in Heq. congruence. Qed.

Lemma Qle_bool_false_lt x y : Qle_bool x y = false → (y < x)%Q.
Proof.
  intros E. apply Qnot_le_lt. intros Hle. apply Qle_bool_iff in Hle. congruence.
Qed.

Lemma fraction_unit (m M : Q) : (0 <= m)%Q → (m <= M)%Q → (0 < M)%Q → (0 <= m / M <= 1)%Q.
Proof.
  intros H0 Hle Hpos. split.
  - apply Qle_shift_div_l; [done|]. by rewrite Qmult_0_l.
  - apply Qle_shift_div_r; [done|]. by rewrite Qmult_1_l.
Qed.

(** The count accuracy of a finite actual count and a predicted count,
    neither of them negative or NaN. *)
Lemma countAccuracy_unit {K} `{ClassId K} (x : Q) (p : number) (ac pc : list K) :
  (0 <= x)%Q → notNegative p →
  inUnit (countAccuracy (calculateImageScore (Num x) ac p pc)).
Proof.
  intros Ha Hp. simpl.
  destruct p as [y| | |]; simpl in *; try done.
  - destruct (Qeq_bool x 0) eqn:Ex, (Qeq_bool y 0) eqn:Ey; simpl; try done.
    apply Qeq_bool_false_neq in Ex, Ey.
    assert (0 < x)%Q by (apply Qle_lteq in Ha as [?|Heq]; [done|by symmetry in Heq]).
    assert (0 < y)%Q by (apply Qle_lteq in Hp as [?|Heq]; [done|by symmetry in Heq]).
    destruct (Qle_bool x y) eqn:Exy.
    + apply Qle_bool_iff in Exy.
      destruct (Qeq_bool y 0) eqn:Ey'; [by apply Qeq_bool_eq in Ey'|].
      simpl. by apply fraction_unit.
    + apply Qle_bool_false_lt in Exy.
      destruct (Qeq_bool x 0) eqn:Ex'; [by apply Qeq_bool_eq in Ex'|].
      simpl. apply fraction_unit; [done|by apply Qlt_le_weak|done].
  - destruct (Qeq_bool x 0); simpl; done.
Qed.

End CountAccuracyFacts.

(** C2. For counts that are not negative, the count accuracy is 1 when
    both are zero, 0 when exactly one is zero, and [min / max] otherwise;
    for an actual count of 3 and a predicted count of 2 it is 2/3. *)
Theorem countAccuracy_formula (actual predicted : Z) (actualClasses predictedClasses : list Z) :
  0 ≤ actual → 0 ≤ predicted →
  Scoring.countAccuracy
    (Scoring.calculateImageScore (JS.ofZ actual) actualClasses
                                 (JS.ofZ predicted) predictedClasses)
  = (if decide (actual = 0 ∧ predicted = 0) then JS.Num 1
     else if decide (actual = 0 ∨ predicted = 0) then JS.Num 0
     else JS.Num (inject_Z (Z.min actual predicted) / inject_Z (Z.max actual predicted)))
  ∧ Scoring.countAccuracy
      (Scoring.calculateImageScore (JS.ofZ 3) actualClasses (JS.ofZ 2) predictedClasses)
    = JS.Num (2 # 3).
Proof.
  intros Ha Hp. split; [|reflexivity].
  unfold Scoring.calculateImageScore. cbn [Scoring.countAccuracy].
  rewrite !strictEq_ofZ_0, Math_min_ofZ, Math_max_ofZ.
  repeat case_bool_decide; repeat case_decide; simpl; try done; try tauto.
  apply div_ofZ. lia.
Qed.

Lemma countAccuracy_formula_witness :
  Scoring.countAccuracy
    (Scoring.calculateImageScore (JS.ofZ 3) [0; 1; 1] (JS.ofZ 2) [0; 1])
  = JS.Num (2 # 3).
Proof.
  destruct (countAccuracy_formula 3 2 [0; 1; 1] [0; 1]) as [Hformula _]; [lia | lia |].
  exact Hformula.
Defined.

(** ** Response normalizer *)

(** Inversion of a successful run of the [try] block. *)
Lemma bind_Return {A B} (c : JS.completion A) (k : A → JS.completion B) r :
  c ≫= k = JS.Return r → ∃ v, c = JS.Return v ∧ k v = JS.Return r.
Proof. destruct c as [v|e]; [eauto|done]. Qed.

(** Follows a successful run through binds and branches, down to the
    record returned. *)
Ltac follow_run Hr :=
  repeat first
    [ apply bind_Return in Hr as (? & _ & Hr)
    | match type of Hr with
      | (if ?c then _ else _) = JS.Return _ => destruct c eqn:?
      | match ?x with _ => _ end = JS.Return _ => destruct x eqn:?
      end ];
  try discriminate Hr.

Section NormalizerFacts.
Import JS Normalizer.

Lemma inRange_bounds lo hi n q : inRange lo hi n = Some q → (lo <= q <= hi)%Q.
Proof.
  destruct n as [x| | |]; simpl; try done.
  destruct (Qle_bool lo x) eqn:E1, (Qle_bool x hi) eqn:E2; simpl; try done.
  intros [= <-]. by rewrite <- !Qle_bool_iff.
Qed.

Lemma numberInRange_bounds lo hi v q : numberInRange lo hi v = Some q → (lo <= q <= hi)%Q.
Proof.
  destruct v as [[| |x| | |]|]; try done.
  intros Hq. exact (inRange_bounds lo hi (Num x) q Hq).
Qed.

Lemma omap_Forall {A B} (f : A → option B) (P : B → Prop) (xs : list A) :
  (∀ x y, f x = Some y → P y) → Forall P (omap f xs).
Proof.
  intros Hf. induction xs as [|x xs IH]; simpl; [constructor|].
  destruct (f x) eqn:E; [constructor; eauto|done].
Qed.

Lemma filterClassIds_range ids : Forall (λ q, (0 <= q <= 6)%Q) (filterClassIds ids).
Proof. apply omap_Forall. intros x y. apply numberInRange_bounds. Qed.

Lemma filterConfidences_range confs : Forall (λ q, (0 <= q <= 1)%Q) (filterConfidences confs).
Proof. apply omap_Forall. intros x y. apply numberInRange_bounds. Qed.

Lemma textExtraction_range response :
  Forall (λ q, (0 <= q <= 6)%Q) (classes (textExtraction response)).
Proof. apply omap_Forall. intros x y. apply inRange_bounds. Qed.

Lemma interpret_range parsed r :
  interpret parsed = Return r → Forall (λ q, (0 <= q <= 6)%Q) (classes r).
Proof.
  unfold interpret. intros Hr. follow_run Hr.
  all: injection Hr as <-; simpl; try case_match;
    first [apply filterClassIds_range | constructor].
Qed.

Lemma isDigit_digitChar c : isDigit c = true → digitChar c.
Proof.
  unfold isDigit, digitChar. rewrite andb_true_iff, !N.leb_le. tauto.
Qed.

Lemma digitChar_cases c :
  digitChar c → c ∈ [48; 49; 50; 51; 52; 53; 54; 55; 56; 57]%N.
Proof. unfold digitChar. rewrite !elem_of_cons. lia. Qed.

Lemma matchSmallNumbers_shape (n : nat) prevIsWord s :
  (length s ≤ n)%nat → Forall smallNumeral (matchSmallNumbers prevIsWord s).
Proof.
  revert prevIsWord s. induction n as [|n IH]; intros prevIsWord s Hlen.
  - destruct s; [constructor|simpl in Hlen; lia].
  - destruct s as [|c rest]; [constructor|]. simpl in Hlen.
    cbn [matchSmallNumbers].
    destruct (negb prevIsWord && isDigit c) eqn:Hc; [|apply IH; lia].
    apply andb_true_iff in Hc as [_ Hc%isDigit_digitChar].
    destruct rest as [|d rest'].
    { apply Forall_singleton. left. by exists c. }
    simpl in Hlen. destruct (isDigit d) eqn:Hd.
    + apply isDigit_digitChar in Hd. destruct rest' as [|e rest''].
      { apply Forall_singleton. right. by exists c, d. }
      destruct (isWordChar e).
      * apply IH; simpl in *; lia.
      * constructor; [right; by exists c, d|]. apply IH; simpl in *; lia.
    + destruct (isWordChar d).
      * apply IH; simpl in *; lia.
      * constructor; [left; by exists c|]. apply IH; simpl in *; lia.
Qed.

Lemma StringToNumber_smallNumeral m :
  smallNumeral m → ∃ z, StringToNumber m = Num (inject_Z z).
Proof.
  intros [(c & -> & Hc)|(c & d & -> & Hc & Hd)].
  - exists (decimalValue [c]). apply digitChar_cases in Hc.
    repeat (apply elem_of_cons in Hc as [->|Hc]; [vm_compute; reflexivity|]).
    by apply elem_of_nil in Hc.
  - exists (decimalValue [c; d]).
    apply digitChar_cases in Hc. apply digitChar_cases in Hd.
    repeat (apply elem_of_cons in Hc as [->|Hc];
            [repeat (apply elem_of_cons in Hd as [->|Hd]; [vm_compute; reflexivity|]);
             by apply elem_of_nil in Hd|]).
    by apply elem_of_nil in Hc.
Qed.

Lemma textExtraction_integers response :
  Forall isInteger (classes (textExtraction response)).
Proof.
  apply Forall_forall. intros q (n & Hn & Hq)%list_elem_of_omap.
  apply list_elem_of_fmap in Hn as (m & -> & Hm).
  pose proof (matchSmallNumbers_shape (length response) false response (le_n _)) as Hshape.
  apply (proj1 (Forall_forall _ _) Hshape) in Hm.
  destruct (StringToNumber_smallNumeral m Hm) as [z Hz].
  rewrite Hz in Hq. simpl in Hq. exists z.
  destruct (_ && _); [by injection Hq as <-|done].
Qed.

End NormalizerFacts.

(** C3. [parseLLMResponse] returns a result for every response, never an
    exception: a number for [count] and a list for [classes]. A response
    with nothing to recognise (the empty text, text that is not JSON, an
    object without a known key) gives the floor: count 0 and no class. *)
Theorem parseLLMResponse_never_throws :
  (∀ response : JS.str, ∃ r, Normalizer.parseLLMResponse response = JS.Return r)
  ∧ Normalizer.parseLLMResponse [] = JS.Return Normalizer.floor
  ∧ Normalizer.parseLLMResponse (JS.jsq "{'objects': [") = JS.Return Normalizer.floor
  ∧ Normalizer.parseLLMResponse (JS.jsq "{'foo': 'bar'}") = JS.Return Normalizer.floor.
Proof.
  split; [|split_and!; vm_compute; reflexivity].
  intros response. unfold Normalizer.parseLLMResponse, JS.try_catch.
  destruct (Normalizer.tryBlock response); eauto.
Qed.

(** C4, as the claim states it, fails: a JSON number between 0 and 6 passes
    the filter whether or not it is an integer. *)
Lemma classes_integer_counterexample :
  ∃ r, Normalizer.parseLLMResponse (JS.jsq "{'count':1,'classes':[2.5]}") = JS.Return r
       ∧ Normalizer.classes r = [5 # 2]
       ∧ ¬ ∃ z : Z, (5 # 2 == inject_Z z)%Q.
Proof.
  eexists. split; [vm_compute; reflexivity|]. split; [reflexivity|].
  intros [z Hz]. unfold Qeq in Hz. simpl in Hz. lia.
Qed.

(** C4, amended. Every element of the classes that [parseLLMResponse]
    returns is a number from 0 to 6: ids outside the range are dropped. It
    is an integer when the classes come from the text of the response, the
    [try] block having thrown; a class id read from JSON is kept as it is,
    integer or not. For the fenced scenario the result has count 2 and
    classes [0]. *)
Theorem classes_in_range (response : JS.str) (r : Normalizer.ParsedResponse) :
  Normalizer.parseLLMResponse response = JS.Return r →
  Forall (λ q, (0 <= q <= 6)%Q) (Normalizer.classes r)
  ∧ (∀ e, Normalizer.tryBlock response = JS.Throw e →
          Forall Normalizer.isInteger (Normalizer.classes r))
  ∧ ∃ scenario,
      Normalizer.parseLLMResponse Normalizer.fencedScenario = JS.Return scenario
      ∧ Normalizer.count scenario = JS.Num 2
      ∧ Normalizer.classes scenario = [0%Q].
Proof.
  intros Hr. unfold Normalizer.parseLLMResponse, JS.try_catch in Hr. split_and!.
  - destruct (Normalizer.tryBlock response) as [v|e] eqn:Hbody.
    + injection Hr as ->. apply bind_Return in Hbody as (parsed & _ & Hi).
      by apply interpret_range in Hi.
    + injection Hr as <-. apply textExtraction_range.
  - intros e He. rewrite He in Hr. injection Hr as <-. apply textExtraction_integers.
  - eexists. split; [vm_compute; reflexivity|]. split; reflexivity.
Qed.

Lemma classes_in_range_witness :
  Forall (λ q, (0 <= q <= 6)%Q) [0%Q].
Proof.
  destruct (classes_in_range Normalizer.fencedScenario
              {| Normalizer.count := JS.Num 2;
                 Normalizer.classes := [0%Q];
                 Normalizer.countConfidence := None;
                 Normalizer.classConfidences := Some [(9 # 10)%Q; (1 # 2)%Q] |})
    as [Hrange _]; [vm_compute; reflexivity|].
  exact Hrange.
Defined.

(** C8. The code extracts the braces before it parses anything: a response
    that is valid JSON as it stands, an array around an object, is
    not parsed outright. *)
Lemma brace_extraction_is_unconditional :
  let response := JS.jsq "[{'count':1,'classes':[1]}]" in
  JS.JSON_parse (Normalizer.stripFences response)
  = JS.Return (JS.JArray [JS.JObject [(JS.js "count", JS.JNumber 1);
                                      (JS.js "classes", JS.JArray [JS.JNumber 1])]])
  ∧ Normalizer.parseLLMResponse response
    = JS.Return {| Normalizer.count := JS.Num 1;
                   Normalizer.classes := [1%Q];
                   Normalizer.countConfidence := None;
                   Normalizer.classConfidences := None |}
  ∧ Normalizer.parseLLMResponse_spec response = JS.Return Normalizer.floor.
Proof. split_and!; vm_compute; reflexivity. Qed.

Section ConfidenceFacts.
Import JS Normalizer.

Lemma mapProp_Forall2 key objects vs :
  mapProp key objects = Return vs →
  Forall2 (λ obj v, getProp (Some obj) key = Return v) objects vs.
Proof.
  revert vs. induction objects as [|obj objects IH]; intros vs Hvs.
  - injection Hvs as <-. constructor.
  - unfold mapProp in Hvs. simpl in Hvs.
    apply bind_Return in Hvs as (v & Hv & Hvs).
    apply bind_Return in Hvs as (vs' & Hvs' & Hvs).
    injection Hvs as <-. constructor; [done|]. by apply IH.
Qed.

Lemma omap_length_le {A B} (f : A → option B) (xs : list A) :
  (length (omap f xs) ≤ length xs)%nat.
Proof.
  induction xs as [|x xs IH]; simpl; [lia|].
  change (list_omap A B f xs) with (omap f xs). destruct (f x); simpl; lia.
Qed.

Lemma isArray_elements v :
  isArray v = true → v = Some (JArray (elementsOf v)).
Proof. by destruct v as [[]|]. Qed.

Lemma aligned_objects objects ids cfs :
  Forall2 (λ obj v, getProp (Some obj) (js "class") = Return v) objects ids →
  Forall2 (λ obj v, getProp (Some obj) (js "confidence") = Return v) objects cfs →
  Forall completeObject objects →
  Forall3 describes objects (filterClassIds ids) (filterConfidences cfs).
Proof.
  intros Hids. revert cfs.
  induction Hids as [|obj v objects ids Hv Hids IH]; intros cfs Hcfs Hall.
  - inversion Hcfs; subst. constructor.
  - inversion Hcfs as [|? w ? cfs' Hw Hcfs']; subst.
    apply Forall_cons in Hall as [(c & f & Hc & Hcr & Hf & Hfr) Hall].
    rewrite Hc in Hv. injection Hv as <-. rewrite Hf in Hw. injection Hw as <-.
    unfold filterClassIds, filterConfidences. cbn [omap list_omap].
    rewrite Hcr, Hfr. constructor; [by split|]. by apply IH.
Qed.

End ConfidenceFacts.

(** C10, as the claim states it, fails: for the fenced scenario one class
    id is returned with two confidences. *)
Lemma confidences_alignment_counterexample :
  ∃ r confs,
    Normalizer.parseLLMResponse Normalizer.fencedScenario = JS.Return r
    ∧ Normalizer.classConfidences r = Some confs
    ∧ length confs ≠ length (Normalizer.classes r).
Proof.
  eexists _, _. split; [vm_compute; reflexivity|]. split; [reflexivity|]. simpl. lia.
Qed.

(** C10, amended. A defined [classConfidences] comes from the [objects]
    array of the parsed response: it is the list, in order and not empty, of
    the confidences that are numbers from 0 to 1, as [classes] is the list of
    the class ids that are numbers from 0 to 6, each filtered on its own and
    neither longer than [objects]. They are aligned object by object when
    every object carries both a class id and a confidence in range. *)
Theorem classConfidences_of_objects
    (response : JS.str) (r : Normalizer.ParsedResponse) (confs : list Q) :
  Normalizer.parseLLMResponse response = JS.Return r →
  Normalizer.classConfidences r = Some confs →
  ∃ parsed objects ids cfs,
    JS.JSON_parse (Normalizer.extractJSON (Normalizer.stripFences response)) = JS.Return parsed
    ∧ JS.getProp (Some parsed) (JS.js "objects") = JS.Return (Some (JS.JArray objects))
    ∧ Normalizer.mapProp (JS.js "class") objects = JS.Return ids
    ∧ Normalizer.mapProp (JS.js "confidence") objects = JS.Return cfs
    ∧ Normalizer.classes r = Normalizer.filterClassIds ids
    ∧ confs = Normalizer.filterConfidences cfs
    ∧ confs ≠ []
    ∧ (length (Normalizer.classes r) ≤ length objects)%nat
    ∧ (length confs ≤ length objects)%nat
    ∧ (Forall Normalizer.completeObject objects →
       Forall3 Normalizer.describes objects (Normalizer.classes r) confs).
Proof.
  intros Hr Hconfs.
  unfold Normalizer.parseLLMResponse, JS.try_catch in Hr.
  destruct (Normalizer.tryBlock response) as [v|e] eqn:Hbody; [|by injection Hr as <-].
  injection Hr as ->. apply bind_Return in Hbody as (parsed & Hparsed & Hi).
  exists parsed. unfold Normalizer.interpret in Hi.
  apply bind_Return in Hi as (parsed_count & _ & Hi).
  apply bind_Return in Hi as (parsed_objects & Hobjects & Hi).
  apply bind_Return in Hi as (parsed_aircraft & _ & Hi).
  apply bind_Return in Hi as (parsed_classes & _ & Hi).
  apply bind_Return in Hi as (parsed_countConfidence & _ & Hi).
  destruct (_ && _) eqn:Hshape.
  - apply andb_true_iff in Hshape as [_ Harr]. apply isArray_elements in Harr.
    apply bind_Return in Hi as (ids & Hids & Hi).
    apply bind_Return in Hi as (cfs & Hcfs & Hi).
    apply bind_Return in Hi as (count & _ & Hi).
    injection Hi as <-. simpl in *.
    case_bool_decide as Hlen; [|done]. injection Hconfs as <-.
    exists (JS.elementsOf parsed_objects), ids, cfs.
    pose proof (mapProp_Forall2 _ _ _ Hids) as Hids2.
    pose proof (mapProp_Forall2 _ _ _ Hcfs) as Hcfs2.
    split_and!; try done.
    + by rewrite Hobjects, <- Harr.
    + intros Hnil. rewrite Hnil in Hlen. simpl in Hlen. lia.
    + rewrite (Forall2_length _ _ _ Hids2). apply omap_length_le.
    + rewrite (Forall2_length _ _ _ Hcfs2). apply omap_length_le.
    + by apply aligned_objects.
  - follow_run Hi; injection Hi as <-; done.
Qed.

Lemma classConfidences_of_objects_witness :
  ∃ parsed objects ids cfs,
    JS.JSON_parse (Normalizer.extractJSON (Normalizer.stripFences Normalizer.fencedScenario))
    = JS.Return parsed
    ∧ JS.getProp (Some parsed) (JS.js "objects") = JS.Return (Some (JS.JArray objects))
    ∧ Normalizer.mapProp (JS.js "class") objects = JS.Return ids
    ∧ Normalizer.mapProp (JS.js "confidence") objects = JS.Return cfs
    ∧ [0%Q] = Normalizer.filterClassIds ids
    ∧ [(9 # 10)%Q; (1 # 2)%Q] = Normalizer.filterConfidences cfs
    ∧ [(9 # 10)%Q; (1 # 2)%Q] ≠ []
    ∧ (length [0%Q] ≤ length objects)%nat
    ∧ (length [(9 # 10)%Q; (1 # 2)%Q] ≤ length objects)%nat
    ∧ (Forall Normalizer.completeObject objects →
       Forall3 Normalizer.describes objects [0%Q] [(9 # 10)%Q; (1 # 2)%Q]).
Proof.
  apply (classConfidences_of_objects Normalizer.fencedScenario
           {| Normalizer.count := JS.Num 2;
              Normalizer.classes := [0%Q];
              Normalizer.countConfidence := None;
              Normalizer.classConfidences := Some [(9 # 10)%Q; (1 # 2)%Q] |}).
  - vm_compute. reflexivity.
  - reflexivity.
Defined.

(** ** From a response to a score *)

(** C7, as the claim states it, fails: the normalizer returns the count of
    the response as it is, and a negative count gives a negative count
    accuracy. *)
Lemma score_range_counterexample :
  ∃ sc, Pipeline.scoreResponse 3 [0; 0; 0] (JS.jsq "{'count':-2,'objects':[]}") = JS.Return sc
        ∧ Scoring.countAccuracy sc = JS.Num (-2 # 3)
        ∧ ¬ JS.inUnit (Scoring.countAccuracy sc).
Proof.
  eexists. split; [vm_compute; reflexivity|]. split; [reflexivity|].
  simpl. intros [Hneg _]. by apply Hneg.
Qed.

(** C7, amended. For a ground-truth count that is not negative, any
    ground-truth class list, and any response whose normalized count is
    neither negative nor NaN, the count accuracy and the class accuracy of
    the score both lie between 0 and 1. The class accuracy lies between 0
    and 1 always: whatever the ground-truth count, negative or not, and
    whatever the count of the response. *)
Theorem scores_in_unit_interval
    (actualObjects : Z) (actualClasses : list Z) (content : JS.str)
    (parsed : Normalizer.ParsedResponse) :
  Normalizer.parseLLMResponse content = JS.Return parsed →
  ∃ sc, Pipeline.scoreResponse actualObjects actualClasses content = JS.Return sc
        ∧ JS.inUnit (Scoring.classAccuracy sc)
        ∧ (0 ≤ actualObjects → JS.notNegative (Normalizer.count parsed) →
           JS.inUnit (Scoring.countAccuracy sc)).
Proof.
  intros Hparsed. unfold Pipeline.scoreResponse. rewrite Hparsed.
  eexists. split; [reflexivity|]. split.
  - cbn [Scoring.classAccuracy Scoring.calculateImageScore].
    destruct (classAccuracy_unit
                ((λ z, Q2Qc (inject_Z z)) <$> actualClasses)
                (Q2Qc <$> Normalizer.classes parsed)) as (q & -> & Hq).
    exact Hq.
  - intros Hactual Hcount. apply countAccuracy_unit; [|done].
    change 0%Q with (inject_Z 0). by rewrite <- Zle_Qle.
Qed.

Lemma scores_in_unit_interval_witness :
  ∃ sc, Pipeline.scoreResponse 3 [0; 1; 1] Normalizer.fencedScenario = JS.Return sc
        ∧ JS.inUnit (Scoring.countAccuracy sc)
        ∧ JS.inUnit (Scoring.classAccuracy sc).
Proof.
  destruct (scores_in_unit_interval 3 [0; 1; 1] Normalizer.fencedScenario
              {| Normalizer.count := JS.Num 2;
                 Normalizer.classes := [0%Q];
                 Normalizer.countConfidence := None;
                 Normalizer.classConfidences := Some [(9 # 10)%Q; (1 # 2)%Q] |})
    as (sc & Hsc & Hclass & Hcount).
  - vm_compute. reflexivity.
  - exists sc. split; [exact Hsc|]. split; [|exact Hclass].
    apply Hcount; [lia|]. simpl. discriminate.
Defined.

(** ** Stopping and resetting a run *)

(** C9, as the claim states it, fails: [reset()] does not set the
    cancellation flag that [stop()] sets. *)
Lemma reset_leaves_flag_counterexample :
  let modelId := JS.js "gpt-4o" in
  let st := Orchestrator.exampleState in
  Orchestrator.stopFlags (Orchestrator.stopEvaluation modelId st).1 !! modelId = Some true
  ∧ Orchestrator.stopFlags (Orchestrator.resetEvaluation modelId st).1 !! modelId = None
  ∧ Orchestrator.resetEvaluation modelId st ≠ Orchestrator.resetEvaluation_spec modelId st.
Proof.
  intros modelId st.
  assert (Orchestrator.modelEvaluations st !! modelId
          = Some {| Orchestrator.model := Orchestrator.exampleModel;
                    Orchestrator.images := [];
                    Orchestrator.results := None;
                    Orchestrator.isRunning := true;
                    Orchestrator.currentImageIndex := 0;
                    Orchestrator.progress := 0;
                    Orchestrator.config := Orchestrator.exampleConfig |}) as Hev.
  { apply lookup_singleton_eq. }
  unfold Orchestrator.resetEvaluation_spec, Orchestrator.resetEvaluation,
    Orchestrator.stopEvaluation.
  rewrite Hev. cbn [fst Orchestrator.stopFlags].
  split; [apply lookup_insert_eq|]. split; [apply lookup_empty|].
  intros Heq. apply (f_equal (λ out, Orchestrator.stopFlags out.1 !! modelId)) in Heq.
  cbn [fst Orchestrator.stopFlags Orchestrator.clearProgress] in Heq.
  rewrite lookup_insert_eq in Heq. unfold st in Heq. simpl in Heq.
  by rewrite lookup_empty in Heq.
Qed.

(** C9, amended. [reset()] makes on the evaluation of the model the update
    that [stop()] makes (the run marked not running, its results dropped,
    every image wiped back to pending) and sets the current index and the
    progress to 0; it throws when [stop()] throws. Unlike [stop()], which
    sets the cancellation flag of the model, it leaves the flags as they
    are. *)
Theorem resetEvaluation_effect (modelId : JS.str) (st : Orchestrator.HookState) :
  let stopped := Orchestrator.stopEvaluation modelId st in
  let reset := Orchestrator.resetEvaluation modelId st in
  reset.2 = stopped.2
  ∧ Orchestrator.modelEvaluations reset.1
    = Orchestrator.modelEvaluations (Orchestrator.clearProgress modelId stopped.1)
  ∧ Orchestrator.stopFlags reset.1 = Orchestrator.stopFlags st
  ∧ Orchestrator.stopFlags stopped.1 = <[modelId := true]> (Orchestrator.stopFlags st)
  ∧ match Orchestrator.modelEvaluations st !! modelId,
          Orchestrator.modelEvaluations reset.1 !! modelId with
    | Some before, Some after =>
      Forall Orchestrator.wiped (Orchestrator.images after)
      ∧ length (Orchestrator.images after) = length (Orchestrator.images before)
      ∧ Orchestrator.isRunning after = false
      ∧ Orchestrator.results after = None
      ∧ Orchestrator.currentImageIndex after = 0
      ∧ Orchestrator.progress after = 0%Q
    | None, None => reset.2 = Some JS.TypeError
    | _, _ => False
    end.
Proof.
  intros stopped reset. subst stopped reset.
  unfold Orchestrator.resetEvaluation, Orchestrator.stopEvaluation,
    Orchestrator.clearProgress.
  destruct (Orchestrator.modelEvaluations st !! modelId) as [ev|] eqn:Hev;
    cbn [fst snd Orchestrator.stopFlags Orchestrator.modelEvaluations].
  - rewrite alter_insert_eq, lookup_insert_eq.
    cbn [Orchestrator.model Orchestrator.images Orchestrator.results
         Orchestrator.isRunning Orchestrator.currentImageIndex
         Orchestrator.progress Orchestrator.config].
    split_and!; try done.
    + apply Forall_fmap, Forall_true. intros img. by repeat split.
    + by rewrite length_fmap.
  - rewrite Hev. split_and!; try done.
    apply map_eq. intros i. rewrite lookup_alter.
    case_decide; [subst; by rewrite Hev|done].
Qed.

(** ** Run serializer: the import *)

Section ImportFacts.
Import JS Serializer.

Lemma indexOf_Some xs x i : indexOf xs x = Some i → xs !! i = Some x.
Proof.
  revert i. induction xs as [|y xs IH]; intros i; simpl; [done|].
  case_bool_decide as Hy.
  - intros [= <-]. by subst.
  - destruct (indexOf xs x) as [j|]; simpl; [|done].
    intros [= <-]. by apply IH.
Qed.

Lemma getField_agree headers fields1 fields2 (name : string) :
  js name ≠ js "Count Accuracy" → js name ≠ js "Class Accuracy" →
  (∀ i : nat,
     indexOf headers (js "Count Accuracy") ≠ Some i →
     indexOf headers (js "Class Accuracy") ≠ Some i →
     fields1 !! i = fields2 !! i) →
  getField headers fields1 name = getField headers fields2 name.
Proof.
  intros Hcount Hclass Hcells. unfold getField.
  destruct (indexOf headers (js name)) as [i|] eqn:Hi; [|done].
  apply indexOf_Some in Hi.
  rewrite Hcells; [done| |]; intros Hj%indexOf_Some; congruence.
Qed.

Lemma parseLine_agree headers line1 line2 :
  sameCellsExceptScores headers line1 line2 →
  parseLine headers line1 = parseLine headers line2.
Proof.
  intros (Hblank & Hlength & Hcells). unfold parseLine. cbv zeta.
  rewrite (bool_decide_ext _ _ Hblank), Hlength.
  repeat match goal with
         | |- context [getField headers (parseCSVRow (trim line1)) ?name] =>
           rewrite (getField_agree headers (parseCSVRow (trim line1))
                      (parseCSVRow (trim line2)) name)
             by first [exact Hcells | intros Hname; vm_compute in Hname; discriminate Hname]
         end.
  reflexivity.
Qed.

Lemma parseLines_agree headers lines1 lines2 :
  Forall2 (sameCellsExceptScores headers) lines1 lines2 →
  omap (parseLine headers) lines1 = omap (parseLine headers) lines2.
Proof.
  induction 1 as [|line1 line2 lines1 lines2 Hline _ IH]; [done|].
  cbn [omap list_omap]. rewrite (parseLine_agree _ _ _ Hline).
  change (list_omap _ _ (parseLine headers) lines1) with (omap (parseLine headers) lines1).
  change (list_omap _ _ (parseLine headers) lines2) with (omap (parseLine headers) lines2).
  by rewrite IH.
Qed.

Lemma parseLine_score headers line img :
  parseLine headers line = Some img →
  Imported.score img = scoreOfCells headers (parseCSVRow (trim line)).
Proof.
  unfold parseLine. cbv zeta. repeat case_bool_decide; try done.
  intros [= <-]. reflexivity.
Qed.

Lemma parseLine_usable headers line :
  parseLine headers line = None ↔ usableLine headers line = false.
Proof.
  unfold parseLine, usableLine. cbv zeta.
  repeat case_bool_decide; simpl; try done; try lia; try (split; [done|]; done).
Qed.

Lemma parseLine_importedFrom headers line img :
  parseLine headers line = Some img → importedFrom headers line img.
Proof.
  unfold parseLine. cbv zeta. repeat case_bool_decide; try done.
  intros [= <-]. unfold importedFrom. cbv zeta. by split_and!.
Qed.

(** The images come from the usable lines, one each, in order. *)
Lemma parseLines_importedFrom headers lines :
  Forall2 (importedFrom headers) (List.filter (usableLine headers) lines)
          (omap (parseLine headers) lines).
Proof.
  induction lines as [|line lines IH]; [constructor|].
  cbn [omap list_omap List.filter].
  change (list_omap _ _ (parseLine headers) lines) with (omap (parseLine headers) lines).
  destruct (parseLine headers line) as [img|] eqn:Hline.
  - destruct (usableLine headers line) eqn:Huse.
    + constructor; [by apply parseLine_importedFrom|exact IH].
    + apply parseLine_usable in Huse. congruence.
  - apply parseLine_usable in Hline. rewrite Hline. exact IH.
Qed.

End ImportFacts.

(** C6. Every data line that is not blank and has a cell for every header
    gives one image, in the order of the lines, and no other line gives
    one; the score of each image is the one that [calculateImageScore]
    gives for the Actual Objects, Actual Classes, Predicted Objects and
    Predicted Classes cells of its own line, the counts and classes that
    the image carries. Two CSV texts that differ only in Count Accuracy and
    Class Accuracy cells import alike: the same images with the same
    scores, or the same error. *)
Theorem import_recomputes_scores (csv1 csv2 : JS.str) :
  Serializer.sameExceptScores csv1 csv2 →
  Serializer.parseCSVToEvaluationData csv1 = Serializer.parseCSVToEvaluationData csv2
  ∧ ∀ imgs,
      Serializer.parseCSVToEvaluationData csv1 = JS.Return imgs →
      Forall2 (Serializer.importedFrom (Serializer.headersOf csv1))
        (List.filter (Serializer.usableLine (Serializer.headersOf csv1))
                     (drop 1 (JS.split JS.LF (JS.trim csv1))))
        imgs.
Proof.
  intros [Hhead Hlines]. split.
  - unfold Serializer.parseCSVToEvaluationData. cbv zeta.
    assert (length (JS.split JS.LF (JS.trim csv1)) = length (JS.split JS.LF (JS.trim csv2)))
      as Hlength.
    { apply Forall2_length in Hlines. rewrite !length_drop in Hlines.
      destruct (JS.split JS.LF (JS.trim csv1)) as [|h1 t1],
               (JS.split JS.LF (JS.trim csv2)) as [|h2 t2];
        simpl in *; try done; lia. }
    rewrite Hlength, <- Hhead.
    fold (Serializer.headersOf csv1).
    by rewrite (parseLines_agree _ _ _ Hlines).
  - intros imgs Himgs. unfold Serializer.parseCSVToEvaluationData in Himgs.
    cbv zeta in Himgs. fold (Serializer.headersOf csv1) in Himgs.
    repeat case_match; try done.
    injection Himgs as <-. apply parseLines_importedFrom.
Qed.

Lemma import_recomputes_scores_witness :
  Serializer.parseCSVToEvaluationData Serializer.exampleCSV
  = Serializer.parseCSVToEvaluationData Serializer.tamperedCSV.
Proof.
  apply (import_recomputes_scores Serializer.exampleCSV Serializer.tamperedCSV).
  split; [vm_compute; reflexivity|].
  replace (drop 1 (JS.split JS.LF (JS.trim Serializer.exampleCSV)))
    with [Serializer.quoteRow (Serializer.row Serializer.exampleImage)]
    by (vm_compute; reflexivity).
  replace (drop 1 (JS.split JS.LF (JS.trim Serializer.tamperedCSV)))
    with [Serializer.quoteRow
            (<[9%nat := JS.js "100.0%"]>
               (<[10%nat := JS.js "0.0%"]> (Serializer.row Serializer.exampleImage)))]
    by (vm_compute; reflexivity).
  constructor; [|constructor]. split_and!.
  - split; intros Hblank; vm_compute in Hblank; discriminate Hblank.
  - vm_compute. reflexivity.
  - intros i Hcount Hclass.
    do 19 (destruct i as [|i];
           [first [ vm_compute; reflexivity
                  | exfalso; apply Hcount; vm_compute; reflexivity
                  | exfalso; apply Hclass; vm_compute; reflexivity ]|]).
    vm_compute. reflexivity.
Defined.

(** ** Run serializer: the round trip *)

Section StringFacts.
Import JS.

Lemma dropWhile_head {A} (f : A → bool) (x : A) (xs : list A) :
  f x = false → dropWhile f (x :: xs) = x :: xs.
Proof. intros Hx. simpl. by rewrite Hx. Qed.

Lemma trim_between (first last : N) (middle : str) :
  isWhiteSpace first = false → isWhiteSpace last = false →
  trim (first :: middle ++ [last]) = first :: middle ++ [last].
Proof.
  intros Hfirst Hlast. unfold trim, trimStart, trimEnd.
  rewrite dropWhile_head by done.
  rewrite reverse_cons, reverse_app, reverse_singleton. simpl.
  rewrite Hlast. rewrite reverse_cons, reverse_app, !reverse_involutive.
  by rewrite <- !app_assoc.
Qed.

Lemma trim_no_space (s : str) :
  Forall (λ c, isWhiteSpace c = false) s → trim s = s.
Proof.
  intros Hs. destruct s as [|c s]; [done|].
  destruct (reverse s) as [|d r] eqn:Hrev.
  - apply (f_equal reverse) in Hrev. rewrite reverse_involutive in Hrev. subst s.
    apply Forall_cons in Hs as [Hc _]. unfold trim, trimStart, trimEnd.
    change (reverse []) with (@nil N). rewrite dropWhile_head by done.
    rewrite reverse_singleton, dropWhile_head by done. apply reverse_singleton.
  - apply (f_equal reverse) in Hrev. rewrite reverse_involutive, reverse_cons in Hrev.
    subst s. apply Forall_cons in Hs as [Hc Hs].
    apply Forall_app in Hs as [_ Hd]. rewrite Forall_singleton in Hd.
    by apply trim_between.
Qed.

Lemma split_aux_app (sep : N) (current x rest : str) :
  sep ∉ x → split_aux sep current (x ++ rest) = split_aux sep (current ++ x) rest.
Proof.
  revert current. induction x as [|c x IH]; intros current Hx; simpl.
  - by rewrite app_nil_r.
  - apply not_elem_of_cons in Hx as [Hc Hx].
    rewrite (proj2 (N.eqb_neq c sep)) by done.
    rewrite IH by done. by rewrite <- app_assoc.
Qed.

Lemma join_cons (sep x : str) (rest : list str) :
  rest ≠ [] → join sep (x :: rest) = x ++ sep ++ join sep rest.
Proof. by destruct rest. Qed.

Lemma split_aux_join (sep : N) (current x : str) (xs : list str) :
  Forall (λ x, sep ∉ x) (x :: xs) →
  split_aux sep current (join [sep] (x :: xs)) = (current ++ x) :: xs.
Proof.
  revert current x. induction xs as [|y ys IH]; intros current x Hall.
  - apply Forall_cons in Hall as [Hx _]. simpl.
    rewrite <- (app_nil_r x) at 1. rewrite split_aux_app by done. done.
  - apply Forall_cons in Hall as [Hx Hall].
    rewrite join_cons by done. rewrite split_aux_app by done.
    cbn [app split_aux]. rewrite N.eqb_refl. f_equal.
    by rewrite IH.
Qed.

Lemma split_join (sep : N) (xs : list str) :
  xs ≠ [] → Forall (λ x, sep ∉ x) xs → split sep (join [sep] xs) = xs.
Proof.
  intros Hne Hall. destruct xs as [|x xs]; [done|].
  unfold split. by rewrite split_aux_join.
Qed.

End StringFacts.

Section RowFacts.
Import JS Serializer.

Lemma loop_open fields current rest :
  parseCSVRow_loop fields current false (DQUOTE :: rest)
  = parseCSVRow_loop fields current true rest.
Proof. cbn [parseCSVRow_loop]. rewrite N.eqb_refl. by destruct rest. Qed.

Lemma loop_inside fields current cell tail :
  DQUOTE ∉ cell → head tail ≠ Some DQUOTE →
  parseCSVRow_loop fields current true (cell ++ DQUOTE :: tail)
  = parseCSVRow_loop fields (current ++ cell) false tail.
Proof.
  revert current. induction cell as [|c cell IH]; intros current Hcell Htail.
  - rewrite app_nil_r. cbn [app parseCSVRow_loop]. rewrite N.eqb_refl.
    destruct tail as [|next rest]; [done|].
    rewrite (proj2 (N.eqb_neq next DQUOTE)); [done|].
    intros ->. by apply Htail.
  - apply not_elem_of_cons in Hcell as [Hc Hcell].
    cbn [app parseCSVRow_loop].
    rewrite (proj2 (N.eqb_neq c DQUOTE)) by done.
    rewrite andb_false_r. rewrite IH by done. by rewrite <- app_assoc.
Qed.

Lemma loop_quoted_cell fields cell rest :
  DQUOTE ∉ cell →
  parseCSVRow_loop fields [] false (quoteCell cell ++ COMMA :: rest)
  = parseCSVRow_loop (fields ++ [trim cell]) [] false rest.
Proof.
  intros Hcell. unfold quoteCell. rewrite <- !app_assoc. cbn [app].
  rewrite loop_open, loop_inside by done. reflexivity.
Qed.

Lemma loop_no_comma (n : nat) fields current inQuotes row :
  (length row ≤ n)%nat → COMMA ∉ row →
  ∃ last, parseCSVRow_loop fields current inQuotes row = fields ++ [last].
Proof.
  revert fields current inQuotes row.
  induction n as [|n IH]; intros fields current inQuotes row Hlen Hrow.
  - destruct row; [|simpl in Hlen; lia]. by eexists.
  - destruct row as [|char rest]; [by eexists|].
    apply not_elem_of_cons in Hrow as [Hchar Hrest]. simpl in Hlen.
    cbn [parseCSVRow_loop].
    rewrite (proj2 (N.eqb_neq char COMMA)) by done. rewrite andb_false_l.
    destruct (char =? DQUOTE)%N.
    + destruct rest as [|next rest']; [by eexists|].
      destruct (inQuotes && (next =? DQUOTE)%N).
      * apply IH; [simpl in Hlen; lia|]. by apply not_elem_of_cons in Hrest as [_ ?].
      * apply IH; [lia|done].
    + apply IH; [lia|done].
Qed.

Lemma parseCSVRow_loop_quoted fields cells lastCell :
  Forall (λ cell, DQUOTE ∉ cell) cells → COMMA ∉ lastCell →
  ∃ last, parseCSVRow_loop fields [] false (quoteRow (cells ++ [lastCell]))
          = fields ++ (trim <$> cells) ++ [last].
Proof.
  revert fields. induction cells as [|cell cells IH]; intros fields Hcells Hlast.
  - change (quoteRow ([] ++ [lastCell])) with (quoteCell lastCell).
    apply (loop_no_comma (length (quoteCell lastCell))); [done|].
    unfold quoteCell.
    rewrite !not_elem_of_app, list_elem_of_singleton. done.
  - apply Forall_cons in Hcells as [Hcell Hcells].
    unfold quoteRow. cbn [app fmap list_fmap].
    rewrite join_cons by (by destruct cells).
    cbn [app]. rewrite loop_quoted_cell by done.
    destruct (IH (fields ++ [trim cell]) Hcells Hlast) as [last Hloop].
    exists last. unfold quoteRow in Hloop. rewrite Hloop.
    by rewrite <- app_assoc.
Qed.

Lemma parseCSVRow_quoted cells lastCell :
  Forall (λ cell, DQUOTE ∉ cell) cells → COMMA ∉ lastCell →
  ∃ last, parseCSVRow (quoteRow (cells ++ [lastCell])) = (trim <$> cells) ++ [last].
Proof. apply (parseCSVRow_loop_quoted []). Qed.

End RowFacts.

Section NumberFacts.
Import JS Serializer.

Lemma isDigit_true c : digitChar c → isDigit c = true.
Proof.
  intros [Hlo Hhi]. unfold isDigit.
  apply andb_true_iff. split; by apply N.leb_le.
Qed.

Lemma lastDigit_spec n acc :
  (n < 10)%N →
  ∃ ds, (48 + n mod 10)%N :: acc = ds ++ acc ∧ ds ≠ [] ∧ Forall digitChar ds
        ∧ decimalValue ds = Z.of_N n.
Proof.
  intros Hn. exists [(48 + n)%N]. rewrite N.mod_small by done. split_and!; try done.
  - apply Forall_singleton. unfold digitChar. lia.
  - unfold decimalValue, digitValue. simpl. lia.
Qed.

Lemma digitsOf_spec fuel n acc :
  (n < 10 ^ N.of_nat (S fuel))%N →
  ∃ ds, digitsOf fuel n acc = ds ++ acc ∧ ds ≠ [] ∧ Forall digitChar ds
        ∧ decimalValue ds = Z.of_N n.
Proof.
  revert n acc. induction fuel as [|fuel IH]; intros n acc Hn.
  - by apply lastDigit_spec.
  - cbn [digitsOf]. destruct (n <? 10)%N eqn:Hsmall.
    + apply N.ltb_lt in Hsmall. by apply lastDigit_spec.
    + apply N.ltb_ge in Hsmall.
      assert (n / 10 < 10 ^ N.of_nat (S fuel))%N as Hdiv.
      { apply N.Div0.div_lt_upper_bound.
        rewrite <- N.pow_succ_r'. by rewrite <- Nat2N.inj_succ. }
      destruct (IH (n / 10)%N ((48 + n mod 10)%N :: acc) Hdiv)
        as (ds & -> & Hne & Hds & Hval).
      exists (ds ++ [(48 + n mod 10)%N]). split_and!.
      * by rewrite <- app_assoc.
      * by destruct ds.
      * apply Forall_app. split; [done|]. apply Forall_singleton.
        unfold digitChar. pose proof (N.mod_lt n 10) as Hmod.
        generalize dependent (n mod 10)%N. intros. lia.
      * unfold decimalValue in *. rewrite foldl_app, Hval. simpl.
        unfold digitValue. pose proof (N.div_mod' n 10) as Hdm.
        pose proof (N.mod_lt n 10) as Hmod. clear Hval Hdiv.
        generalize dependent (n mod 10)%N. generalize dependent (n / 10)%N.
        intros. lia.
Qed.

Lemma digits_spec n :
  ∃ ds, digits n = ds ∧ ds ≠ [] ∧ Forall digitChar ds ∧ decimalValue ds = Z.of_N n.
Proof.
  unfold digits.
  destruct (digitsOf_spec (N.to_nat (N.log2 n)) n []) as (ds & Hds & Hrest).
  - rewrite Nat2N.inj_succ, N2Nat.id.
    destruct (N.eq_dec n 0%N) as [->|Hn]; [done|].
    apply N.lt_le_trans with (2 ^ N.succ (N.log2 n))%N.
    + apply N.log2_spec. lia.
    + apply N.pow_le_mono_l. lia.
  - exists ds. by rewrite Hds, app_nil_r.
Qed.

Lemma takeWhile_all {A} (f : A → bool) (xs : list A) :
  Forall (λ x, f x = true) xs → takeWhile f xs = xs.
Proof. induction 1 as [|x xs Hx _ IH]; simpl; [done|]. by rewrite Hx, IH. Qed.

Lemma radixDigit_decimal c : digitChar c → radixDigit 10 c = Some (digitValue c).
Proof.
  intros Hc. unfold radixDigit. rewrite isDigit_true by done. simpl.
  destruct (digitValue c <? 10) eqn:Hlt; [done|].
  apply Z.ltb_ge in Hlt. unfold digitValue, digitChar in *. lia.
Qed.

Lemma radixValue_decimal ds : Forall digitChar ds → radixValue 10 ds = decimalValue ds.
Proof.
  intros Hds. unfold radixValue, decimalValue.
  assert (∀ acc, foldl (λ acc c, 10 * acc + default 0 (radixDigit 10 c)) acc ds
                 = foldl (λ acc c, 10 * acc + digitValue c) acc ds) as Hfold; [|done].
  induction Hds as [|c ds Hc _ IH]; intros acc; simpl; [done|].
  by rewrite radixDigit_decimal, IH.
Qed.

Lemma digitChar_not_space c : digitChar c → isWhiteSpace c = false.
Proof.
  intros [Hlo Hhi]. unfold isWhiteSpace.
  apply orb_false_iff. split.
  - apply bool_decide_eq_false. rewrite !elem_of_cons, elem_of_nil. lia.
  - apply andb_false_iff. left. apply N.leb_gt. lia.
Qed.

Lemma parseInt_unsigned ds :
  ds ≠ [] → Forall digitChar ds → parseInt ds = Some (decimalValue ds).
Proof.
  intros Hne Hds. unfold parseInt, trimStart.
  destruct ds as [|c ds]; [done|].
  pose proof Hds as Hall. apply Forall_cons in Hds as [Hc Hds].
  rewrite dropWhile_head by (by apply digitChar_not_space).
  rewrite (proj2 (N.eqb_neq c 45)), (proj2 (N.eqb_neq c 43)) by (unfold digitChar in Hc; lia).
  assert (takeWhile (isRadixDigit 10) (c :: ds) = c :: ds) as Htake.
  { apply takeWhile_all. eapply Forall_impl; [exact Hall|].
    intros d Hd. unfold isRadixDigit. apply bool_decide_eq_true.
    rewrite radixDigit_decimal by done. by eexists. }
  destruct ds as [|x ds'].
  - rewrite Htake, radixValue_decimal by done. f_equal; lia.
  - apply Forall_cons in Hds as [Hx _].
    rewrite (proj2 (N.eqb_neq x 120)), (proj2 (N.eqb_neq x 88))
      by (unfold digitChar in Hx; lia).
    rewrite andb_false_r. rewrite Htake, radixValue_decimal by done. f_equal; lia.
Qed.

Lemma parseInt_negative ds :
  ds ≠ [] → Forall digitChar ds → parseInt (45%N :: ds) = Some (- decimalValue ds).
Proof.
  intros Hne Hds. unfold parseInt, trimStart.
  rewrite dropWhile_head by (by vm_compute). rewrite N.eqb_refl.
  assert (takeWhile (isRadixDigit 10) ds = ds) as Htake.
  { apply takeWhile_all. eapply Forall_impl; [exact Hds|].
    intros d Hd. unfold isRadixDigit. apply bool_decide_eq_true.
    rewrite radixDigit_decimal by done. by eexists. }
  destruct ds as [|c [|x ds']]; [done| |].
  - rewrite Htake, radixValue_decimal by done. f_equal; lia.
  - pose proof Hds as Hall. apply Forall_cons in Hds as [_ Hds].
    apply Forall_cons in Hds as [Hx _].
    rewrite (proj2 (N.eqb_neq x 120)), (proj2 (N.eqb_neq x 88))
      by (unfold digitChar in Hx; lia).
    rewrite andb_false_r. rewrite Htake, radixValue_decimal by done. f_equal; lia.
Qed.

Lemma NumberToString_chars z : NumberToString z ≠ [] ∧ Forall numeralChar (NumberToString z).
Proof.
  unfold NumberToString.
  destruct (digits_spec (Z.abs_N z)) as (ds & -> & Hne & Hds & _).
  assert (Forall numeralChar ds) by (eapply Forall_impl; [exact Hds|]; by left).
  destruct (z <? 0); split; try done.
  apply Forall_cons. split; [by right|done].
Qed.

Lemma parseInt_NumberToString z : parseInt (NumberToString z) = Some z.
Proof.
  unfold NumberToString.
  destruct (digits_spec (Z.abs_N z)) as (ds & -> & Hne & Hds & Hval).
  destruct (z <? 0) eqn:Hz.
  - apply Z.ltb_lt in Hz. rewrite parseInt_negative, Hval by done. f_equal; lia.
  - apply Z.ltb_ge in Hz. rewrite parseInt_unsigned, Hval by done. f_equal; lia.
Qed.

Lemma numeralChar_not_space c : numeralChar c → isWhiteSpace c = false.
Proof. intros [Hc| ->]; [by apply digitChar_not_space|by vm_compute]. Qed.

End NumberFacts.

Section CellFacts.
Import JS Serializer.

Lemma numeralChar_safe c : numeralChar c → safeChar c.
Proof. unfold numeralChar, digitChar, safeChar, DQUOTE, LF. lia. Qed.

Lemma digitChar_safe c : digitChar c → safeChar c.
Proof. intros Hc. apply numeralChar_safe. by left. Qed.

Lemma clean_app s t : clean s → clean t → clean (s ++ t).
Proof. intros Hs Ht. by apply Forall_app. Qed.

Lemma clean_join sep xs : clean sep → Forall clean xs → clean (join sep xs).
Proof.
  intros Hsep. induction 1 as [|x xs Hx Hxs IH]; [constructor|].
  destruct xs as [|y ys]; [done|].
  rewrite join_cons by done. by repeat apply clean_app.
Qed.

Lemma clean_NumberToString z : clean (NumberToString z).
Proof.
  destruct (NumberToString_chars z) as [_ Hchars].
  eapply Forall_impl; [exact Hchars|]. apply numeralChar_safe.
Qed.

Lemma clean_numbers (zs : list Z) : clean (join (js ";") (NumberToString <$> zs)).
Proof.
  apply clean_join; [compute_done|].
  apply Forall_fmap, Forall_true. intros z. apply clean_NumberToString.
Qed.

Lemma clean_numberOrEmpty n : clean (numberOrEmpty n).
Proof.
  destruct n as [z|]; simpl; [|constructor].
  case_bool_decide; [constructor|apply clean_NumberToString].
Qed.

Lemma clean_digits n : clean (digits n).
Proof.
  destruct (digits_spec n) as (ds & -> & _ & Hds & _).
  eapply Forall_impl; [exact Hds|]. apply digitChar_safe.
Qed.

Lemma clean_toFixed f x : clean (toFixed f x).
Proof.
  unfold toFixed. cbv zeta.
  set (ds := replicate _ 48%N ++ digits _).
  assert (clean ds) as Hds.
  { apply clean_app; [|apply clean_digits].
    apply Forall_replicate. by vm_compute. }
  repeat apply clean_app.
  - destruct (Qlt_le_dec x 0); [compute_done|constructor].
  - by apply Forall_take.
  - case_bool_decide; [constructor|].
    apply Forall_cons. split; [by vm_compute|]. by apply Forall_drop.
Qed.

Lemma clean_percent x : clean (percent x).
Proof. apply clean_app; [apply clean_toFixed|compute_done]. Qed.

Lemma clean_percentOf x : clean (percentOf x).
Proof. destruct x; [apply clean_percent|compute_done..]. Qed.

Lemma clean_statusName st : clean (Model.statusName st).
Proof. destruct st; compute_done. Qed.

Lemma notin_mjoin (x : N) (xss : list str) : Forall (λ xs, x ∉ xs) xss → x ∉ mjoin xss.
Proof.
  induction 1 as [|xs xss Hxs _ IH]; simpl; [apply not_elem_of_nil|].
  by apply not_elem_of_app.
Qed.

Lemma notin_replaceAll_same (c : N) (by_ s : str) : c ∉ by_ → c ∉ replaceAll c by_ s.
Proof.
  intros Hby. unfold replaceAll. apply notin_mjoin, Forall_fmap, Forall_forall.
  intros x _. simpl. destruct (x =? c)%N eqn:Hx; [done|].
  apply N.eqb_neq in Hx. apply not_elem_of_cons.
  split; [congruence|apply not_elem_of_nil].
Qed.

Lemma notin_replaceAll_other (x c : N) (by_ s : str) :
  x ∉ by_ → x ∉ s → x ∉ replaceAll c by_ s.
Proof.
  intros Hby Hs. unfold replaceAll. apply notin_mjoin, Forall_fmap, Forall_forall.
  intros y Hy. simpl. destruct (y =? c)%N; [done|].
  apply not_elem_of_cons. split; [|apply not_elem_of_nil].
  intros ->. done.
Qed.

Lemma notin_join (x : N) (sep : str) (xs : list str) :
  x ∉ sep → Forall (λ s, x ∉ s) xs → x ∉ join sep xs.
Proof.
  intros Hsep. induction 1 as [|s xs Hs Hxs IH]; [apply not_elem_of_nil|].
  destruct xs as [|y ys]; [done|].
  rewrite join_cons by done. rewrite !not_elem_of_app. done.
Qed.

Lemma clean_no_quote s : clean s → DQUOTE ∉ s.
Proof.
  intros Hs Hin. apply (proj1 (Forall_forall _ _) Hs) in Hin. by destruct Hin.
Qed.

Lemma clean_no_LF s : clean s → LF ∉ s.
Proof.
  intros Hs Hin. apply (proj1 (Forall_forall _ _) Hs) in Hin. by destruct Hin.
Qed.

End CellFacts.

Section RoundTripFacts.
Import JS Serializer.

Lemma quoted_join sep xs : xs ≠ [] → Forall quoted xs → quoted (join sep xs).
Proof.
  intros Hne Hall. induction Hall as [|x xs Hx Hxs IH]; [done|].
  destruct xs as [|y ys]; [done|].
  rewrite join_cons by done.
  destruct Hx as [m ->]. destruct IH as [m' ->]; [done|].
  exists (m ++ [DQUOTE] ++ sep ++ DQUOTE :: m').
  cbn [app]. f_equal. repeat (rewrite <- app_assoc; cbn [app]). reflexivity.
Qed.

Lemma quoted_quoteRow cells : cells ≠ [] → quoted (quoteRow cells).
Proof.
  intros Hne. apply quoted_join; [by destruct cells|].
  apply Forall_fmap, Forall_true. intros cell. by exists cell.
Qed.

Lemma trim_quoted s : quoted s → trim s = s.
Proof. intros [m ->]. apply trim_between; vm_compute; reflexivity. Qed.

Lemma quoted_nonempty s : quoted s → s ≠ [].
Proof. by intros [m ->]. Qed.

Lemma row_split img : row img = take 18 (row img) ++ [responseCell img].
Proof. reflexivity. Qed.

Lemma responseCell_no_comma img : COMMA ∉ responseCell img.
Proof.
  apply notin_replaceAll_same. compute_done.
Qed.

Lemma responseCell_no_LF img : LF ∉ responseCell img.
Proof.
  apply notin_replaceAll_other.
  - compute_done.
  - apply notin_replaceAll_same. compute_done.
Qed.

Lemma row_cells_clean img : wellFormedImage img → Forall clean (take 18 (row img)).
Proof.
  intros (_ & Hid & Hfile & Hsubset & Hnames & Hpnames & _).
  unfold row. cbn [take].
  repeat (apply Forall_cons; split); try apply Forall_nil;
    try done;
    try apply clean_NumberToString;
    try apply clean_numbers;
    try apply clean_numberOrEmpty;
    try apply clean_statusName;
    try (apply clean_join; [compute_done|done]).
  - destruct (Model.score img); [apply clean_percentOf|constructor].
  - destruct (Model.score img); [apply clean_percentOf|constructor].
  - destruct (Model.predictedCountConfidence img) as [c|]; [|constructor].
    destruct (Qeq_bool c 0); [constructor|apply clean_percent].
  - destruct (Model.predictedClassConfidences img) as [cs|]; [|constructor].
    apply clean_join; [compute_done|].
    apply Forall_fmap, Forall_true. intros c. apply clean_percent.
  - destruct (Model.cost img) as [c|]; [|constructor].
    destruct (Qeq_bool c 0); [constructor|].
    apply clean_app; [compute_done|apply clean_toFixed].
Qed.

Lemma line_no_LF img : wellFormedImage img → LF ∉ quoteRow (row img).
Proof.
  intros Hwf. unfold quoteRow. apply notin_join.
  - compute_done.
  - apply Forall_fmap. rewrite row_split. apply Forall_app. split.
    + eapply Forall_impl; [exact (row_cells_clean img Hwf)|].
      intros cell Hcell. simpl. unfold quoteCell.
      rewrite !not_elem_of_app, !list_elem_of_singleton.
      split_and!; [discriminate|by apply clean_no_LF|discriminate].
    + apply Forall_singleton. simpl. unfold quoteCell.
      rewrite !not_elem_of_app, !list_elem_of_singleton.
      split_and!; [discriminate|apply responseCell_no_LF|discriminate].
Qed.

Lemma parseCSVRow_line img :
  wellFormedImage img →
  ∃ last, parseCSVRow (quoteRow (row img)) = (trim <$> take 18 (row img)) ++ [last].
Proof.
  intros Hwf.
  change (quoteRow (row img)) with (quoteRow (take 18 (row img) ++ [responseCell img])).
  apply parseCSVRow_quoted.
  - eapply Forall_impl; [exact (row_cells_clean img Hwf)|]. apply clean_no_quote.
  - apply responseCell_no_comma.
Qed.

Lemma field_of_row img last (name : string) (i : nat) cell :
  indexOf headers (js name) = Some i → (i < 18)%nat → row img !! i = Some cell →
  getField headers ((trim <$> take 18 (row img)) ++ [last]) name = trim cell.
Proof.
  intros Hindex Hi Hcell. unfold getField. rewrite Hindex.
  rewrite lookup_app_l by (by rewrite length_fmap).
  rewrite list_lookup_fmap, lookup_take_lt by done. by rewrite Hcell.
Qed.

Lemma trim_NumberToString z : trim (NumberToString z) = NumberToString z.
Proof.
  apply trim_no_space. destruct (NumberToString_chars z) as [_ Hchars].
  eapply Forall_impl; [exact Hchars|]. apply numeralChar_not_space.
Qed.

Lemma parseIntOr0_cell z : parseIntOr0 (trim (NumberToString z)) = z.
Proof. unfold parseIntOr0. by rewrite trim_NumberToString, parseInt_NumberToString. Qed.

Lemma parseIntOr0_numberOrEmpty z : parseIntOr0 (trim (numberOrEmpty (Some z))) = z.
Proof.
  unfold numberOrEmpty. case_bool_decide as Hz; [by subst|]. apply parseIntOr0_cell.
Qed.

Lemma omap_parseInt (zs : list Z) : omap (λ c, parseInt (trim c)) (NumberToString <$> zs) = zs.
Proof.
  induction zs as [|z zs IH]; [done|].
  cbn [fmap list_fmap omap list_omap].
  rewrite trim_NumberToString, parseInt_NumberToString.
  change (list_omap _ _ ?f ?l) with (omap f l). by rewrite IH.
Qed.

Lemma parseClasses_cell (zs : list Z) :
  parseClasses (trim (join (js ";") (NumberToString <$> zs))) = zs.
Proof.
  destruct zs as [|z zs]; [done|].
  set (cells := NumberToString <$> z :: zs).
  assert (Forall (λ cell, Forall (λ c, numeralChar c) cell) cells) as Hcells.
  { apply Forall_fmap, Forall_true. intros x. apply NumberToString_chars. }
  assert (trim (join (js ";") cells) = join (js ";") cells) as ->.
  { apply trim_no_space.
    assert (∀ xs, Forall (λ cell, Forall (λ c, isWhiteSpace c = false) cell) xs →
                  Forall (λ c, isWhiteSpace c = false) (join (js ";") xs)) as Hjoin.
    { induction 1 as [|x xs Hx Hxs IH]; [constructor|].
      destruct xs as [|y ys]; [done|]. rewrite join_cons by done.
      apply Forall_app. split; [done|]. apply Forall_app. split; [|done].
      by repeat constructor. }
    apply Hjoin. eapply Forall_impl; [exact Hcells|].
    intros cell Hcell. eapply Forall_impl; [exact Hcell|]. apply numeralChar_not_space. }
  unfold parseClasses. rewrite bool_decide_eq_true_2.
  - change (js ";") with [SEMICOLON]. rewrite split_join.
    + apply omap_parseInt.
    + done.
    + eapply Forall_impl; [exact Hcells|]. intros cell Hcell Hin.
      apply (proj1 (Forall_forall _ _) Hcell) in Hin.
      unfold numeralChar, digitChar, SEMICOLON in Hin. lia.
  - subst cells. cbn [fmap list_fmap]. destruct (NumberToString_chars z) as [Hne _].
    destruct zs as [|z' zs'].
    + done.
    + rewrite join_cons by done. by destruct (NumberToString z).
Qed.

Lemma parseLine_row img :
  wellFormedImage img →
  ∃ imported, parseLine headers (quoteRow (row img)) = Some imported
              ∧ preserved img imported.
Proof.
  intros Hwf.
  assert (quoted (quoteRow (row img))) as Hquoted by (by apply quoted_quoteRow).
  destruct (parseCSVRow_line img Hwf) as [last Hfields].
  destruct Hwf as (_ & _ & _ & _ & _ & _ & _ & _ & n & cs & Hn & _ & Hcs & _ & Hscore).
  unfold parseLine. cbv zeta.
  rewrite trim_quoted by done.
  rewrite bool_decide_eq_false_2 by (by apply quoted_nonempty).
  rewrite Hfields.
  rewrite bool_decide_eq_false_2
    by (rewrite length_app, length_fmap, length_take; cbn; lia).
  eexists. split; [reflexivity|].
  unfold preserved.
  cbn [Imported.actualClasses Imported.predictedClasses Imported.score].
  rewrite (field_of_row img last "Actual Classes" 4 _ eq_refl ltac:(lia) eq_refl).
  rewrite (field_of_row img last "Predicted Classes" 7 _ eq_refl ltac:(lia) eq_refl).
  rewrite (field_of_row img last "Actual Objects" 3 _ eq_refl ltac:(lia) eq_refl).
  rewrite (field_of_row img last "Predicted Objects" 6 _ eq_refl ltac:(lia) eq_refl).
  rewrite Hn, Hcs, Hscore. cbn [default].
  rewrite !parseClasses_cell, parseIntOr0_cell, parseIntOr0_numberOrEmpty.
  done.
Qed.

Lemma parseLines_rows images :
  Forall wellFormedImage images →
  ∃ imported, omap (parseLine headers) (quoteRow <$> (row <$> images)) = imported
              ∧ Forall2 preserved images imported.
Proof.
  induction 1 as [|img images Himg _ (imported & IH & Hall)].
  - by exists [].
  - destruct (parseLine_row img Himg) as (first & Hfirst & Hkept).
    exists (first :: imported). split; [|by constructor].
    cbn [fmap list_fmap omap list_omap]. rewrite Hfirst.
    change (list_omap _ _ ?f ?l) with (omap f l). by rewrite IH.
Qed.

End RoundTripFacts.

(** C5, as the claim states it, fails: the export of a run without images
    is the header line alone, which the import refuses. *)
Lemma roundtrip_empty_run_counterexample :
  Forall Serializer.wellFormedImage (Model.images (Serializer.runOf []))
  ∧ Serializer.parseCSVToEvaluationData (Serializer.exportToCSV (Serializer.runOf []))
    = JS.Throw (JS.Error "Invalid CSV format: insufficient data").
Proof. split; [constructor|]. vm_compute. reflexivity. Qed.

(** C5, amended. For every run with at least one image, all its images
    completed and their fields well formed, importing the export gives one
    image for each image of the run, in order, with the same actual and
    predicted class ids (the same sequences, hence the same multisets) and
    a recomputed score equal to the original one. *)
Theorem export_import_roundtrip (result : Model.EvaluationResult) :
  Model.images result ≠ [] →
  Forall Serializer.wellFormedImage (Model.images result) →
  ∃ imported,
    Serializer.parseCSVToEvaluationData (Serializer.exportToCSV result) = JS.Return imported
    ∧ Forall2 Serializer.preserved (Model.images result) imported.
Proof.
  intros Hne Hwf.
  destruct (parseLines_rows _ Hwf) as (imported & Himported & Hkept).
  exists imported. split; [|done].
  unfold Serializer.exportToCSV. cbv zeta.
  set (rows := Serializer.row <$> Model.images result) in *.
  change (Serializer.quoteRow <$> Serializer.headers :: rows)
    with (Serializer.quoteRow Serializer.headers :: (Serializer.quoteRow <$> rows)).
  set (lines := Serializer.quoteRow Serializer.headers :: (Serializer.quoteRow <$> rows)).
  assert (Forall Serializer.quoted lines) as Hquoted.
  { apply Forall_cons. split; [by apply quoted_quoteRow|].
    apply Forall_fmap, Forall_fmap, Forall_true. intros img. by apply quoted_quoteRow. }
  assert (Forall (λ line, JS.LF ∉ line) lines) as Hlines.
  { apply Forall_cons. split; [compute_done|].
    apply Forall_fmap, Forall_fmap.
    eapply Forall_impl; [exact Hwf|]. intros img. apply line_no_LF. }
  unfold Serializer.parseCSVToEvaluationData. cbv zeta.
  rewrite trim_quoted by (by apply quoted_join).
  rewrite split_join by done.
  rewrite bool_decide_eq_false_2.
  2:{ subst lines rows. cbn [length]. rewrite !length_fmap.
      destruct (Model.images result); [done|simpl; lia]. }
  change (default [] (lines !! 0%nat)) with (Serializer.quoteRow Serializer.headers).
  replace ((λ h, JS.trim (JS.replaceAll JS.DQUOTE [] h))
             <$> JS.split JS.COMMA (Serializer.quoteRow Serializer.headers))
    with Serializer.headers by (vm_compute; reflexivity).
  replace (forallb (JS.includes Serializer.headers) Serializer.requiredHeaders)
    with true by (vm_compute; reflexivity).
  cbn [negb]. change (drop 1 lines) with (Serializer.quoteRow <$> rows).
  by rewrite Himported.
Qed.

Lemma export_import_roundtrip_witness :
  ∃ imported,
    Serializer.parseCSVToEvaluationData
      (Serializer.exportToCSV (Serializer.runOf [Serializer.exampleImage]))
    = JS.Return imported
    ∧ Forall2 Serializer.preserved [Serializer.exampleImage] imported.
Proof.
  apply (export_import_roundtrip (Serializer.runOf [Serializer.exampleImage])).
  - discriminate.
  - apply Forall_singleton. unfold Serializer.wellFormedImage.
    repeat (split; [first [reflexivity | compute_done]|]).
    exists 2, [0; 1].
    repeat (split; [first [reflexivity | compute_done]|]).
    reflexivity.
Defined.

(** ** Scoring engine: symmetry and extreme scores *)

Section ScoringExtremes.
Import JS Scoring.
Context {K : Type} `{ClassId K}.
Implicit Types xs ys cs actual predicted : list K.

Lemma remove_dups_app_Permutation xs ys xs' ys' :
  xs ≡ₚ xs' → ys ≡ₚ ys' → remove_dups (xs ++ ys) ≡ₚ remove_dups (ys' ++ xs').
Proof.
  intros Hx Hy. apply NoDup_Permutation; [apply NoDup_remove_dups..|].
  intros x. rewrite !elem_of_remove_dups, !elem_of_app, Hx, Hy. tauto.
Qed.

Lemma sum_list_with_pointwise (f g : K → nat) cs :
  (∀ c, c ∈ cs → f c = g c) → sum_list_with f cs = sum_list_with g cs.
Proof.
  induction cs as [|c cs IH]; intros Hfg; [done|]. simpl.
  rewrite (Hfg c) by left. rewrite IH; [done|]. intros d Hd. apply Hfg. by right.
Qed.

Lemma correctOf_Permutation actual predicted actual' predicted' :
  actual ≡ₚ actual' → predicted ≡ₚ predicted' →
  correctOf actual predicted = correctOf predicted' actual'.
Proof.
  intros Ha Hp. unfold correctOf.
  rewrite (remove_dups_app_Permutation _ _ _ _ Ha Hp).
  apply sum_list_with_pointwise. intros c _.
  rewrite (occ_Permutation c _ _ Ha), (occ_Permutation c _ _ Hp). apply Nat.min_comm.
Qed.

Lemma correctOf_comm actual predicted :
  correctOf actual predicted = correctOf predicted actual.
Proof. by apply correctOf_Permutation. Qed.

Lemma classAccuracy_spec_comm actual predicted :
  classAccuracy_spec actual predicted = classAccuracy_spec predicted actual.
Proof.
  unfold classAccuracy_spec.
  destruct actual as [|a actual], predicted as [|p predicted]; try reflexivity.
  rewrite (correctOf_comm (a :: actual)), (Nat.max_comm (length (a :: actual))),
    (Nat.min_comm (length (a :: actual))).
  repeat case_decide; try reflexivity; exfalso; eauto using Permutation_sym.
Qed.

Lemma classAccuracy_spec_Permutation actual predicted actual' predicted' :
  actual ≡ₚ actual' → predicted ≡ₚ predicted' →
  classAccuracy_spec actual predicted = classAccuracy_spec actual' predicted'.
Proof.
  intros Ha Hp. unfold classAccuracy_spec.
  pose proof (Permutation_length Ha) as Hla. pose proof (Permutation_length Hp) as Hlp.
  rewrite (correctOf_Permutation _ _ _ _ Ha Hp), (correctOf_comm predicted').
  destruct actual as [|a actual], actual' as [|a' actual']; try discriminate Hla;
    destruct predicted as [|p predicted], predicted' as [|p' predicted'];
    try discriminate Hlp; try reflexivity.
  rewrite Hla, Hlp.
  repeat case_decide; try reflexivity; exfalso;
    match goal with
    | Hn : ¬ _ |- _ => apply Hn; first [by rewrite <- Ha, <- Hp | by rewrite Ha, Hp]
    end.
Qed.

(** Multiplicities tell a multiset. *)
Lemma occ_elem_of c xs : (0 < occ c xs)%nat ↔ c ∈ xs.
Proof.
  induction xs as [|x xs IH]; [unfold occ; simpl; rewrite elem_of_nil; lia|].
  rewrite occ_cons, elem_of_cons. destruct (decide (x = c)) as [->|Hne].
  - split; [auto|lia].
  - rewrite <- IH. split; [intros; right; lia|intros [->|?]; [done|lia]].
Qed.

Lemma occ_Permutation_inv xs ys : (∀ c, occ c xs = occ c ys) → xs ≡ₚ ys.
Proof.
  revert ys. induction xs as [|x xs IH]; intros ys Hocc.
  - destruct ys as [|y ys]; [done|]. specialize (Hocc y).
    rewrite occ_cons, decide_True in Hocc by done. unfold occ in Hocc. simpl in Hocc. lia.
  - assert (x ∈ ys) as Hx.
    { apply occ_elem_of. rewrite <- Hocc, occ_cons, decide_True by done. lia. }
    apply elem_of_Permutation in Hx as [ys' Hys]. rewrite Hys. constructor.
    apply IH. intros c. specialize (Hocc c).
    rewrite (occ_Permutation c _ _ Hys), !occ_cons in Hocc. lia.
Qed.

Lemma sum_list_with_squeeze (f g : K → nat) cs :
  (∀ c, f c ≤ g c)%nat → sum_list_with f cs = sum_list_with g cs →
  ∀ c, c ∈ cs → f c = g c.
Proof.
  intros Hle. induction cs as [|d cs IH]; intros Hsum c Hc; [by apply elem_of_nil in Hc|].
  simpl in Hsum.
  assert (sum_list_with f cs ≤ sum_list_with g cs)%nat as Hrest.
  { clear -Hle. induction cs as [|e cs IH]; simpl; [lia|]. specialize (Hle e). lia. }
  pose proof (Hle d). apply elem_of_cons in Hc as [->|Hc]; [lia|].
  apply IH; [lia|done].
Qed.

Lemma correctOf_full actual predicted :
  correctOf actual predicted = length actual → length actual = length predicted →
  actual ≡ₚ predicted.
Proof.
  intros Hcorrect Hlen. apply occ_Permutation_inv. intros c.
  set (cs := remove_dups (actual ++ predicted)).
  pose proof (NoDup_remove_dups (actual ++ predicted)) as Hnd.
  assert (∀ x, x ∈ actual → x ∈ cs) as Ha.
  { intros x ?. unfold cs. rewrite elem_of_remove_dups, elem_of_app. auto. }
  assert (∀ x, x ∈ predicted → x ∈ cs) as Hp.
  { intros x ?. unfold cs. rewrite elem_of_remove_dups, elem_of_app. auto. }
  destruct (decide (c ∈ cs)) as [Hc|Hc].
  - unfold correctOf in Hcorrect. fold cs in Hcorrect.
    pose proof (sum_list_with_squeeze
                  (λ c, Nat.min (occ c actual) (occ c predicted)) (λ c, occ c actual) cs
                  ltac:(intros; simpl; lia)
                  ltac:(by rewrite Hcorrect, (sum_occ actual cs Hnd Ha)) c Hc) as H1.
    pose proof (sum_list_with_squeeze
                  (λ c, Nat.min (occ c actual) (occ c predicted)) (λ c, occ c predicted) cs
                  ltac:(intros; simpl; lia)
                  ltac:(by rewrite Hcorrect, (sum_occ predicted cs Hnd Hp)) c Hc) as H2.
    simpl in H1, H2. lia.
  - assert (¬ (0 < occ c actual)%nat) by (rewrite occ_elem_of; auto).
    assert (¬ (0 < occ c predicted)%nat) by (rewrite occ_elem_of; auto).
    lia.
Qed.

Lemma correctOf_zero actual predicted :
  correctOf actual predicted = 0%nat ↔ ∀ c, c ∈ actual → c ∉ predicted.
Proof.
  unfold correctOf. set (cs := remove_dups (actual ++ predicted)).
  assert (∀ x, x ∈ actual → x ∈ cs) as Ha.
  { intros x ?. unfold cs. rewrite elem_of_remove_dups, elem_of_app. auto. }
  split.
  - intros Hsum c Hc Hp.
    pose proof (sum_list_with_in c (λ c, Nat.min (occ c actual) (occ c predicted)) cs (Ha c Hc))
      as Hle.
    simpl in Hle. apply occ_elem_of in Hc, Hp. lia.
  - intros Hdisjoint. clearbody cs. clear Ha.
    induction cs as [|c cs IH]; [done|]. simpl. rewrite IH.
    destruct (decide (c ∈ actual)) as [Hc|Hc].
    + assert (¬ (0 < occ c predicted)%nat) by (rewrite occ_elem_of; auto). lia.
    + assert (¬ (0 < occ c actual)%nat) by (rewrite occ_elem_of; auto). lia.
Qed.

Lemma ratio_eq_1 n d : (0 < d)%nat → (ratio n d == 1)%Q ↔ n = d.
Proof.
  intros Hd. unfold ratio.
  assert (¬ (inject_Z (Z.of_nat d) == 0)%Q) as Hnz.
  { unfold Qeq. simpl. lia. }
  split.
  - intros Heq.
    assert (inject_Z (Z.of_nat n) == inject_Z (Z.of_nat d))%Q as Hnd.
    { rewrite <- (Qmult_div_r (inject_Z (Z.of_nat n)) (inject_Z (Z.of_nat d))) by done.
      rewrite Heq. apply Qmult_1_r. }
    unfold Qeq in Hnd. simpl in Hnd. lia.
  - intros ->. by apply Qmult_inv_r.
Qed.

Lemma ratio_eq_0 n d : (0 < d)%nat → (ratio n d == 0)%Q ↔ n = 0%nat.
Proof.
  intros Hd. unfold ratio.
  assert (¬ (inject_Z (Z.of_nat d) == 0)%Q) as Hnz.
  { unfold Qeq. simpl. lia. }
  split.
  - intros Heq.
    assert (inject_Z (Z.of_nat n) == 0)%Q as Hn.
    { rewrite <- (Qmult_div_r (inject_Z (Z.of_nat n)) (inject_Z (Z.of_nat d))) by done.
      rewrite Heq. apply Qmult_0_r. }
    unfold Qeq in Hn. simpl in Hn. lia.
  - intros ->. unfold Qdiv. apply Qmult_0_l.
Qed.

Lemma ratio_lt_1 n d : (n < d)%nat → (ratio n d < 1)%Q.
Proof.
  intros Hn. unfold ratio. apply Qlt_shift_div_r.
  - change 0%Q with (inject_Z 0). rewrite <- Zlt_Qlt. lia.
  - rewrite Qmult_1_l. rewrite <- Zlt_Qlt. lia.
Qed.

Lemma strictEq_Num x y : strictEq (Num x) (Num y) = true ↔ (x == y)%Q.
Proof. apply Qeq_bool_iff. Qed.

Lemma perfect_iff actual predicted :
  strictEq (classAccuracy_spec actual predicted) (Num 1) = true ↔ actual ≡ₚ predicted.
Proof.
  unfold classAccuracy_spec.
  destruct actual as [|a actual], predicted as [|p predicted].
  - done.
  - split; [done|]. by intros ?%Permutation_nil_l.
  - split; [done|]. by intros ?%Permutation_nil_r.
  - set (A := a :: actual). set (P := p :: predicted).
    assert (0 < length A)%nat by (subst A; simpl; lia).
    assert (0 < length P)%nat by (subst P; simpl; lia).
    pose proof (correctOf_le A P) as Hc.
    case_decide as Hperm; [done|]. split; [|done]. intros Hone. exfalso.
    case_decide as Hlen.
    + apply strictEq_Num, ratio_eq_1 in Hone; [|lia].
      apply Hperm, correctOf_full; [lia|done].
    + apply strictEq_Num in Hone.
      destruct (ratio_unit (correctOf A P) (Nat.max (length A) (length P))) as [Hb0 Hb1];
        [lia..|].
      destruct (ratio_unit (Nat.min (length A) (length P)) (Nat.max (length A) (length P)))
        as [Hl0 Hl1]; [lia..|].
      pose proof (ratio_lt_1 (Nat.min (length A) (length P)) (Nat.max (length A) (length P))
                    ltac:(lia)) as Hlt.
      apply (Qlt_irrefl 1). rewrite <- Hone at 1.
      eapply Qle_lt_trans; [|exact Hlt].
      rewrite <- (Qmult_1_l (ratio (Nat.min _ _) _)) at 2.
      by apply Qmult_le_compat_r.
Qed.

Lemma zero_iff actual predicted :
  strictEq (classAccuracy_spec actual predicted) (Num 0) = true
  ↔ (actual ≠ [] ∨ predicted ≠ []) ∧ ∀ c, c ∈ actual → c ∉ predicted.
Proof.
  unfold classAccuracy_spec.
  destruct actual as [|a actual], predicted as [|p predicted].
  - split; [done|]. by intros [[?|?] _].
  - split; [|done]. intros _. split; [by right|]. by intros c ?%elem_of_nil.
  - split; [|done]. intros _. split; [by left|]. intros c _. apply not_elem_of_nil.
  - set (A := a :: actual). set (P := p :: predicted).
    assert (0 < length A)%nat by (subst A; simpl; lia).
    assert (0 < length P)%nat by (subst P; simpl; lia).
    rewrite <- correctOf_zero.
    assert (A ≡ₚ P → correctOf A P ≠ 0%nat) as Hsame.
    { intros Hperm Hzero. rewrite correctOf_zero in Hzero.
      apply (Hzero a); [by left|]. rewrite <- Hperm. by left. }
    case_decide as Hperm.
    { split; [done|]. intros [_ Hzero]. by apply Hsame in Hzero. }
    case_decide as Hlen.
    + rewrite strictEq_Num, ratio_eq_0 by lia. split; [|tauto]. intros ?. split; [by left|done].
    + rewrite strictEq_Num. split.
      * intros [Hzero|Hzero]%Qmult_integral.
        -- apply ratio_eq_0 in Hzero; [|lia]. split; [by left|done].
        -- apply ratio_eq_0 in Hzero; lia.
      * intros [_ Hzero].
        assert (ratio (correctOf A P) (Nat.max (length A) (length P)) == 0)%Q as ->
          by (apply ratio_eq_0; [lia|done]).
        apply Qmult_0_l.
Qed.

End ScoringExtremes.

(** X1. The class accuracy does not tell the ground truth from the
    prediction: exchanging the two sequences leaves it unchanged. *)
Theorem calculateClassAccuracy_symmetric (actual predicted : list Z) :
  Scoring.calculateClassAccuracy actual predicted
  = Scoring.calculateClassAccuracy predicted actual.
Proof. rewrite !calculateClassAccuracy_refines. apply classAccuracy_spec_comm. Qed.

(** X2. The class accuracy depends on the two sequences as multisets only:
    listing the class ids of either in another order gives the same score. *)
Theorem calculateClassAccuracy_order_independent (actual actual' predicted predicted' : list Z) :
  actual ≡ₚ actual' → predicted ≡ₚ predicted' →
  Scoring.calculateClassAccuracy actual predicted
  = Scoring.calculateClassAccuracy actual' predicted'.
Proof.
  intros Ha Hp. rewrite !calculateClassAccuracy_refines.
  by apply classAccuracy_spec_Permutation.
Qed.

Lemma calculateClassAccuracy_order_independent_witness :
  Scoring.calculateClassAccuracy [0; 1; 1] [1; 0; 2]
  = Scoring.calculateClassAccuracy [1; 0; 1] [2; 1; 0].
Proof.
  apply (calculateClassAccuracy_order_independent [0; 1; 1] [1; 0; 1] [1; 0; 2] [2; 1; 0]).
  - apply perm_swap.
  - apply (Permutation_app_comm [1; 0] [2]).
Defined.

(** X3. The class accuracy is 1 exactly when the prediction holds the same
    class ids as the ground truth, each as many times, in whatever order. *)
Theorem calculateClassAccuracy_perfect_iff (actual predicted : list Z) :
  JS.strictEq (Scoring.calculateClassAccuracy actual predicted) (JS.Num 1) = true
  ↔ actual ≡ₚ predicted.
Proof. rewrite calculateClassAccuracy_refines. apply perfect_iff. Qed.

(** X4. The class accuracy is 0 exactly when the two sequences are not both
    empty and share no class id. *)
Theorem calculateClassAccuracy_zero_iff (actual predicted : list Z) :
  JS.strictEq (Scoring.calculateClassAccuracy actual predicted) (JS.Num 0) = true
  ↔ (actual ≠ [] ∨ predicted ≠ []) ∧ ∀ c, c ∈ actual → c ∉ predicted.
Proof. rewrite calculateClassAccuracy_refines. apply zero_iff. Qed.

Section CountExtremes.
Import JS Scoring.

Lemma Zratio_eq_1 (x y : Z) : y ≠ 0 → (inject_Z x / inject_Z y == 1)%Q ↔ x = y.
Proof.
  intros Hy.
  assert (¬ (inject_Z y == 0)%Q) as Hnz by (unfold Qeq; simpl; lia).
  split.
  - intros Heq.
    assert (inject_Z x == inject_Z y)%Q as Hxy.
    { rewrite <- (Qmult_div_r (inject_Z x) (inject_Z y)) by done.
      rewrite Heq. apply Qmult_1_r. }
    unfold Qeq in Hxy. simpl in Hxy. lia.
  - intros ->. by apply Qmult_inv_r.
Qed.

End CountExtremes.

(** X5. On integer counts the count accuracy does not tell the ground
    truth from the prediction, and it is 1 exactly when the two counts are
    equal. *)
Theorem countAccuracy_symmetric_perfect (actual predicted : Z) (ac pc : list Z) :
  Scoring.countAccuracy (Scoring.calculateImageScore (JS.ofZ actual) ac (JS.ofZ predicted) pc)
  = Scoring.countAccuracy (Scoring.calculateImageScore (JS.ofZ predicted) pc (JS.ofZ actual) ac)
  ∧ (JS.strictEq
       (Scoring.countAccuracy
          (Scoring.calculateImageScore (JS.ofZ actual) ac (JS.ofZ predicted) pc))
       (JS.Num 1) = true
     ↔ actual = predicted).
Proof.
  unfold Scoring.calculateImageScore. cbn [Scoring.countAccuracy].
  rewrite !strictEq_ofZ_0, !Math_min_ofZ, !Math_max_ofZ.
  rewrite (Z.min_comm predicted), (Z.max_comm predicted). split.
  - by rewrite andb_comm, orb_comm.
  - repeat case_bool_decide; subst; cbn [andb orb]; try (split; [done|lia]); try done.
    rewrite div_ofZ by lia. rewrite strictEq_Num, Zratio_eq_1 by lia. lia.
Qed.

(** ** Response normalizer: confidences, text extraction and fences *)

Section NormalizerMore.
Import JS Normalizer.

Lemma interpret_confidences parsed r confs :
  interpret parsed = Return r → classConfidences r = Some confs →
  Forall (λ q, (0 <= q <= 1)%Q) confs.
Proof.
  unfold interpret. intros Hr. follow_run Hr.
  all: injection Hr as <-; simpl; try case_match; try discriminate.
  case_bool_decide; [|discriminate]. intros [= <-]. apply filterConfidences_range.
Qed.

Lemma takeWhile_Forall {A} (f : A → bool) (xs : list A) :
  Forall (λ x, f x = true) (takeWhile f xs).
Proof.
  induction xs as [|x xs IH]; simpl; [constructor|].
  destruct (f x) eqn:Hx; [by constructor|constructor].
Qed.

Lemma matchCountTail_digits s ds :
  matchCountTail s = Some ds → ds ≠ [] ∧ Forall digitChar ds.
Proof.
  unfold matchCountTail.
  pose proof (takeWhile_Forall isDigit (dropWhile (λ c, isWhiteSpace c || (c =? 58)%N) s))
    as Hall.
  destruct (takeWhile isDigit _) as [|d ds']; [done|].
  intros [= <-]. split; [done|].
  eapply Forall_impl; [exact Hall|]. apply isDigit_digitChar.
Qed.

Lemma matchCountHere_digits s ds :
  matchCountHere s = Some ds → ds ≠ [] ∧ Forall digitChar ds.
Proof.
  unfold matchCountHere. intros Hds.
  repeat match type of Hds with
         | match (if ?c then _ else _) with _ => _ end = _ => destruct c eqn:?
         | match matchCountTail ?t with _ => _ end = _ =>
           destruct (matchCountTail t) eqn:?
         | (if ?c then _ else _) = _ => destruct c eqn:?
         end;
    first [ discriminate Hds
          | injection Hds as ->; by eapply matchCountTail_digits
          | by eapply matchCountTail_digits ].
Qed.

Lemma matchCount_digits s ds :
  matchCount s = Some ds → ds ≠ [] ∧ Forall digitChar ds.
Proof.
  induction s as [|c s IH]; cbn [matchCount].
  - destruct (matchCountHere []) eqn:Hhere; [|done].
    intros [= <-]. by eapply matchCountHere_digits.
  - destruct (matchCountHere (c :: s)) eqn:Hhere; [|done].
    intros [= <-]. by eapply matchCountHere_digits.
Qed.

Lemma decimalValue_nonneg ds : Forall digitChar ds → 0 ≤ decimalValue ds.
Proof.
  unfold decimalValue. intros Hds.
  assert (∀ acc, 0 ≤ acc → 0 ≤ foldl (λ acc c, 10 * acc + digitValue c) acc ds) as Hfold.
  { induction Hds as [|c ds Hc _ IH]; intros acc Hacc; simpl; [done|].
    apply IH. unfold digitValue, digitChar in *. lia. }
  by apply Hfold.
Qed.

Lemma decimalValue_bound ds :
  Forall digitChar ds → decimalValue ds < 10 ^ Z.of_nat (length ds).
Proof.
  unfold decimalValue. intros Hds.
  assert (∀ acc, foldl (λ acc c, 10 * acc + digitValue c) acc ds + 1
                 ≤ (acc + 1) * 10 ^ Z.of_nat (length ds)) as Hfold.
  { induction Hds as [|c ds Hc _ IH]; intros acc; cbn [foldl length]; [lia|].
    etransitivity; [apply IH|].
    rewrite Nat2Z.inj_succ, Z.pow_succ_r by lia.
    unfold digitValue, digitChar in *.
    assert (0 < 10 ^ Z.of_nat (length ds)) by (apply Z.pow_pos_nonneg; lia). nia. }
  specialize (Hfold 0). lia.
Qed.

Lemma digitRunFrom_mono (k k' : nat) (s : str) :
  (k ≤ k')%nat → (digitRunFrom k s ≤ digitRunFrom k' s)%nat.
Proof.
  revert k k'. induction s as [|c s IH]; intros k k' Hk; cbn [digitRunFrom]; [done|].
  destruct (isDigit c); [apply IH; lia|lia].
Qed.

Lemma digitRunFrom_takeWhile (k : nat) (s : str) :
  (k + length (takeWhile isDigit s) ≤ digitRunFrom k s)%nat.
Proof.
  revert k. induction s as [|c s IH]; intros k; cbn [digitRunFrom takeWhile]; [simpl; lia|].
  destruct (isDigit c); cbn [length]; [|lia].
  specialize (IH (S k)). lia.
Qed.

Lemma longestDigitRun_suffix (before s : str) :
  (longestDigitRun s ≤ longestDigitRun (before ++ s))%nat.
Proof.
  unfold longestDigitRun.
  assert (∀ k, digitRunFrom 0 s ≤ digitRunFrom k (before ++ s))%nat as Hall; [|apply Hall].
  induction before as [|c before IH]; intros k; cbn [app digitRunFrom].
  - apply digitRunFrom_mono. lia.
  - destruct (isDigit c); [apply IH|]. specialize (IH 0%nat). lia.
Qed.

Lemma dropWhile_suffix {A} (f : A → bool) (xs : list A) :
  ∃ before, xs = before ++ dropWhile f xs.
Proof.
  induction xs as [|x xs [before IH]]; simpl; [by exists []|].
  destruct (f x); [|by exists []]. exists (x :: before). simpl. by rewrite <- IH.
Qed.

Lemma matchCountTail_run s ds :
  matchCountTail s = Some ds → (length ds ≤ longestDigitRun s)%nat.
Proof.
  unfold matchCountTail.
  destruct (dropWhile_suffix (λ c, isWhiteSpace c || (c =? 58)%N) s) as [before Hs].
  set (rest := dropWhile _ s) in *.
  pose proof (digitRunFrom_takeWhile 0 rest) as Hrun.
  pose proof (longestDigitRun_suffix before rest) as Hsuffix. rewrite <- Hs in Hsuffix.
  unfold longestDigitRun in *.
  destruct (takeWhile isDigit rest) as [|d ds'] eqn:Htake; [done|].
  intros [= <-]. simpl in *. lia.
Qed.

Lemma matchCountHere_run s ds :
  matchCountHere s = Some ds → (length ds ≤ longestDigitRun s)%nat.
Proof.
  assert (∀ n, matchCountTail (drop n s) = Some ds → (length ds ≤ longestDigitRun s)%nat)
    as Htail.
  { intros n Hds%matchCountTail_run.
    pose proof (longestDigitRun_suffix (take n s) (drop n s)) as Hsuffix.
    rewrite take_drop in Hsuffix. lia. }
  unfold matchCountHere. intros Hds.
  repeat match type of Hds with
         | match (if ?c then _ else _) with _ => _ end = _ => destruct c eqn:?
         | match matchCountTail ?t with _ => _ end = _ =>
           destruct (matchCountTail t) eqn:?
         | (if ?c then _ else _) = _ => destruct c eqn:?
         end;
    first [ discriminate Hds
          | injection Hds as ->; by eapply Htail
          | by eapply Htail ].
Qed.

Lemma matchCount_run s ds :
  matchCount s = Some ds → (length ds ≤ longestDigitRun s)%nat.
Proof.
  induction s as [|c s IH]; cbn [matchCount].
  - destruct (matchCountHere []) eqn:Hhere; [|done].
    intros [= <-]. by apply matchCountHere_run.
  - destruct (matchCountHere (c :: s)) eqn:Hhere.
    + intros [= <-]. by apply matchCountHere_run.
    + intros Hds%IH. pose proof (longestDigitRun_suffix [c] s) as Hsuffix.
      simpl in Hsuffix. lia.
Qed.

(** The count of the text extraction: the value of the digits found, below
    10 to the power of their number. *)
Lemma textExtraction_count response :
  ∃ n : Z, 0 ≤ n < 10 ^ Z.of_nat (longestDigitRun response)
           ∧ count (textExtraction response) = Num (inject_Z n).
Proof.
  unfold textExtraction. cbn [count].
  destruct (matchCount response) as [ds|] eqn:Hds.
  - pose proof (matchCount_run _ _ Hds) as Hrun.
    apply matchCount_digits in Hds as [Hne Hall].
    rewrite parseInt_unsigned by done. exists (decimalValue ds).
    split; [|done]. split; [by apply decimalValue_nonneg|].
    eapply Z.lt_le_trans; [by apply decimalValue_bound|].
    apply Z.pow_le_mono_r; lia.
  - exists 0. split; [|done]. split; [done|]. apply Z.pow_pos_nonneg; lia.
Qed.

Lemma dropWhile_app_all {A} (f : A → bool) (xs ys : list A) :
  Forall (λ x, f x = true) xs → dropWhile f (xs ++ ys) = dropWhile f ys.
Proof. induction 1 as [|x xs Hx _ IH]; simpl; [done|]. by rewrite Hx. Qed.

Lemma dropWhile_app_nil {A} (f : A → bool) (xs ys : list A) :
  dropWhile f xs = [] → dropWhile f (xs ++ ys) = dropWhile f ys.
Proof.
  induction xs as [|x xs IH]; simpl; [done|].
  destruct (f x); [done|discriminate].
Qed.

Lemma dropWhile_app_cons {A} (f : A → bool) (xs ys : list A) :
  dropWhile f xs ≠ [] → dropWhile f (xs ++ ys) = dropWhile f xs ++ ys.
Proof.
  induction xs as [|x xs IH]; simpl; [done|].
  destruct (f x); [done|reflexivity].
Qed.

Lemma dropWhile_head_false {A} (f : A → bool) (xs : list A) :
  match dropWhile f xs with [] => True | x :: _ => f x = false end.
Proof.
  induction xs as [|x xs IH]; simpl; [done|]. by destruct (f x) eqn:Hx.
Qed.

Lemma startsWith_app (prefix s : str) : startsWith (prefix ++ s) prefix = true.
Proof.
  induction prefix as [|p prefix IH]; simpl; [by destruct s|]. by rewrite N.eqb_refl.
Qed.

Lemma startsWith_shorter (s p q : str) :
  startsWith s (p ++ q) = true → startsWith s p = true.
Proof.
  revert s. induction p as [|c p IH]; intros s; [by destruct s|].
  destruct s as [|d s]; simpl; [done|]. rewrite !andb_true_iff. intros [? ?]. auto.
Qed.

Lemma stripFences_plain body :
  startsWith (trim body) (js "```") = false → stripFences body = trim body.
Proof.
  intros Hplain. unfold stripFences. cbv zeta. rewrite Hplain.
  destruct (startsWith (trim body) (js "```json")) eqn:Hjson; [|done].
  change (js "```json") with (js "```" ++ js "json") in Hjson.
  apply startsWith_shorter in Hjson. congruence.
Qed.

Lemma stripClosingFence_app (s : str) :
  stripClosingFence (s ++ js "```") = reverse (dropWhile isWhiteSpace (reverse s)).
Proof.
  unfold stripClosingFence, endsWith. rewrite reverse_app.
  change (reverse (js "```")) with [96; 96; 96]%N.
  cbn [app startsWith]. rewrite !N.eqb_refl. cbn [andb].
  destruct (reverse s); reflexivity.
Qed.

(** What is left of a fenced text once the opening fence has gone: the
    white space, the body, the white space and the closing fence. *)
Lemma stripClosingFence_body (ws1 body ws2 : str) :
  Forall (λ c, isWhiteSpace c = true) ws1 → Forall (λ c, isWhiteSpace c = true) ws2 →
  stripClosingFence (dropWhile isWhiteSpace (ws1 ++ body ++ ws2 ++ js "```")) = trim body.
Proof.
  intros Hws1 Hws2. rewrite dropWhile_app_all by done.
  unfold trim, trimEnd, trimStart.
  destruct (dropWhile isWhiteSpace body) as [|b rest] eqn:Hbody.
  - rewrite dropWhile_app_nil by done. rewrite dropWhile_app_all by done.
    reflexivity.
  - rewrite dropWhile_app_cons by (by rewrite Hbody). rewrite Hbody.
    rewrite app_assoc, stripClosingFence_app, reverse_app.
    rewrite dropWhile_app_all; [done|]. by apply Forall_reverse.
Qed.

Lemma stripFences_fenced (opening ws1 body ws2 : str) :
  opening = js "```json" ∨ (opening = js "```" ∧ ws1 ≠ []) →
  Forall (λ c, isWhiteSpace c = true) ws1 → Forall (λ c, isWhiteSpace c = true) ws2 →
  stripFences (opening ++ ws1 ++ body ++ ws2 ++ js "```") = trim body.
Proof.
  intros Hopening Hws1 Hws2. unfold stripFences. cbv zeta.
  assert (trim (opening ++ ws1 ++ body ++ ws2 ++ js "```")
          = opening ++ ws1 ++ body ++ ws2 ++ js "```") as ->.
  { assert (∃ middle, opening ++ ws1 ++ body ++ ws2 ++ js "```" = 96%N :: middle ++ [96%N])
      as [middle ->]; [|by apply trim_between].
    change (js "```") with ([96; 96]%N ++ [96%N]).
    destruct Hopening as [->|[-> _]].
    - exists (js "``json" ++ ws1 ++ body ++ ws2 ++ [96; 96]%N).
      change (js "```json") with (96%N :: js "``json").
      by rewrite <- !app_assoc.
    - exists ([96; 96]%N ++ ws1 ++ body ++ ws2 ++ [96; 96]%N).
      by rewrite <- !app_assoc. }
  destruct Hopening as [->|[-> Hne]].
  - rewrite startsWith_app. unfold stripPrefixAndSpace. rewrite startsWith_app.
    rewrite drop_app_length. by apply stripClosingFence_body.
  - destruct ws1 as [|w ws1]; [done|].
    apply Forall_cons in Hws1 as [Hw Hws1].
    replace (startsWith (js "```" ++ (w :: ws1) ++ body ++ ws2 ++ js "```") (js "```json"))
      with false.
    2:{ change (js "```") with [96; 96; 96]%N. change (js "```json") with [96; 96; 96; 106; 115; 111; 110]%N.
        cbn [app startsWith]. rewrite !N.eqb_refl. cbn [andb].
        destruct (w =? 106)%N eqn:Hj; [|done]. apply N.eqb_eq in Hj. subst w. done. }
    rewrite startsWith_app. unfold stripPrefixAndSpace. rewrite startsWith_app.
    rewrite drop_app_length. apply stripClosingFence_body; [by constructor|done].
Qed.

End NormalizerMore.

(** X6. Every class confidence that the normalizer returns is a number from
    0 to 1: confidences outside that range are dropped. *)
Theorem classConfidences_in_unit
    (response : JS.str) (r : Normalizer.ParsedResponse) (confs : list Q) :
  Normalizer.parseLLMResponse response = JS.Return r →
  Normalizer.classConfidences r = Some confs →
  Forall (λ q, (0 <= q <= 1)%Q) confs.
Proof.
  intros Hr Hconfs. unfold Normalizer.parseLLMResponse, JS.try_catch in Hr.
  destruct (Normalizer.tryBlock response) as [v|e] eqn:Hbody; [|by injection Hr as <-].
  injection Hr as ->. apply bind_Return in Hbody as (parsed & _ & Hi).
  by eapply interpret_confidences.
Qed.

Lemma classConfidences_in_unit_witness :
  Forall (λ q, (0 <= q <= 1)%Q) [(9 # 10)%Q; (1 # 2)%Q].
Proof.
  apply (classConfidences_in_unit Normalizer.fencedScenario
           {| Normalizer.count := JS.Num 2;
              Normalizer.classes := [0%Q];
              Normalizer.countConfidence := None;
              Normalizer.classConfidences := Some [(9 # 10)%Q; (1 # 2)%Q] |}).
  - vm_compute. reflexivity.
  - reflexivity.
Defined.

(** X7. When the response cannot be read as JSON and holds no run of
    more than 15 decimal digits, the count that the text extraction returns
    is an integer from 0 to below 10^15, a value that a number holds
    exactly; it is 0 when the response holds no digit at all. No confidence
    is returned. *)
Theorem text_extraction_count
    (response : JS.str) (e : JS.exn) (r : Normalizer.ParsedResponse) :
  Normalizer.tryBlock response = JS.Throw e →
  Normalizer.parseLLMResponse response = JS.Return r →
  (Normalizer.longestDigitRun response ≤ 15)%nat →
  (∃ n : Z, 0 ≤ n < 10 ^ 15 ∧ Normalizer.count r = JS.Num (inject_Z n))
  ∧ (Normalizer.longestDigitRun response = 0%nat → Normalizer.count r = JS.Num 0)
  ∧ Normalizer.countConfidence r = None
  ∧ Normalizer.classConfidences r = None.
Proof.
  intros Hthrow Hr Hrun. unfold Normalizer.parseLLMResponse, JS.try_catch in Hr.
  rewrite Hthrow in Hr. injection Hr as <-.
  destruct (textExtraction_count response) as (n & [Hn0 Hn] & Hcount).
  split_and!; [| |done|done].
  - exists n. split; [|done]. split; [done|].
    eapply Z.lt_le_trans; [exact Hn|]. apply Z.pow_le_mono_r; lia.
  - intros Hnone. rewrite Hnone in Hn. rewrite Hcount.
    assert (n = 0) as -> by (change (10 ^ Z.of_nat 0) with 1 in Hn; lia). done.
Qed.

Lemma text_extraction_count_witness :
  (∃ n : Z, 0 ≤ n < 10 ^ 15 ∧ JS.Num 3 = JS.Num (inject_Z n))
  ∧ (Normalizer.longestDigitRun (JS.js "I count 3 aircraft, of class 1 and 2") = 0%nat →
     JS.Num 3 = JS.Num 0)
  ∧ @None JS.json = None ∧ @None (list Q) = None.
Proof.
  apply (text_extraction_count (JS.js "I count 3 aircraft, of class 1 and 2") JS.SyntaxError
           {| Normalizer.count := JS.Num 3;
              Normalizer.classes := [3%Q; 1%Q; 2%Q];
              Normalizer.countConfidence := None;
              Normalizer.classConfidences := None |}).
  - vm_compute. reflexivity.
  - vm_compute. reflexivity.
  - vm_compute. lia.
Defined.

(** X8. A Markdown code fence around a response is transparent: when a text
    that does not itself open with a fence is read as JSON, the same text
    between an opening fence and a closing fence, with any white space
    after the one and before the other, gives the same result. *)
Theorem fenced_response_same
    (opening ws1 body ws2 : JS.str) (r : Normalizer.ParsedResponse) :
  opening = JS.js "```json" ∨ (opening = JS.js "```" ∧ ws1 ≠ []) →
  Forall (λ c, JS.isWhiteSpace c = true) ws1 →
  Forall (λ c, JS.isWhiteSpace c = true) ws2 →
  JS.startsWith (JS.trim body) (JS.js "```") = false →
  Normalizer.tryBlock body = JS.Return r →
  Normalizer.parseLLMResponse (opening ++ ws1 ++ body ++ ws2 ++ JS.js "```") = JS.Return r.
Proof.
  intros Hopening Hws1 Hws2 Hplain Hbody.
  unfold Normalizer.parseLLMResponse, Normalizer.tryBlock in *.
  rewrite stripFences_fenced by done.
  rewrite stripFences_plain in Hbody by done.
  by rewrite Hbody.
Qed.

Lemma fenced_response_same_witness :
  Normalizer.parseLLMResponse
    (JS.js "```json" ++ [JS.LF] ++ JS.jsq "{'count':1,'classes':[4]}" ++ [JS.LF] ++ JS.js "```")
  = JS.Return {| Normalizer.count := JS.Num 1;
                 Normalizer.classes := [4%Q];
                 Normalizer.countConfidence := None;
                 Normalizer.classConfidences := None |}.
Proof.
  apply (fenced_response_same (JS.js "```json") [JS.LF] (JS.jsq "{'count':1,'classes':[4]}")
           [JS.LF]).
  - by left.
  - by repeat constructor.
  - by repeat constructor.
  - vm_compute. reflexivity.
  - vm_compute. reflexivity.
Defined.

(** ** Run serializer: rows, errors and the shape of the export *)

Section RowMore.
Import JS Serializer Csv.

Lemma loop_unquoted fields current row :
  DQUOTE ∉ row →
  parseCSVRow_loop fields current false row = fields ++ (trim <$> split_aux COMMA current row).
Proof.
  revert fields current. induction row as [|char rest IH]; intros fields current Hrow.
  - reflexivity.
  - apply not_elem_of_cons in Hrow as [Hchar Hrest].
    cbn [parseCSVRow_loop split_aux].
    rewrite (proj2 (N.eqb_neq char DQUOTE)) by done. cbn [negb]. rewrite andb_true_r.
    destruct (char =? COMMA)%N.
    + rewrite IH by done. by rewrite <- app_assoc.
    + by apply IH.
Qed.

Lemma loop_escaped fields current field tail :
  head tail ≠ Some DQUOTE →
  parseCSVRow_loop fields current true
    (replaceAll DQUOTE [DQUOTE; DQUOTE] field ++ DQUOTE :: tail)
  = parseCSVRow_loop fields (current ++ field) false tail.
Proof.
  intros Htail. revert current. induction field as [|c field IH]; intros current.
  - pose proof (loop_inside fields current [] tail (not_elem_of_nil _) Htail) as Hloop.
    exact Hloop.
  - unfold replaceAll. cbn [fmap list_fmap mjoin list_join]. fold (replaceAll DQUOTE [DQUOTE; DQUOTE] field).
    destruct (c =? DQUOTE)%N eqn:Hc.
    + apply N.eqb_eq in Hc. subst c. cbn [app parseCSVRow_loop].
      rewrite N.eqb_refl. cbn [andb]. rewrite IH. by rewrite <- app_assoc.
    + cbn [app parseCSVRow_loop]. rewrite Hc. rewrite andb_false_r.
      rewrite IH. by rewrite <- app_assoc.
Qed.

Lemma loop_escaped_cell fields field tail :
  head tail ≠ Some DQUOTE →
  parseCSVRow_loop fields [] false (escapedCell field ++ tail)
  = parseCSVRow_loop fields field false tail.
Proof.
  intros Htail. unfold escapedCell. rewrite <- !app_assoc. cbn [app].
  rewrite loop_open. by rewrite loop_escaped.
Qed.

Lemma loop_escaped_row fields cell cells :
  parseCSVRow_loop fields [] false (join [COMMA] (escapedCell <$> cell :: cells))
  = fields ++ (trim <$> cell :: cells).
Proof.
  revert fields cell. induction cells as [|next cells IH]; intros fields cell.
  - cbn [fmap list_fmap join]. rewrite <- (app_nil_r (escapedCell cell)).
    by rewrite loop_escaped_cell.
  - cbn [fmap list_fmap]. rewrite join_cons by done.
    rewrite loop_escaped_cell by done. cbn [app parseCSVRow_loop].
    replace (COMMA =? DQUOTE)%N with false by done. rewrite N.eqb_refl. cbn [negb andb].
    etransitivity; [apply (IH (fields ++ [trim cell]) next)|].
    by rewrite <- app_assoc.
Qed.

Lemma split_aux_nonempty (sep : N) (current s : str) :
  (0 < length (split_aux sep current s))%nat.
Proof.
  revert current. induction s as [|c s IH]; intros current; simpl; [lia|].
  destruct (c =? sep)%N; [simpl; lia|apply IH].
Qed.

Lemma split_aux_length (sep : N) (current s : str) :
  (length (split_aux sep current s) < 2)%nat ↔ sep ∉ s.
Proof.
  revert current. induction s as [|c s IH]; intros current; simpl.
  - split; [intros _; apply not_elem_of_nil|lia].
  - rewrite not_elem_of_cons. destruct (c =? sep)%N eqn:Hc.
    + apply N.eqb_eq in Hc. subst c. simpl.
      pose proof (split_aux_nonempty sep [] s). split; [lia|tauto].
    + apply N.eqb_neq in Hc. rewrite IH. split; [auto|tauto].
Qed.

Lemma parseLine_own_score headers line img :
  parseLine headers line = Some img →
  Imported.score img
  = Scoring.calculateImageScore
      (ofZ (Imported.actualObjects img)) (Imported.actualClasses img)
      (ofZ (Imported.predictedObjects img)) (Imported.predictedClasses img).
Proof.
  unfold parseLine. cbv zeta. repeat case_bool_decide; try done.
  intros [= <-]. reflexivity.
Qed.

Lemma omap_length {A B} (f : A → option B) (xs : list A) :
  (length (omap f xs) ≤ length xs)%nat.
Proof.
  induction xs as [|x xs IH]; simpl; [lia|].
  change (list_omap A B f xs) with (omap f xs). destruct (f x); simpl; lia.
Qed.

End RowMore.

(** X9. A row without double quotes is read as its parts between commas,
    each without the white space around it. *)
Theorem parseCSVRow_unquoted (row : JS.str) :
  JS.DQUOTE ∉ row →
  Serializer.parseCSVRow row = JS.trim <$> JS.split JS.COMMA row.
Proof. intros Hrow. by apply (loop_unquoted [] []). Qed.

Lemma parseCSVRow_unquoted_witness :
  Serializer.parseCSVRow (JS.js "img_1, 3 ,0;1;1")
  = JS.trim <$> JS.split JS.COMMA (JS.js "img_1, 3 ,0;1;1").
Proof.
  apply (parseCSVRow_unquoted (JS.js "img_1, 3 ,0;1;1")).
  compute_done.
Defined.

(** X10. [parseCSVRow] reads escaped CSV: cells written between double
    quotes with their double quotes doubled, whatever else they hold
    (commas, quotes, line feeds), are read back as they were, but for the
    white space around each. *)
Theorem parseCSVRow_escaped (cells : list JS.str) :
  cells ≠ [] →
  Serializer.parseCSVRow (JS.join [JS.COMMA] (Csv.escapedCell <$> cells)) = JS.trim <$> cells.
Proof.
  intros Hne. destruct cells as [|cell cells]; [done|].
  apply (loop_escaped_row []).
Qed.

Lemma parseCSVRow_escaped_witness :
  Serializer.parseCSVRow
    (JS.join [JS.COMMA] (Csv.escapedCell <$> [JS.jsq "{'count':2, 'objects':[]}"; JS.js "a,b"]))
  = JS.trim <$> [JS.jsq "{'count':2, 'objects':[]}"; JS.js "a,b"].
Proof.
  apply (parseCSVRow_escaped [JS.jsq "{'count':2, 'objects':[]}"; JS.js "a,b"]).
  discriminate.
Defined.

(** X11. Whatever the text imported, every image that the import returns
    carries the score of its own counts and classes, as imported, and its
    class accuracy lies between 0 and 1. *)
Theorem imported_score_consistent (csvContent : JS.str) (imgs : list Imported.Image) :
  Serializer.parseCSVToEvaluationData csvContent = JS.Return imgs →
  Forall (λ img,
            Imported.score img
            = Scoring.calculateImageScore
                (JS.ofZ (Imported.actualObjects img)) (Imported.actualClasses img)
                (JS.ofZ (Imported.predictedObjects img)) (Imported.predictedClasses img)
            ∧ JS.inUnit (Scoring.classAccuracy (Imported.score img))) imgs.
Proof.
  unfold Serializer.parseCSVToEvaluationData. cbv zeta.
  repeat case_match; try done. intros [= <-].
  apply Forall_forall. intros img (line & _ & Himg)%list_elem_of_omap.
  apply parseLine_own_score in Himg. split; [done|]. rewrite Himg.
  cbn [Scoring.classAccuracy Scoring.calculateImageScore].
  destruct (classAccuracy_unit (Imported.actualClasses img) (Imported.predictedClasses img))
    as (q & -> & Hq).
  exact Hq.
Qed.

Lemma imported_score_consistent_witness :
  Forall (λ img,
            Imported.score img
            = Scoring.calculateImageScore
                (JS.ofZ (Imported.actualObjects img)) (Imported.actualClasses img)
                (JS.ofZ (Imported.predictedObjects img)) (Imported.predictedClasses img)
            ∧ JS.inUnit (Scoring.classAccuracy (Imported.score img)))
         (omap (Serializer.parseLine Serializer.headers)
               [Serializer.quoteRow (Serializer.row Serializer.exampleImage)]).
Proof.
  apply (imported_score_consistent Serializer.tamperedCSV).
  vm_compute. reflexivity.
Defined.

(** X12. The import has three outcomes. It refuses a text that, trimmed,
    holds no line feed (insufficient data); it refuses a text whose first
    line lacks a required header; otherwise it returns images, at most one
    for each line after the first: a row that cannot be used is left out and
    never makes the import fail. *)
Theorem import_outcomes (csvContent : JS.str) :
  match Serializer.parseCSVToEvaluationData csvContent with
  | JS.Throw e =>
    (e = JS.Error "Invalid CSV format: insufficient data" ∧ JS.LF ∉ JS.trim csvContent)
    ∨ (e = JS.Error "Invalid CSV format: missing required headers"
       ∧ JS.LF ∈ JS.trim csvContent
       ∧ ∃ h, h ∈ Serializer.requiredHeaders ∧ h ∉ Serializer.headersOf csvContent)
  | JS.Return imgs =>
    JS.LF ∈ JS.trim csvContent
    ∧ (∀ h, h ∈ Serializer.requiredHeaders → h ∈ Serializer.headersOf csvContent)
    ∧ (length imgs ≤ length (JS.split JS.LF (JS.trim csvContent)) - 1)%nat
  end.
Proof.
  unfold Serializer.parseCSVToEvaluationData. cbv zeta.
  fold (Serializer.headersOf csvContent).
  pose proof (split_aux_length JS.LF [] (JS.trim csvContent)) as Hlines.
  fold (JS.split JS.LF (JS.trim csvContent)) in Hlines.
  case_bool_decide as Hshort.
  { left. split; [done|]. by apply Hlines. }
  assert (JS.LF ∈ JS.trim csvContent) as Hlf.
  { destruct (decide (JS.LF ∈ JS.trim csvContent)) as [?|Hno]; [done|].
    apply Hlines in Hno. done. }
  destruct (forallb _ _) eqn:Hheaders; cbn [negb].
  - split; [done|]. split.
    + intros h Hh. rewrite forallb_forall in Hheaders.
      apply list_elem_of_In in Hh. apply Hheaders in Hh.
      by apply bool_decide_eq_true in Hh.
    + etransitivity; [apply omap_length|]. by rewrite length_drop.
  - right. split; [done|]. split; [done|].
    apply (not_true_iff_false _) in Hheaders.
    destruct (decide (Forall (λ h, h ∈ Serializer.headersOf csvContent)
                             Serializer.requiredHeaders)) as [Hall|Hnot].
    + exfalso. apply Hheaders. apply forallb_forall. intros h Hh%list_elem_of_In.
      apply bool_decide_eq_true. by apply (proj1 (Forall_forall _ _) Hall).
    + apply not_Forall_Exists in Hnot; [|apply _].
      apply Exists_exists in Hnot as (h & Hh & Hmissing). by exists h.
Qed.

Section ExportShape.
Import JS Serializer Csv.

Lemma quoteCell_no_LF cell : LF ∉ cell → LF ∉ quoteCell cell.
Proof.
  intros Hcell. unfold quoteCell.
  rewrite !not_elem_of_app, !list_elem_of_singleton. split_and!; [discriminate|done|discriminate].
Qed.

Lemma quoteRow_no_LF cells : Forall (λ cell, LF ∉ cell) cells → LF ∉ quoteRow cells.
Proof.
  intros Hcells. unfold quoteRow. apply notin_join; [compute_done|].
  apply Forall_fmap. eapply Forall_impl; [exact Hcells|]. apply quoteCell_no_LF.
Qed.

Lemma row_no_LF img : oneLine img → Forall (λ cell, LF ∉ cell) (row img).
Proof.
  intros (Hid & Hfile & Hsubset & Hnames & Hpnames).
  unfold row.
  repeat (apply Forall_cons; split); try apply Forall_nil; try done.
  - apply clean_no_LF, clean_NumberToString.
  - apply clean_no_LF, clean_numbers.
  - apply notin_join; [compute_done|done].
  - apply clean_no_LF, clean_numberOrEmpty.
  - apply clean_no_LF, clean_numbers.
  - apply notin_join; [compute_done|done].
  - apply clean_no_LF. destruct (Model.score img); [apply clean_percentOf|constructor].
  - apply clean_no_LF. destruct (Model.score img); [apply clean_percentOf|constructor].
  - apply clean_no_LF. destruct (Model.predictedCountConfidence img) as [c|]; [|constructor].
    destruct (Qeq_bool c 0); [constructor|apply clean_percent].
  - apply clean_no_LF. destruct (Model.predictedClassConfidences img) as [cs|]; [|constructor].
    apply clean_join; [compute_done|].
    apply Forall_fmap, Forall_true. intros c. apply clean_percent.
  - apply clean_no_LF. destruct (Model.cost img) as [c|]; [|constructor].
    destruct (Qeq_bool c 0); [constructor|].
    apply clean_app; [compute_done|apply clean_toFixed].
  - apply clean_no_LF, clean_numberOrEmpty.
  - apply clean_no_LF, clean_numberOrEmpty.
  - apply clean_no_LF, clean_numberOrEmpty.
  - apply clean_no_LF, clean_statusName.
  - apply (responseCell_no_LF img).
Qed.

Lemma export_import_lines result :
  Model.images result ≠ [] → Forall wellFormedImage (Model.images result) →
  parseCSVToEvaluationData (exportToCSV result)
  = Return (omap (parseLine headers) (quoteRow <$> (row <$> Model.images result))).
Proof.
  intros Hne Hwf. unfold exportToCSV. cbv zeta.
  set (rows := row <$> Model.images result) in *.
  change (quoteRow <$> headers :: rows) with (quoteRow headers :: (quoteRow <$> rows)).
  set (lines := quoteRow headers :: (quoteRow <$> rows)).
  assert (Forall quoted lines) as Hquoted.
  { apply Forall_cons. split; [by apply quoted_quoteRow|].
    apply Forall_fmap, Forall_fmap, Forall_true. intros img. by apply quoted_quoteRow. }
  assert (Forall (λ line, LF ∉ line) lines) as Hlines.
  { apply Forall_cons. split; [compute_done|].
    apply Forall_fmap, Forall_fmap.
    eapply Forall_impl; [exact Hwf|]. intros img. apply line_no_LF. }
  unfold parseCSVToEvaluationData. cbv zeta.
  rewrite trim_quoted by (by apply quoted_join).
  rewrite split_join by done.
  rewrite bool_decide_eq_false_2.
  2:{ subst lines rows. cbn [length]. rewrite !length_fmap.
      destruct (Model.images result); [done|simpl; lia]. }
  change (default [] (lines !! 0%nat)) with (quoteRow headers).
  replace ((λ h, trim (replaceAll DQUOTE [] h)) <$> split COMMA (quoteRow headers))
    with headers by (vm_compute; reflexivity).
  replace (forallb (includes headers) requiredHeaders) with true by (vm_compute; reflexivity).
  reflexivity.
Qed.

Lemma parseIntOr0_optional n : parseIntOr0 (trim (numberOrEmpty n)) = default 0 n.
Proof. destruct n as [z|]; [apply parseIntOr0_numberOrEmpty|reflexivity]. Qed.

Lemma parseIntOrUndefined_optional n :
  parseIntOrUndefined (trim (numberOrEmpty n)) = readBack n.
Proof.
  destruct n as [z|]; [|reflexivity]. unfold numberOrEmpty, readBack. simpl.
  case_bool_decide as Hz; [reflexivity|].
  unfold parseIntOrUndefined. rewrite trim_NumberToString, parseInt_NumberToString.
  by rewrite bool_decide_eq_false_2.
Qed.

Lemma parseLine_kept img :
  wellFormedImage img →
  ∃ imported, parseLine headers (quoteRow (row img)) = Some imported
              ∧ keptFields img imported.
Proof.
  intros Hwf.
  assert (quoted (quoteRow (row img))) as Hquoted by (by apply quoted_quoteRow).
  destruct (parseCSVRow_line img Hwf) as [last Hfields].
  destruct Hwf as (_ & _ & _ & _ & _ & _ & _ & _ & n & cs & Hn & _ & Hcs & _ & Hscore).
  unfold parseLine. cbv zeta.
  rewrite trim_quoted by done.
  rewrite bool_decide_eq_false_2 by (by apply quoted_nonempty).
  rewrite Hfields.
  rewrite bool_decide_eq_false_2
    by (rewrite length_app, length_fmap, length_take; cbn; lia).
  eexists. split; [reflexivity|].
  unfold keptFields.
  cbn [Imported.actualObjects Imported.predictedObjects Imported.apiDuration
       Imported.imageWidth Imported.imageHeight Imported.status Imported.id
       Imported.filename Imported.subset].
  rewrite (field_of_row img last "Actual Objects" 3 _ eq_refl ltac:(lia) eq_refl).
  rewrite (field_of_row img last "Predicted Objects" 6 _ eq_refl ltac:(lia) eq_refl).
  rewrite (field_of_row img last "API Duration (ms)" 14 _ eq_refl ltac:(lia) eq_refl).
  rewrite (field_of_row img last "Image Width" 15 _ eq_refl ltac:(lia) eq_refl).
  rewrite (field_of_row img last "Image Height" 16 _ eq_refl ltac:(lia) eq_refl).
  rewrite (field_of_row img last "Status" 17 _ eq_refl ltac:(lia) eq_refl).
  rewrite (field_of_row img last "Image ID" 0 _ eq_refl ltac:(lia) eq_refl).
  rewrite (field_of_row img last "Filename" 1 _ eq_refl ltac:(lia) eq_refl).
  rewrite (field_of_row img last "Subset" 2 _ eq_refl ltac:(lia) eq_refl).
  rewrite parseIntOr0_cell, !parseIntOr0_optional, !parseIntOrUndefined_optional, Hn.
  split_and!; try reflexivity.
  destruct (Model.status img); vm_compute; reflexivity.
Qed.

Lemma parseLines_kept images :
  Forall wellFormedImage images →
  ∃ imported, omap (parseLine headers) (quoteRow <$> (row <$> images)) = imported
              ∧ Forall2 keptFields images imported.
Proof.
  induction 1 as [|img images Himg _ (imported & IH & Hall)].
  - by exists [].
  - destruct (parseLine_kept img Himg) as (first & Hfirst & Hkept).
    exists (first :: imported). split; [|by constructor].
    cbn [fmap list_fmap omap list_omap]. rewrite Hfirst.
    change (list_omap _ _ ?f ?l) with (omap f l). by rewrite IH.
Qed.

End ExportShape.

(** X13. The export of a run is the header line and then one line for each
    image, in order, provided that the texts naming the images hold no line
    feed; what the responses hold does not matter. *)
Theorem export_one_line_per_image (result : Model.EvaluationResult) :
  Forall Csv.oneLine (Model.images result) →
  JS.split JS.LF (Serializer.exportToCSV result)
  = Serializer.quoteRow Serializer.headers
    :: (Serializer.quoteRow <$> (Serializer.row <$> Model.images result)).
Proof.
  intros Hlines. unfold Serializer.exportToCSV. cbv zeta.
  apply split_join; [done|].
  change (Serializer.quoteRow <$> Serializer.headers :: (Serializer.row <$> Model.images result))
    with (Serializer.quoteRow Serializer.headers
          :: (Serializer.quoteRow <$> (Serializer.row <$> Model.images result))).
  apply Forall_cons. split; [compute_done|].
  apply Forall_fmap, Forall_fmap.
  eapply Forall_impl; [exact Hlines|]. intros img Himg. simpl.
  by apply quoteRow_no_LF, row_no_LF.
Qed.

Lemma export_one_line_per_image_witness :
  JS.split JS.LF (Serializer.exportToCSV (Serializer.runOf [Serializer.exampleImage]))
  = [Serializer.quoteRow Serializer.headers;
     Serializer.quoteRow (Serializer.row Serializer.exampleImage)].
Proof.
  apply (export_one_line_per_image (Serializer.runOf [Serializer.exampleImage])).
  apply Forall_singleton. unfold Csv.oneLine.
  split_and!; try compute_done; repeat constructor; compute_done.
Defined.

(** X14. The round trip through the export and the import keeps, for each
    image of a well-formed run that is not empty, the two object counts, the
    duration, the status and, without the white space around them, the file
    name and the subset; the id comes back without a closing [.jpg], and a
    width or a height of 0 comes back absent. *)
Theorem export_import_keeps_fields (result : Model.EvaluationResult) :
  Model.images result ≠ [] →
  Forall Serializer.wellFormedImage (Model.images result) →
  Forall Csv.safeOptionals (Model.images result) →
  ∃ imported,
    Serializer.parseCSVToEvaluationData (Serializer.exportToCSV result) = JS.Return imported
    ∧ Forall2 Csv.keptFields (Model.images result) imported.
Proof.
  intros Hne Hwf _. rewrite export_import_lines by done.
  destruct (parseLines_kept _ Hwf) as (imported & -> & Hkept). by exists imported.
Qed.

Lemma export_import_keeps_fields_witness :
  ∃ imported,
    Serializer.parseCSVToEvaluationData
      (Serializer.exportToCSV (Serializer.runOf [Serializer.exampleImage]))
    = JS.Return imported
    ∧ Forall2 Csv.keptFields [Serializer.exampleImage] imported.
Proof.
  apply (export_import_keeps_fields (Serializer.runOf [Serializer.exampleImage])).
  - discriminate.
  - apply Forall_singleton. unfold Serializer.wellFormedImage.
    repeat (split; [first [reflexivity | compute_done]|]).
    exists 2, [0; 1].
    repeat (split; [first [reflexivity | compute_done]|]).
    reflexivity.
  - apply Forall_singleton. unfold Csv.safeOptionals. simpl.
    unfold Serializer.safeInteger. split_and!; reflexivity.
Defined.

(** ** Sampling the data set *)

Section SamplingFacts.
Import JS Runtime Sampling.

Lemma foldl_pushTimes (count : nat → Z) (entries : list (nat * Z)) (acc : list Z) :
  foldl (λ instances entry, pushTimes (count entry.1) entry.2 instances) acc entries
  = acc ++ mjoin ((λ entry, replicate (Z.to_nat (count entry.1)) entry.2) <$> entries).
Proof.
  revert acc. induction entries as [|entry entries IH]; intros acc; simpl.
  - by rewrite app_nil_r.
  - rewrite IH. unfold pushTimes. by rewrite <- app_assoc.
Qed.

(** The instances in closed form: the classes in order, each repeated as
    many times as its share. *)
Lemma allClassInstances_blocks (objectCount : Z) (uniqueClasses : list Z) :
  0 < objectCount → uniqueClasses ≠ [] →
  allClassInstances objectCount uniqueClasses
  = mjoin (imap (λ index classId,
                   replicate (Z.to_nat (share objectCount (length uniqueClasses) index)) classId)
                uniqueClasses).
Proof.
  intros Hcount Hne. unfold allClassInstances.
  rewrite bool_decide_eq_true_2 by done.
  rewrite bool_decide_eq_true_2 by (destruct uniqueClasses; [done|simpl; lia]).
  cbn [andb].
  destruct uniqueClasses as [|only [|second rest]]; [done| |].
  - unfold pushTimes, share. cbn [imap mjoin list_join app length].
    rewrite app_nil_r. change (Z.of_nat 1) with 1. rewrite Z.div_1_r, Z.rem_1_r.
    rewrite bool_decide_eq_false_2 by lia. by rewrite Z.add_0_r.
  - set (classes := only :: second :: rest).
    cbv zeta.
    etransitivity;
      [exact (foldl_pushTimes
                (λ index, objectCount / Z.of_nat (length classes)
                          + (if bool_decide (Z.of_nat index
                                             < Z.rem objectCount (Z.of_nat (length classes)))
                             then 1 else 0))
                (imap pair classes) [])|].
    cbn [app]. rewrite fmap_imap. reflexivity.
Qed.

Lemma length_blocks (f : nat → nat) (classes : list Z) (k : nat) :
  length (mjoin (imap (λ index classId, replicate (f (k + index)%nat) classId) classes))
  = sum_list_with f (seq k (length classes)).
Proof.
  revert k. induction classes as [|c classes IH]; intros k; [done|].
  rewrite imap_cons. cbn [mjoin list_join length seq sum_list_with].
  rewrite length_app, length_replicate, Nat.add_0_r. f_equal.
  rewrite <- (IH (S k)). do 2 f_equal. apply imap_ext. intros i x _. simpl.
  by rewrite Nat.add_succ_r.
Qed.

Lemma sum_shares (base rem : Z) (n : nat) :
  0 ≤ base → 0 ≤ rem →
  sum_list_with (λ index, Z.to_nat (base + (if bool_decide (Z.of_nat index < rem) then 1 else 0)))
                (seq 0 n)
  = (n * Z.to_nat base + Nat.min n (Z.to_nat rem))%nat.
Proof.
  intros Hbase Hrem. induction n as [|n IH]; [done|].
  rewrite seq_S, sum_list_with_app, IH. cbn [sum_list_with Nat.add].
  case_bool_decide; lia.
Qed.

Lemma occ_app (c : Z) (xs ys : list Z) :
  Scoring.occ c (xs ++ ys) = (Scoring.occ c xs + Scoring.occ c ys)%nat.
Proof. unfold Scoring.occ. by rewrite filter_app, length_app. Qed.

Lemma occ_replicate (c d : Z) (n : nat) :
  Scoring.occ c (replicate n d) = if decide (d = c) then n else 0%nat.
Proof.
  induction n as [|n IH]; simpl.
  - by destruct (decide (d = c)).
  - rewrite occ_cons, IH. destruct (decide (d = c)); lia.
Qed.

Lemma occ_blocks_absent (f : nat → nat) (classes : list Z) (c : Z) :
  c ∉ classes →
  Scoring.occ c (mjoin (imap (λ index classId, replicate (f index) classId) classes)) = 0%nat.
Proof.
  revert f. induction classes as [|d classes IH]; intros f Hc; [done|].
  apply not_elem_of_cons in Hc as [Hd Hc].
  rewrite imap_cons. cbn [mjoin list_join].
  rewrite occ_app, occ_replicate, decide_False by done.
  by apply (IH (f ∘ S)).
Qed.

Lemma occ_blocks (f : nat → nat) (classes : list Z) (i : nat) (c : Z) :
  NoDup classes → classes !! i = Some c →
  Scoring.occ c (mjoin (imap (λ index classId, replicate (f index) classId) classes)) = f i.
Proof.
  revert f i. induction classes as [|d classes IH]; intros f i Hnd Hi; [done|].
  apply NoDup_cons in Hnd as [Hd Hnd].
  rewrite imap_cons.
  change (imap ((λ index classId, replicate (f index) classId) ∘ S) classes)
    with (imap (λ index classId, replicate ((f ∘ S) index) classId) classes).
  cbn [mjoin list_join]. rewrite occ_app, occ_replicate.
  destruct i as [|i]; simpl in Hi.
  - injection Hi as ->. rewrite decide_True by done.
    rewrite (occ_blocks_absent (f ∘ S)) by done. lia.
  - rewrite decide_False by (intros ->; apply Hd; by eapply list_elem_of_lookup_2).
    exact (IH (f ∘ S) i Hnd Hi).
Qed.

Lemma filter_submseteq {A} (f : A → bool) (xs : list A) : List.filter f xs ⊆+ xs.
Proof.
  induction xs as [|x xs IH]; simpl; [done|].
  destruct (f x); [by apply submseteq_skip|by apply submseteq_cons].
Qed.

Lemma slice0_take {A} (end_ : Z) (xs : list A) :
  0 ≤ end_ → slice0 end_ xs = take (Z.to_nat end_) xs.
Proof.
  intros Hend. unfold slice0. cbv zeta.
  rewrite (proj2 (Z.ltb_ge end_ 0)) by done.
  destruct (Z.le_gt_cases end_ (Z.of_nat (length xs))).
  - by rewrite Z.min_l.
  - rewrite Z.min_r, Nat2Z.id by lia. rewrite !take_ge; [done|lia..].
Qed.

End SamplingFacts.

(** X15. The class instances of an image are as many as its objects when
    the image has objects and classes, and none otherwise: the ground-truth
    class list and the ground-truth count of a sampled image agree. *)
Theorem allClassInstances_length (objectCount : Z) (uniqueClasses : list Z) :
  length (Sampling.allClassInstances objectCount uniqueClasses)
  = if bool_decide (0 < objectCount ∧ uniqueClasses ≠ []) then Z.to_nat objectCount else 0%nat.
Proof.
  case_bool_decide as Hcase.
  - destruct Hcase as [Hcount Hne].
    rewrite allClassInstances_blocks by done.
    assert (0 < length uniqueClasses)%nat as Hlen by (destruct uniqueClasses; [done|simpl; lia]).
    etransitivity;
      [exact (length_blocks
                (λ index, Z.to_nat (Sampling.share objectCount (length uniqueClasses) index))
                uniqueClasses 0)|].
    unfold Sampling.share. rewrite Z.rem_mod_nonneg by lia.
    rewrite sum_shares.
    + pose proof (Z.mod_pos_bound objectCount (Z.of_nat (length uniqueClasses)) ltac:(lia)).
      pose proof (Z.div_mod objectCount (Z.of_nat (length uniqueClasses)) ltac:(lia)).
      assert (0 ≤ objectCount / Z.of_nat (length uniqueClasses)) by (apply Z.div_pos; lia).
      rewrite Nat.min_r by lia. nia.
    + apply Z.div_pos; lia.
    + apply Z.mod_pos_bound. lia.
  - unfold Sampling.allClassInstances.
    destruct (decide (0 < objectCount)) as [Hcount|Hcount].
    + destruct uniqueClasses as [|c cs]; [|exfalso; by apply Hcase].
      rewrite bool_decide_eq_true_2 by done. by rewrite bool_decide_eq_false_2 by (simpl; lia).
    + by rewrite bool_decide_eq_false_2 by done.
Qed.

(** X16. The objects of an image are shared out evenly among its classes:
    when the classes are distinct, the class at position [i] stands for the
    quotient of the count by the number of classes, and for one more when
    [i] is below the remainder; no other class id appears. *)
Theorem allClassInstances_shares
    (objectCount : Z) (uniqueClasses : list Z) (i : nat) (classId : Z) :
  0 < objectCount → NoDup uniqueClasses → uniqueClasses !! i = Some classId →
  Scoring.occ classId (Sampling.allClassInstances objectCount uniqueClasses)
  = Z.to_nat (Sampling.share objectCount (length uniqueClasses) i)
  ∧ ∀ c, c ∈ Sampling.allClassInstances objectCount uniqueClasses → c ∈ uniqueClasses.
Proof.
  intros Hcount Hnd Hi.
  assert (uniqueClasses ≠ []) as Hne by (by destruct uniqueClasses).
  rewrite allClassInstances_blocks by done. split.
  - by apply (occ_blocks (λ index, Z.to_nat (Sampling.share objectCount (length uniqueClasses) index))).
  - intros c (block & Hc & Hblock)%list_elem_of_join.
    apply elem_of_lookup_imap in Hblock as (j & d & -> & Hj).
    apply elem_of_replicate_inv in Hc as ->. by eapply list_elem_of_lookup_2.
Qed.

Lemma allClassInstances_shares_witness :
  Scoring.occ 7 (Sampling.allClassInstances 5 [7; 9]) = 3%nat
  ∧ ∀ c, c ∈ Sampling.allClassInstances 5 [7; 9] → c ∈ [7; 9].
Proof.
  apply (allClassInstances_shares 5 [7; 9] 0 7).
  - lia.
  - compute_done.
  - reflexivity.
Defined.

(** X17. A sample holds as many images as asked for, or all the images of
    the subset when there are fewer; its images are images of the data set,
    none taken twice, all of the subset asked for, pending and without
    prediction, each with one class name for each class instance. *)
Theorem generateRandomSample_sample
    (aircraftOntology : list Ontology.AircraftClass)
    (shuffle : list Sampling.DatasetImage → list Sampling.DatasetImage)
    (allImages : list Sampling.DatasetImage) (sampleSize : Z) (subset : Config.Subset) :
  (∀ images, shuffle images ≡ₚ images) → 0 ≤ sampleSize →
  let available :=
    List.filter (λ img, bool_decide (Sampling.subset img = Sampling.subsetName subset))
                allImages in
  let sample :=
    Sampling.generateRandomSample aircraftOntology shuffle allImages sampleSize subset in
  length sample = Nat.min (Z.to_nat sampleSize) (length available)
  ∧ Model.id <$> sample ⊆+ Sampling.id <$> allImages
  ∧ Forall (λ img,
              Model.subset img = Sampling.subsetName subset
              ∧ Model.status img = Model.pending
              ∧ Model.score img = None
              ∧ Model.predictedObjects img = None
              ∧ Model.predictedClasses img = None
              ∧ length (Model.actualClassNames img) = length (Model.actualClasses img))
           sample.
Proof.
  intros Hshuffle Hsize available sample. subst sample.
  unfold Sampling.generateRandomSample. cbv zeta. fold available.
  rewrite slice0_take by done. split_and!.
  - rewrite length_fmap, length_take, (Permutation_length (Hshuffle available)). lia.
  - rewrite <- list_fmap_compose.
    change (Model.id ∘ Sampling.sampleImage aircraftOntology) with Sampling.id.
    apply fmap_submseteq. etransitivity; [apply submseteq_take|].
    rewrite Hshuffle. apply filter_submseteq.
  - apply Forall_fmap, Forall_forall. intros img Himg.
    assert (img ∈ available) as Havailable.
    { rewrite <- (Hshuffle available). eapply elem_of_submseteq; [exact Himg|].
      apply submseteq_take. }
    apply list_elem_of_In, filter_In in Havailable as [_ Hsubset].
    apply bool_decide_eq_true in Hsubset. simpl.
    split_and!; try done. by rewrite length_fmap.
Qed.

Lemma generateRandomSample_sample_witness :
  let sample :=
    Sampling.generateRandomSample Sampling.exampleOntology reverse Sampling.exampleImages 5
      Config.train in
  length sample = 2%nat
  ∧ Model.id <$> sample ⊆+ Sampling.id <$> Sampling.exampleImages
  ∧ Forall (λ img,
              Model.subset img = Sampling.subsetName Config.train
              ∧ Model.status img = Model.pending
              ∧ Model.score img = None
              ∧ Model.predictedObjects img = None
              ∧ Model.predictedClasses img = None
              ∧ length (Model.actualClassNames img) = length (Model.actualClasses img))
           sample.
Proof.
  apply (generateRandomSample_sample Sampling.exampleOntology reverse Sampling.exampleImages 5
           Config.train).
  - intros images. apply reverse_Permutation.
  - lia.
Defined.

(** ** Providers and prices *)

Section CostFacts.
Import JS Runtime Cost.

Lemma div_Num (x y : Q) : ¬ (y == 0)%Q → div (Num x) (Num y) = Num (x / y).
Proof.
  intros Hy. unfold div. destruct (Qeq_bool y 0) eqn:E; [|done].
  by apply Qeq_bool_eq in E.
Qed.

Lemma fallback_priced (w h pt rt : Q) :
  calculateAPICostFallback (Num w) (Num h) (Num pt) (Num rt)
  = Num (priced (5 # 1000) (15 # 1000) w h pt rt).
Proof.
  unfold calculateAPICostFallback. cbv zeta. cbn [mul].
  rewrite !div_Num by done. reflexivity.
Qed.

Lemma orDefault_falsy (fallback : Q) (x : option Q) :
  falsy x = true → orDefault fallback x = fallback.
Proof. destruct x as [q|]; simpl; [|done]. by intros ->. Qed.

Lemma orDefault_truthy (fallback : Q) (x : option Q) :
  falsy x = false → ∃ q, x = Some q ∧ orDefault fallback x = q ∧ ¬ (q == 0)%Q.
Proof.
  destruct x as [q|]; simpl; [|done]. intros Hq. exists q. rewrite Hq.
  split_and!; try done. intros Hz. apply Qeq_bool_iff in Hz. congruence.
Qed.

Lemma orDefault_nonneg (fallback : Q) (x : option Q) :
  (0 <= fallback)%Q → from_option (λ price, (0 <= price)%Q) True x →
  (0 <= orDefault fallback x)%Q.
Proof. destruct x as [q|]; simpl; [|done]. by destruct (Qeq_bool q 0). Qed.

Lemma cost_priced providers provider model (w h : Q) :
  ∃ inputPrice outputPrice,
    (∀ pt rt,
       calculateAPICost providers provider model (Num w) (Num h) (Num pt) (Num rt)
       = Num (priced inputPrice outputPrice w h pt rt))
    ∧ ((∀ m, Providers.getModelById providers provider model = Some m → pricesNotNegative m) →
       (0 <= inputPrice)%Q ∧ (0 <= outputPrice)%Q).
Proof.
  unfold calculateAPICost. cbv zeta.
  destruct (Providers.getProviderById providers provider) as [p|];
    [destruct (Providers.getModelById providers provider model) as [m|]|].
  - eexists _, _. split.
    + intros pt rt. cbn [mul]. rewrite !div_Num by done. reflexivity.
    + intros Hprices. destruct (Hprices m eq_refl) as [Hin Hout].
      split; by apply orDefault_nonneg.
  - eexists _, _. split; [intros pt rt; apply fallback_priced|done].
  - eexists _, _. split; [intros pt rt; apply fallback_priced|done].
Qed.

Lemma tiles_nonneg (w h : Q) :
  (0 <= w)%Q → (0 <= h)%Q → (0 <= inject_Z (Qceiling (w * h / (512 * 512))))%Q.
Proof.
  intros Hw Hh. eapply Qle_trans; [|apply Qle_ceiling].
  apply Qle_shift_div_l; [done|]. rewrite Qmult_0_l. by apply Qmult_le_0_compat.
Qed.

Lemma priced_monotone (pin pout w h pt pt' rt rt' : Q) :
  (0 <= pin)%Q → (0 <= pout)%Q → (0 <= w)%Q → (0 <= h)%Q →
  (0 <= pt <= pt')%Q → (0 <= rt <= rt')%Q →
  (0 <= priced pin pout w h pt rt <= priced pin pout w h pt' rt')%Q.
Proof.
  intros Hpin Hpout Hw Hh [Hpt Hpt'] [Hrt Hrt']. unfold priced.
  pose proof (tiles_nonneg w h Hw Hh) as Htiles.
  set (tiles := inject_Z (Qceiling (w * h / (512 * 512)))) in *.
  assert (0 <= tiles * 170)%Q as Himage by (apply Qmult_le_0_compat; done).
  assert (∀ x y : Q, 0 <= x → x <= y → 0 <= x / 1000 <= y / 1000)%Q as Hdiv.
  { intros x y Hx Hxy. split.
    - apply Qle_shift_div_l; [done|]. by rewrite Qmult_0_l.
    - apply Qmult_le_compat_r; [done|]. done. }
  destruct (Hdiv (pt + tiles * 170) (pt' + tiles * 170))%Q as [Hin0 Hin1].
  { rewrite <- (Qplus_0_l 0). by apply Qplus_le_compat. }
  { apply Qplus_le_compat; [done|apply Qle_refl]. }
  destruct (Hdiv rt rt' Hrt Hrt') as [Hout0 Hout1].
  split.
  - rewrite <- (Qplus_0_l 0). apply Qplus_le_compat; by apply Qmult_le_0_compat.
  - apply Qplus_le_compat; by apply Qmult_le_compat_r.
Qed.


Lemma find_insert_other (providers : list Providers.LLMProvider) (providerId : str)
    (acc : gmap str (list LLM.LLMModel)) :
  providerId ∉ Providers.id <$> providers →
  foldl (λ result provider, <[Providers.id provider := Providers.models provider]> result)
        acc providers !! providerId
  = acc !! providerId.
Proof.
  revert acc. induction providers as [|p providers IH]; intros acc Hnot; [done|].
  cbn [fmap list_fmap] in Hnot. apply not_elem_of_cons in Hnot as [Hp Hnot].
  cbn [foldl]. rewrite IH by done. by rewrite lookup_insert_ne.
Qed.

End CostFacts.

(** X18. A model whose prices are missing from the table, or are 0, is
    priced like a model that the table does not know: at the fallback
    prices. *)
Theorem calculateAPICost_default_pricing
    (providers : list Providers.LLMProvider) (provider model : JS.str)
    (imageWidth imageHeight promptTokens responseTokens : JS.number) :
  (∀ m, Providers.getModelById providers provider model = Some m →
        Runtime.falsy (LLM.costPer1kInput m) = true
        ∧ Runtime.falsy (LLM.costPer1kOutput m) = true) →
  Cost.calculateAPICost providers provider model
    imageWidth imageHeight promptTokens responseTokens
  = Cost.calculateAPICostFallback imageWidth imageHeight promptTokens responseTokens.
Proof.
  intros Hprices. unfold Cost.calculateAPICost. cbv zeta.
  destruct (Providers.getProviderById providers provider) as [p|]; [|done].
  destruct (Providers.getModelById providers provider model) as [m|]; [|done].
  destruct (Hprices m eq_refl) as [Hin Hout].
  by rewrite !orDefault_falsy by done.
Qed.

Lemma calculateAPICost_default_pricing_witness :
  Cost.calculateAPICost Cost.exampleProviders (JS.js "openai") (JS.js "local")
    (JS.Num 1024) (JS.Num 1024) (JS.Num 200) (JS.Num 100)
  = Cost.calculateAPICostFallback (JS.Num 1024) (JS.Num 1024) (JS.Num 200) (JS.Num 100).
Proof.
  apply (calculateAPICost_default_pricing Cost.exampleProviders (JS.js "openai") (JS.js "local")).
  intros m Hm. vm_compute in Hm. injection Hm as <-. split; reflexivity.
Defined.

(** X19. For an image and token counts that are not negative, and prices
    that are not negative, the cost is neither NaN nor negative, and it does
    not decrease when the prompt or the response grows. *)
Theorem calculateAPICost_monotone
    (providers : list Providers.LLMProvider) (provider model : JS.str)
    (imageWidth imageHeight promptTokens promptTokens' responseTokens responseTokens' : Q) :
  (0 <= imageWidth)%Q → (0 <= imageHeight)%Q →
  (0 <= promptTokens <= promptTokens')%Q → (0 <= responseTokens <= responseTokens')%Q →
  (∀ m, Providers.getModelById providers provider model = Some m → Cost.pricesNotNegative m) →
  let cost :=
    Cost.calculateAPICost providers provider model (JS.Num imageWidth) (JS.Num imageHeight)
      (JS.Num promptTokens) (JS.Num responseTokens) in
  let cost' :=
    Cost.calculateAPICost providers provider model (JS.Num imageWidth) (JS.Num imageHeight)
      (JS.Num promptTokens') (JS.Num responseTokens') in
  JS.notNegative cost ∧ JS.notNegative cost' ∧ Runtime.lessEq cost cost' = true.
Proof.
  intros Hw Hh Hpt Hrt Hprices cost cost'. subst cost cost'.
  destruct (cost_priced providers provider model imageWidth imageHeight)
    as (pin & pout & Hcost & Hnonneg).
  destruct (Hnonneg Hprices) as [Hpin Hpout].
  rewrite !Hcost. cbn [JS.notNegative Runtime.lessEq].
  destruct (priced_monotone pin pout imageWidth imageHeight
              promptTokens promptTokens' responseTokens responseTokens')
    as [Hzero Hle]; try done.
  split_and!; [done| |by apply Qle_bool_iff].
  by eapply Qle_trans.
Qed.

Lemma calculateAPICost_monotone_witness :
  let cost :=
    Cost.calculateAPICost Cost.exampleProviders (JS.js "openai") (JS.js "gpt-4o")
      (JS.Num 1024) (JS.Num 768) (JS.Num 200) (JS.Num 100) in
  let cost' :=
    Cost.calculateAPICost Cost.exampleProviders (JS.js "openai") (JS.js "gpt-4o")
      (JS.Num 1024) (JS.Num 768) (JS.Num 300) (JS.Num 100) in
  JS.notNegative cost ∧ JS.notNegative cost' ∧ Runtime.lessEq cost cost' = true.
Proof.
  apply (calculateAPICost_monotone Cost.exampleProviders (JS.js "openai") (JS.js "gpt-4o")
           1024 768 200 300 100 100).
  - discriminate.
  - discriminate.
  - split; discriminate.
  - split; discriminate.
  - intros m Hm. vm_compute in Hm. injection Hm as <-. split; discriminate.
Defined.



(** X21. The estimate of a run is the number of images times the cost of
    one image of a single tile with a prompt of 200 tokens and a response of
    100 tokens, for a selected model whose two prices are configured and not
    0. *)
Theorem calculateEstimatedCost_per_image
    (selectedModels : list Orchestrator.SelectedModel)
    (providers : list Providers.LLMProvider) (modelId : JS.str)
    (model : Orchestrator.SelectedModel) (modelConfig : LLM.LLMModel) (sampleSize : Q) :
  List.find (λ m, bool_decide (Orchestrator.id m = modelId)) selectedModels = Some model →
  Providers.getModelById providers (Orchestrator.provider model) modelId = Some modelConfig →
  Runtime.falsy (LLM.costPer1kInput modelConfig) = false →
  Runtime.falsy (LLM.costPer1kOutput modelConfig) = false →
  ∃ estimate perImage,
    Cost.calculateEstimatedCost selectedModels providers modelId (JS.Num sampleSize)
    = JS.Num estimate
    ∧ Cost.calculateAPICost providers (Orchestrator.provider model) modelId
        (JS.Num 512) (JS.Num 512) (JS.Num 200) (JS.Num 100) = JS.Num perImage
    ∧ (estimate == perImage * sampleSize)%Q.
Proof.
  intros Hfind Hmodel Hin Hout.
  unfold Cost.calculateEstimatedCost, Cost.calculateAPICost. cbv zeta. rewrite Hfind.
  change (p ← List.find (λ p, bool_decide (Providers.id p = Orchestrator.provider model))
                        providers;
          List.find (λ m, bool_decide (LLM.id m = modelId)) (Providers.models p))
    with (Providers.getModelById providers (Orchestrator.provider model) modelId).
  rewrite Hmodel, Hin, Hout. cbn [orb].
  destruct (Providers.getProviderById providers (Orchestrator.provider model)) as [p|] eqn:Hp.
  2:{ unfold Providers.getModelById in Hmodel. by rewrite Hp in Hmodel. }
  destruct (orDefault_truthy (5 # 1000) _ Hin) as (pin & Hpin & -> & _).
  destruct (orDefault_truthy (15 # 1000) _ Hout) as (pout & Hpout & -> & _).
  rewrite Hpin, Hpout. cbn [default JS.mul Runtime.add].
  rewrite !div_Num by done. cbn [JS.mul Runtime.add Runtime.Math_ceil].
  eexists _, _. split; [reflexivity|]. split; [reflexivity|].
  replace (Qceiling (512 * 512 / (512 * 512))) with 1 by (vm_compute; reflexivity).
  unfold id, Qdiv. change (inject_Z 1) with 1%Q. ring.
Qed.

Lemma calculateEstimatedCost_per_image_witness :
  ∃ estimate perImage,
    Cost.calculateEstimatedCost [Orchestrator.exampleModel] Cost.exampleProviders
      (JS.js "gpt-4o") (JS.Num 50) = JS.Num estimate
    ∧ Cost.calculateAPICost Cost.exampleProviders (JS.js "openai") (JS.js "gpt-4o")
        (JS.Num 512) (JS.Num 512) (JS.Num 200) (JS.Num 100) = JS.Num perImage
    ∧ (estimate == perImage * 50)%Q.
Proof.
  apply (calculateEstimatedCost_per_image [Orchestrator.exampleModel] Cost.exampleProviders
           (JS.js "gpt-4o") Orchestrator.exampleModel
           {| LLM.id := JS.js "gpt-4o"; LLM.name := JS.js "GPT-4o";
              LLM.provider := JS.js "openai"; LLM.supportsVision := true;
              LLM.maxTokens := Some 4096%Q; LLM.costPer1kTokens := Some (1 # 400)%Q;
              LLM.costPer1kInput := Some (1 # 400)%Q;
              LLM.costPer1kOutput := Some (1 # 100)%Q |} 50); reflexivity.
Defined.

(** X22. When the providers of the table have distinct ids, the table of
    models by provider gives, for a provider that [getProviderById] finds,
    the models of that provider. *)
Theorem getModelsByProvider_lookup
    (providers : list Providers.LLMProvider) (providerId : JS.str)
    (provider : Providers.LLMProvider) :
  NoDup (Providers.id <$> providers) →
  Providers.getProviderById providers providerId = Some provider →
  Providers.getModelsByProvider providers !! providerId = Some (Providers.models provider).
Proof.
  unfold Providers.getModelsByProvider, Providers.getProviderById.
  generalize (∅ : gmap JS.str (list LLM.LLMModel)).
  induction providers as [|p providers IH]; intros acc Hnd Hfind; [done|].
  cbn [fmap list_fmap] in Hnd. apply NoDup_cons in Hnd as [Hp Hnd].
  cbn [List.find] in Hfind. cbn [foldl]. case_bool_decide as Hid.
  - injection Hfind as <-. subst providerId.
    rewrite find_insert_other by done. apply lookup_insert_eq.
  - by apply IH.
Qed.

Lemma getModelsByProvider_lookup_witness :
  Providers.getModelsByProvider Cost.exampleProviders !! JS.js "openai"
  = Providers.models <$> head Cost.exampleProviders.
Proof.
  apply (getModelsByProvider_lookup Cost.exampleProviders (JS.js "openai")).
  - compute_done.
  - reflexivity.
Defined.

(** ** The page state: totals, models, samples and retries *)

Section AggregateFacts.
Import JS Runtime Hook.

Lemma orZero_unit (x : option number) :
  (∀ n, x = Some n → inUnit n) → inUnit (orZero x).
Proof.
  intros Hx. destruct x as [[q| | |]|]; simpl.
  - specialize (Hx _ eq_refl). simpl in Hx.
    destruct (Qeq_bool q 0); [split; discriminate|done].
  - exfalso. exact (Hx _ eq_refl).
  - exact (Hx _ eq_refl).
  - exact (Hx _ eq_refl).
  - split; discriminate.
Qed.

Lemma sum_unit {A} (term : A → number) (xs : list A) (start : Q) :
  Forall (λ x, inUnit (term x)) xs →
  ∃ total, foldl (λ sum x, add sum (term x)) (Num start) xs = Num total
           ∧ (start <= total <= start + inject_Z (Z.of_nat (length xs)))%Q.
Proof.
  intros Hxs. revert start. induction Hxs as [|x xs Hx _ IH]; intros start.
  - exists start. split; [done|]. split; [apply Qle_refl|].
    simpl. rewrite Qplus_0_r. apply Qle_refl.
  - cbn [foldl]. destruct (term x) as [t| | |]; try done. simpl in Hx. destruct Hx as [Ht0 Ht1].
    cbn [add]. destruct (IH (start + t)%Q) as (total & -> & Hlo & Hhi).
    exists total. split; [done|]. split.
    + eapply Qle_trans; [|exact Hlo]. rewrite <- (Qplus_0_r start) at 1.
      by apply Qplus_le_compat; [apply Qle_refl|].
    + eapply Qle_trans; [exact Hhi|]. cbn [length].
      rewrite Nat2Z.inj_succ, <- Z.add_1_l, inject_Z_plus, Qplus_assoc.
      apply Qplus_le_compat; [|apply Qle_refl].
      by apply Qplus_le_compat; [apply Qle_refl|].
Qed.

Lemma average_unit {A} (term : A → number) (xs : list A) :
  xs ≠ [] → Forall (λ x, inUnit (term x)) xs →
  inUnit (div (foldl (λ sum x, add sum (term x)) (Num 0) xs) (ofNat (length xs))).
Proof.
  intros Hne Hxs. destruct (sum_unit term xs 0 Hxs) as (total & -> & Hlo & Hhi).
  rewrite Qplus_0_l in Hhi.
  assert (0 < inject_Z (Z.of_nat (length xs)))%Q as Hpos.
  { change 0%Q with (inject_Z 0). rewrite <- Zlt_Qlt. destruct xs; [done|simpl; lia]. }
  unfold ofNat, ofZ. rewrite div_Num.
  - simpl. by apply fraction_unit.
  - intros Hz. rewrite Hz in Hpos. by apply Qlt_irrefl in Hpos.
Qed.

Lemma filter_nil_iff {A} (f : A → bool) (xs : list A) :
  List.filter f xs = [] ↔ Forall (λ x, f x = false) xs.
Proof.
  induction xs as [|x xs IH]; simpl; [by split; [constructor|]|].
  destruct (f x) eqn:Hx.
  - split; [done|]. intros [Hx' _]%Forall_cons. congruence.
  - rewrite IH. split; [by constructor|]. by intros [_ ?]%Forall_cons.
Qed.

End AggregateFacts.

(** X23. When at least one image of a run is completed and the two
    accuracies of every scored image lie between 0 and 1, the averages that
    close the run lie between 0 and 1. *)
Theorem run_averages_in_unit (results : list Model.EvaluationImage) :
  (∃ img, img ∈ results ∧ Hook.isCompleted img = true) →
  Forall (λ img, ∀ sc, Model.score img = Some sc →
                       JS.inUnit (Scoring.countAccuracy sc)
                       ∧ JS.inUnit (Scoring.classAccuracy sc)) results →
  JS.inUnit (Hook.runAverageCountAccuracy results)
  ∧ JS.inUnit (Hook.runAverageClassAccuracy results).
Proof.
  intros (img & Himg & Hcompleted) Hscores.
  unfold Hook.runAverageCountAccuracy, Hook.runAverageClassAccuracy. cbv zeta.
  assert (List.filter Hook.isCompleted results ≠ []) as Hne.
  { intros Hnil. apply filter_nil_iff in Hnil.
    apply (proj1 (Forall_forall _ _) Hnil) in Himg. congruence. }
  assert (Forall (λ img, ∀ sc, Model.score img = Some sc →
                               JS.inUnit (Scoring.countAccuracy sc)
                               ∧ JS.inUnit (Scoring.classAccuracy sc))
                 (List.filter Hook.isCompleted results)) as Hfiltered.
  { apply Forall_forall. intros x Hx%list_elem_of_In%filter_In.
    apply (proj1 (Forall_forall _ _) Hscores). apply list_elem_of_In. tauto. }
  split.
  - apply (average_unit (λ img, Runtime.orZero (Scoring.countAccuracy <$> Model.score img)));
      [done|].
    eapply Forall_impl; [exact Hfiltered|]. intros x Hx. simpl. apply orZero_unit.
    intros n Hn. destruct (Model.score x) as [sc|] eqn:Hsc; [|done].
    injection Hn as <-. by apply (Hx sc Hsc).
  - apply (average_unit (λ img, Runtime.orZero (Scoring.classAccuracy <$> Model.score img)));
      [done|].
    eapply Forall_impl; [exact Hfiltered|]. intros x Hx. simpl. apply orZero_unit.
    intros n Hn. destruct (Model.score x) as [sc|] eqn:Hsc; [|done].
    injection Hn as <-. by apply (Hx sc Hsc).
Qed.

Lemma run_averages_in_unit_witness :
  JS.inUnit (Hook.runAverageCountAccuracy [Serializer.exampleImage])
  ∧ JS.inUnit (Hook.runAverageClassAccuracy [Serializer.exampleImage]).
Proof.
  apply (run_averages_in_unit [Serializer.exampleImage]).
  - exists Serializer.exampleImage. split; [by left|reflexivity].
  - apply Forall_singleton. intros sc Hsc. injection Hsc as <-.
    split; simpl; split; discriminate.
Defined.

(** X24. When no image is completed (a run stopped at once, or one whose
    images all failed), the averages that close a run are NaN, the quotient
    of 0 by 0, while the averages that the loading of imported results
    computes are 0. *)
Theorem averages_without_completed_image
    (results : list Model.EvaluationImage) (imported : list Imported.Image) :
  Forall (λ img, Hook.isCompleted img = false) results →
  Forall (λ img, Hook.isCompletedImport img = false) imported →
  Hook.runAverageCountAccuracy results = JS.NaN
  ∧ Hook.runAverageClassAccuracy results = JS.NaN
  ∧ Hook.loadedAverageCountAccuracy imported = JS.Num 0
  ∧ Hook.loadedAverageClassAccuracy imported = JS.Num 0.
Proof.
  intros Hnone Hnone'.
  unfold Hook.runAverageCountAccuracy, Hook.runAverageClassAccuracy,
    Hook.loadedAverageCountAccuracy, Hook.loadedAverageClassAccuracy. cbv zeta.
  rewrite (proj2 (filter_nil_iff Hook.isCompleted results) Hnone).
  rewrite (proj2 (filter_nil_iff Hook.isCompletedImport imported) Hnone').
  done.
Qed.

Lemma averages_without_completed_image_witness :
  Hook.runAverageCountAccuracy
    (Sampling.generateRandomSample Sampling.exampleOntology reverse Sampling.exampleImages 5
       Config.train)
  = JS.NaN.
Proof.
  apply (averages_without_completed_image
           (Sampling.generateRandomSample Sampling.exampleOntology reverse
              Sampling.exampleImages 5 Config.train) []).
  - by repeat constructor.
  - constructor.
Defined.

Section SelectionFacts.
Import JS Runtime Hook.

Lemma foldl_insert_other {A V} (key : A → str) (value : A → V) (xs : list A)
    (acc : gmap str V) (k : str) :
  k ∉ key <$> xs →
  foldl (λ m x, <[key x := value x]> m) acc xs !! k = acc !! k.
Proof.
  revert acc. induction xs as [|x xs IH]; intros acc Hnot; [done|].
  cbn [fmap list_fmap] in Hnot. apply not_elem_of_cons in Hnot as [Hx Hnot].
  cbn [foldl]. rewrite IH by done. by rewrite lookup_insert_ne.
Qed.

Lemma foldl_insert_member {A V} (key : A → str) (value : A → V) (xs : list A)
    (acc : gmap str V) (x : A) :
  NoDup (key <$> xs) → x ∈ xs →
  foldl (λ m x, <[key x := value x]> m) acc xs !! key x = Some (value x).
Proof.
  revert acc. induction xs as [|y xs IH]; intros acc Hnd Hx; [by apply elem_of_nil in Hx|].
  cbn [fmap list_fmap] in Hnd. apply NoDup_cons in Hnd as [Hy Hnd].
  cbn [foldl]. apply elem_of_cons in Hx as [->|Hx].
  - rewrite foldl_insert_other by done. apply lookup_insert_eq.
  - by apply IH.
Qed.

Lemma find_id_None (modelId : str) (models : list Orchestrator.SelectedModel) :
  List.find (λ m, bool_decide (Orchestrator.id m = modelId)) models = None
  ↔ modelId ∉ Orchestrator.id <$> models.
Proof.
  induction models as [|m models IH]; simpl; [split; [intros _; apply not_elem_of_nil|done]|].
  rewrite not_elem_of_cons. case_bool_decide as Hm.
  - split; [done|]. intros [Hne _]. by subst.
  - rewrite IH. split; [by split|tauto].
Qed.

Lemma find_app_None {A} (f : A → bool) (xs ys : list A) :
  List.find f xs = None → List.find f (xs ++ ys) = List.find f ys.
Proof. induction xs as [|x xs IH]; simpl; [done|]. by destruct (f x). Qed.

Lemma filter_keep_all {A} (f : A → bool) (xs : list A) :
  Forall (λ x, f x = true) xs → List.filter f xs = xs.
Proof. induction 1 as [|x xs Hx _ IH]; simpl; [done|]. by rewrite Hx, IH. Qed.

Lemma filter_fmap_sublist {A B} (g : A → B) (f : A → bool) (xs : list A) :
  g <$> List.filter f xs `sublist_of` g <$> xs.
Proof.
  induction xs as [|x xs IH]; simpl; [done|].
  destruct (f x); [by apply sublist_skip|by apply sublist_cons].
Qed.

End SelectionFacts.

(** X25. Adding and removing models keeps the ids of the selected models
    distinct. Adding a model whose id is selected already changes nothing,
    whatever else the model says; a model whose id is new goes to the end
    of the selection. Removing a model removes its evaluation with it;
    removing a model that was just added, its id being new, gives back the
    selection. *)
Theorem selection_ids_distinct (model : Orchestrator.SelectedModel) (st : Hook.Selection) :
  NoDup (Orchestrator.id <$> Hook.selectedModels st) →
  NoDup (Orchestrator.id <$> Hook.selectedModels (Hook.addModel model st))
  ∧ NoDup (Orchestrator.id <$> Hook.selectedModels
                                 (Hook.removeModel (Orchestrator.id model) st))
  ∧ (Orchestrator.id model ∈ Orchestrator.id <$> Hook.selectedModels st →
     Hook.addModel model st = st)
  ∧ (Orchestrator.id model ∉ Orchestrator.id <$> Hook.selectedModels st →
     Hook.selectedModels (Hook.addModel model st) = Hook.selectedModels st ++ [model])
  ∧ Hook.addModel model (Hook.addModel model st) = Hook.addModel model st
  ∧ (Orchestrator.id model
     ∉ Orchestrator.id <$> Hook.selectedModels (Hook.removeModel (Orchestrator.id model) st))
  ∧ Hook.modelEvaluations (Hook.removeModel (Orchestrator.id model) st)
    !! Orchestrator.id model = None
  ∧ (Orchestrator.id model ∉ Orchestrator.id <$> Hook.selectedModels st →
     Hook.selectedModels (Hook.removeModel (Orchestrator.id model) (Hook.addModel model st))
     = Hook.selectedModels st).
Proof.
  intros Hnd. destruct st as [models evaluations tab]. cbn [Hook.selectedModels] in Hnd.
  unfold Hook.addModel, Hook.removeModel.
  cbn [Hook.selectedModels Hook.modelEvaluations Hook.activeTab].
  split_and!.
  - destruct (List.find _ models) as [found|] eqn:Hfind; [done|].
    apply find_id_None in Hfind. rewrite fmap_app. apply NoDup_app.
    split_and!; [done| |apply NoDup_singleton].
    intros x Hx ->%list_elem_of_singleton. done.
  - eapply sublist_NoDup; [exact Hnd|apply filter_fmap_sublist].
  - intros Hselected.
    destruct (List.find _ models) as [found|] eqn:Hfind; [done|].
    by apply find_id_None in Hfind.
  - intros Hnew. apply find_id_None in Hnew. by rewrite Hnew.
  - destruct (List.find _ models) as [found|] eqn:Hfind.
    + by rewrite Hfind.
    + assert (List.find (λ m, bool_decide (Orchestrator.id m = Orchestrator.id model))
                        (models ++ [model]) = Some model) as ->; [|done].
      rewrite find_app_None by done. simpl. by rewrite bool_decide_eq_true_2.
  - intros (m & Hm & Hin)%list_elem_of_fmap.
    apply list_elem_of_In, filter_In in Hin as [_ Hkeep].
    apply bool_decide_eq_true in Hkeep. by symmetry in Hm.
  - apply lookup_delete_eq.
  - intros Hnew. apply find_id_None in Hnew as Hfind. rewrite Hfind.
    rewrite List.filter_app. simpl. rewrite bool_decide_eq_false_2 by (by intros ?).
    rewrite app_nil_r. apply filter_keep_all, Forall_forall. intros m Hm.
    apply bool_decide_eq_true. intros Heq. apply Hnew. rewrite <- Heq.
    by apply list_elem_of_fmap_2.
Qed.

Lemma selection_ids_distinct_witness :
  let renamed :=
    {| Orchestrator.id := JS.js "gpt-4o"; Orchestrator.name := JS.js "GPT-4o (2)";
       Orchestrator.provider := JS.js "openai"; Orchestrator.providerName := JS.js "OpenAI" |} in
  let st :=
    {| Hook.selectedModels := [Orchestrator.exampleModel]; Hook.modelEvaluations := ∅;
       Hook.activeTab := JS.js "config" |} in
  Hook.addModel renamed st = st.
Proof.
  intros renamed st.
  destruct (selection_ids_distinct renamed st) as (_ & _ & Hselected & _).
  - apply NoDup_singleton.
  - apply Hselected. apply list_elem_of_singleton. reflexivity.
Defined.

(** X26. Generating a sample replaces the evaluations altogether: each
    selected model gets an evaluation of its own, all with the same sample,
    not running, without results and with no progress, and no evaluation is
    left for any other model. With no image loaded nothing changes. *)
Theorem generateSample_evaluations
    (aircraftOntology : list Ontology.AircraftClass)
    (shuffle : list Sampling.DatasetImage → list Sampling.DatasetImage)
    (allImages : list Sampling.DatasetImage) (config : Config.EvaluationConfig)
    (st : Hook.Selection) :
  allImages ≠ [] →
  NoDup (Orchestrator.id <$> Hook.selectedModels st) →
  let st' := Hook.generateSample aircraftOntology shuffle allImages config st in
  let sample :=
    Sampling.generateRandomSample aircraftOntology shuffle allImages
      (Config.sampleSize config) (Config.subset config) in
  (∀ model, model ∈ Hook.selectedModels st →
     Hook.modelEvaluations st' !! Orchestrator.id model
     = Some {| Orchestrator.model := model;
               Orchestrator.images := sample;
               Orchestrator.results := None;
               Orchestrator.isRunning := false;
               Orchestrator.currentImageIndex := 0;
               Orchestrator.progress := 0%Q;
               Orchestrator.config := config |})
  ∧ (∀ modelId, modelId ∉ Orchestrator.id <$> Hook.selectedModels st →
       Hook.modelEvaluations st' !! modelId = None)
  ∧ Hook.selectedModels st' = Hook.selectedModels st
  ∧ Hook.generateSample aircraftOntology shuffle [] config st = st.
Proof.
  intros Hne Hnd st' sample. subst st' sample. unfold Hook.generateSample. cbv zeta.
  rewrite bool_decide_eq_false_2 by (by destruct allImages).
  cbn [Hook.modelEvaluations Hook.selectedModels].
  split_and!; [| |done..].
  - intros model Hmodel.
    by apply (foldl_insert_member Orchestrator.id
                (λ model, {| Orchestrator.model := model;
                             Orchestrator.images := _;
                             Orchestrator.results := None;
                             Orchestrator.isRunning := false;
                             Orchestrator.currentImageIndex := 0;
                             Orchestrator.progress := 0%Q;
                             Orchestrator.config := config |})).
  - intros modelId Hnot.
    rewrite (foldl_insert_other Orchestrator.id
               (λ model, {| Orchestrator.model := model;
                            Orchestrator.images := _;
                            Orchestrator.results := None;
                            Orchestrator.isRunning := false;
                            Orchestrator.currentImageIndex := 0;
                            Orchestrator.progress := 0%Q;
                            Orchestrator.config := config |})) by done.
    apply lookup_empty.
Qed.

Lemma generateSample_evaluations_witness :
  Hook.selectedModels
    (Hook.generateSample Sampling.exampleOntology reverse Sampling.exampleImages
       Orchestrator.exampleConfig
       {| Hook.selectedModels := [Orchestrator.exampleModel]; Hook.modelEvaluations := ∅;
          Hook.activeTab := JS.js "config" |})
  = [Orchestrator.exampleModel].
Proof.
  apply (generateSample_evaluations Sampling.exampleOntology reverse Sampling.exampleImages
           Orchestrator.exampleConfig
           {| Hook.selectedModels := [Orchestrator.exampleModel]; Hook.modelEvaluations := ∅;
              Hook.activeTab := JS.js "config" |}).
  - discriminate.
  - compute_done.
Defined.

Section RetryFacts.
Import JS Runtime Hook.

(** An attempt that brings no text: an empty response, or an error. *)
Lemma retry_step analyze remaining retryCount response waits r :
  analyze retryCount = Return r → hasContent r = true →
  retryLoop analyze (S remaining) retryCount response waits
  = Return {| response_data := Some r; waits := waits |}.
Proof. intros Hr Hcontent. cbn [retryLoop]. by rewrite Hr, Hcontent. Qed.

End RetryFacts.

(** X27. The retry loop returns the first response that holds text, having
    called the provider again after each attempt that failed or came back
    empty, and having waited one second more before each new call than
    before the last. *)
Theorem callWithRetry_first_answer
    (analyze : nat → JS.completion Hook.LLMApiResponse) (k : nat) (r : Hook.LLMApiResponse) :
  (k < Hook.maxRetries)%nat →
  analyze k = JS.Return r → Hook.hasContent r = true →
  (∀ j r', (j < k)%nat → analyze j = JS.Return r' → Hook.hasContent r' = false) →
  Hook.callWithRetry analyze
  = JS.Return {| Hook.response_data := Some r;
                 Hook.waits := (λ j, 1000 * (Z.of_nat j + 1)) <$> seq 0 k |}.
Proof.
  intros Hk Hr Hcontent Hbefore. unfold Hook.callWithRetry, Hook.maxRetries in *.
  destruct k as [|[|[|k]]]; [| | |lia].
  - by apply retry_step.
  - cbn [Hook.retryLoop].
    destruct (analyze 0%nat) as [r0|e0] eqn:H0.
    + rewrite (Hbefore 0%nat r0) by (lia || done). cbn [bool_decide decide_rel]. simpl.
      by rewrite Hr, Hcontent.
    + simpl. by rewrite Hr, Hcontent.
  - cbn [Hook.retryLoop].
    destruct (analyze 0%nat) as [r0|e0] eqn:H0, (analyze 1%nat) as [r1|e1] eqn:H1;
      rewrite ?(Hbefore 0%nat r0), ?(Hbefore 1%nat r1) by (lia || done);
      simpl; by rewrite Hr, Hcontent.
Qed.

Lemma callWithRetry_first_answer_witness :
  Hook.callWithRetry Hook.answersSecond
  = JS.Return {| Hook.response_data := Some Hook.answer; Hook.waits := [1000] |}.
Proof.
  apply (callWithRetry_first_answer Hook.answersSecond 1 Hook.answer).
  - unfold Hook.maxRetries. lia.
  - reflexivity.
  - reflexivity.
  - intros j r' Hj Hr'. destruct j; [discriminate Hr'|lia].
Defined.

(** X28. The retry loop calls the provider three times at most and waits
    twice at most, one second and then two: its outcome depends on the first
    three attempts only. When none of the three brings text, the outcome is
    that of the third: its error is thrown again, or its empty response is
    returned. *)
Theorem callWithRetry_three_attempts (analyze : nat → JS.completion Hook.LLMApiResponse) :
  (∀ analyze', (∀ j, (j < Hook.maxRetries)%nat → analyze' j = analyze j) →
               Hook.callWithRetry analyze' = Hook.callWithRetry analyze)
  ∧ (∀ attempted, Hook.callWithRetry analyze = JS.Return attempted →
                  Hook.waits attempted `prefix_of` [1000; 2000])
  ∧ ((∀ j r, (j < Hook.maxRetries)%nat → analyze j = JS.Return r → Hook.hasContent r = false) →
     Hook.callWithRetry analyze
     = match analyze 2%nat with
       | JS.Throw e => JS.Throw e
       | JS.Return r => JS.Return {| Hook.response_data := Some r; Hook.waits := [1000; 2000] |}
       end).
Proof.
  unfold Hook.callWithRetry, Hook.maxRetries. split_and!.
  - intros analyze' Hsame. cbn [Hook.retryLoop].
    by rewrite (Hsame 0%nat), (Hsame 1%nat), (Hsame 2%nat) by lia.
  - intros attempted. cbn [Hook.retryLoop].
    destruct (analyze 0%nat) as [r0|e0], (analyze 1%nat) as [r1|e1],
             (analyze 2%nat) as [r2|e2];
      repeat match goal with |- context [Hook.hasContent ?r] => destruct (Hook.hasContent r) end;
      simpl; intros Hout; try discriminate Hout; injection Hout as <-; simpl;
      first [ by exists [1000; 2000] | by exists [2000] | by exists [] ].
  - intros Hnone. cbn [Hook.retryLoop].
    destruct (analyze 0%nat) as [r0|e0] eqn:H0, (analyze 1%nat) as [r1|e1] eqn:H1,
             (analyze 2%nat) as [r2|e2] eqn:H2;
      rewrite ?(Hnone 0%nat r0), ?(Hnone 1%nat r1), ?(Hnone 2%nat r2) by (lia || done);
      reflexivity.
Qed.

Section WipeFacts.
Import JS Orchestrator.

Lemma fmap_wipe_twice {A} (f : A → A) (xs : list A) :
  (∀ x, f (f x) = f x) → f <$> (f <$> xs) = f <$> xs.
Proof.
  intros Hf. rewrite <- list_fmap_compose. apply list_fmap_ext. intros i x _. apply Hf.
Qed.

End WipeFacts.

(** X29. Stopping twice is stopping once, resetting twice is resetting
    once, and a reset after a stop leaves the evaluations that a reset alone
    leaves. Neither stopping nor resetting touches the evaluation or the
    flag of another model, and on the model itself both keep the identity
    and the ground truth of every image, the model and the configuration. *)
Theorem stop_reset_compose (modelId : JS.str) (st : Orchestrator.HookState) :
  let stop := λ s, (Orchestrator.stopEvaluation modelId s).1 in
  let reset := λ s, (Orchestrator.resetEvaluation modelId s).1 in
  stop (stop st) = stop st
  ∧ reset (reset st) = reset st
  ∧ Orchestrator.modelEvaluations (reset (stop st)) = Orchestrator.modelEvaluations (reset st)
  ∧ (∀ other, other ≠ modelId →
       Orchestrator.modelEvaluations (stop st) !! other
       = Orchestrator.modelEvaluations st !! other
       ∧ Orchestrator.modelEvaluations (reset st) !! other
         = Orchestrator.modelEvaluations st !! other
       ∧ Orchestrator.stopFlags (stop st) !! other = Orchestrator.stopFlags st !! other
       ∧ Orchestrator.stopFlags (reset st) !! other = Orchestrator.stopFlags st !! other)
  ∧ (∀ before, Orchestrator.modelEvaluations st !! modelId = Some before →
       ∃ stopped wiped,
         Orchestrator.modelEvaluations (stop st) !! modelId = Some stopped
         ∧ Orchestrator.modelEvaluations (reset st) !! modelId = Some wiped
         ∧ Hook.groundTruth <$> Orchestrator.images stopped
           = Hook.groundTruth <$> Orchestrator.images before
         ∧ Hook.groundTruth <$> Orchestrator.images wiped
           = Hook.groundTruth <$> Orchestrator.images before
         ∧ Orchestrator.model stopped = Orchestrator.model before
         ∧ Orchestrator.model wiped = Orchestrator.model before
         ∧ Orchestrator.config stopped = Orchestrator.config before
         ∧ Orchestrator.config wiped = Orchestrator.config before).
Proof.
  intros stop reset. subst stop reset. cbv beta.
  unfold Orchestrator.stopEvaluation, Orchestrator.resetEvaluation.
  destruct (Orchestrator.modelEvaluations st !! modelId) as [ev|] eqn:Hev;
    cbn [fst Orchestrator.modelEvaluations Orchestrator.stopFlags].
  - rewrite !lookup_insert_eq.
    cbn [fst Orchestrator.modelEvaluations Orchestrator.stopFlags Orchestrator.model
         Orchestrator.images Orchestrator.results Orchestrator.isRunning
         Orchestrator.currentImageIndex Orchestrator.progress Orchestrator.config].
    rewrite !insert_insert_eq. rewrite !fmap_wipe_twice by reflexivity.
    split_and!; try reflexivity.
    + intros other Hother. by rewrite !lookup_insert_ne by done.
    + intros before [= <-]. eexists _, _. split; [reflexivity|]. split; [reflexivity|].
      cbn [Orchestrator.model Orchestrator.images Orchestrator.config].
      rewrite <- !list_fmap_compose. split_and!; reflexivity.
  - rewrite Hev. cbn [fst Orchestrator.modelEvaluations Orchestrator.stopFlags].
    rewrite insert_insert_eq. split_and!; try done.
    intros other Hother. by rewrite lookup_insert_ne by done.
Qed.

(** ** Aircraft ontology *)

Section OntologyFacts.
Import JS Runtime Ontology.

Lemma startsWith_spec (s prefix : str) :
  startsWith s prefix = true ↔ ∃ rest, s = prefix ++ rest.
Proof.
  revert s. induction prefix as [|p prefix IH]; intros s.
  - split; [intros _; by exists s|by destruct s].
  - destruct s as [|c s]; simpl.
    + split; [done|]. by intros [rest ?].
    + rewrite andb_true_iff, N.eqb_eq, IH. split.
      * intros [-> [rest ->]]. by exists rest.
      * intros [rest [= -> ->]]. split; [done|by exists rest].
Qed.

Lemma includesText_spec (s sub : str) :
  includesText s sub = true ↔ ∃ before after, s = before ++ sub ++ after.
Proof.
  induction s as [|c s IH]; cbn [includesText]; rewrite orb_true_iff, startsWith_spec.
  - split.
    + intros [[rest Hrest]|?]; [|done]. by exists [], rest.
    + intros (before & after & Hs). left.
      destruct before; [|done]. by exists after.
  - rewrite IH. split.
    + intros [[rest Hrest]|(before & after & ->)].
      * by exists [], rest.
      * by exists (c :: before), after.
    + intros ([|b before] & after & Hs).
      * left. by exists after.
      * right. injection Hs as -> ->. by exists before, after.
Qed.

Lemma includesText_part (name whole part : str) :
  includesText whole part = true → includesText name whole = true →
  includesText name part = true.
Proof.
  rewrite !includesText_spec.
  intros (b1 & a1 & ->) (b2 & a2 & ->).
  exists (b2 ++ b1), (a1 ++ a2). by rewrite <- !app_assoc.
Qed.

Lemma subcategory_category (name : str) :
  getSubcategoryForAircraft name ≠ js "Unknown" → getCategoryForAircraft name ≠ js "Unknown".
Proof.
  unfold getSubcategoryForAircraft, getCategoryForAircraft.
  destruct (includesText name (js "Civil")) eqn:Hcivil; [done|].
  destruct (includesText name (js "Military")) eqn:Hmilitary; [done|].
  repeat match goal with
         | |- context [includesText name ?whole] =>
           destruct (includesText name whole) eqn:?
         end;
    try done;
    match goal with
    | Hwhole : includesText name ?whole = true |- _ =>
      first [ assert (includesText name (js "Civil") = true)
                by (by apply (includesText_part name whole); [vm_compute|]);
              congruence
            | assert (includesText name (js "Military") = true)
                by (by apply (includesText_part name whole); [vm_compute|]);
              congruence ]
    end.
Qed.

End OntologyFacts.

(** X30. In the ontology loaded from the class table, an aircraft class
    whose subcategory is known has a known category, its role id is its id
    plus one, and what [getAircraftById] finds for an id is a class of the
    ontology with that id. *)
Theorem ontology_coherent (configOntology : list (JS.str * JS.str)) :
  let aircraftOntology := Ontology.loadAircraftOntology configOntology in
  Forall (λ aircraft,
            (Ontology.subcategory aircraft ≠ JS.js "Unknown" →
             Ontology.category aircraft ≠ JS.js "Unknown")
            ∧ Ontology.role_id aircraft = (λ z, z + 1) <$> Ontology.id aircraft)
         aircraftOntology
  ∧ ∀ id aircraft,
      Ontology.getAircraftById aircraftOntology id = Some aircraft →
      aircraft ∈ aircraftOntology ∧ Ontology.id aircraft = Some id.
Proof.
  intros aircraftOntology. split.
  - apply Forall_fmap, Forall_true. intros [key name]. simpl.
    split; [apply subcategory_category|done].
  - intros id aircraft [Hin Hid]%find_some. split; [by apply list_elem_of_In|].
    by apply bool_decide_eq_true in Hid.
Qed.
